(** * Deadline-driven task scheduling: [src/algorithms.py]

    A shallow embedding of the scheduling routines of [algorithms.py]
    ([ldf_single_node], [edf_single_node], [edf_multinode], the two
    placeholder routines [ll_multinode] and [ldf_multinode], and
    [find_link_delay]) together with the properties the design document
    states about them.

    Conventions of the embedding.
    - Python integers are [Z]; task ids are strings, node ids integers.
    - [in_degree] (a [dict]) and [graph] (a [defaultdict(list)]) are
      [gmap]s: their iteration order is never observed.  [node_time] is a
      [dict] whose iteration order is observed, by [min], so it is an
      association list in insertion order.
    - An exception is a value of [exn]; a routine returns a [result].
    - The only write to caller-owned data is [tasks.sort(...)]; every
      scheduling routine therefore returns the caller's data as it stands
      after the call next to its result.
    - A [while] loop is a fixpoint over a bound on the number of iterations;
      the bound is computed from the loop state and shown to be enough
      ([drv_while_fuel], [scheduling_never_runs_out_of_fuel]).

    The file has three parts: the embedding and the vocabulary of the
    statements; facts about the embedding; and the claims of the design
    document, each settled by a theorem or refuted by an evaluation. *)

From stdpp Require Import gmap strings list fin_maps relations sorting.
From Stdlib Require Import ZArith Lia.

Local Open Scope Z_scope.

(** ** Data model *)

(** A task record: [{"id", "wcet", "deadline"}] and the optional key
    ["node_id"] read by [edf_multinode] through [dict.get]. *)
Record Task := {
  t_id : string;
  t_wcet : Z;
  t_deadline : Z;
  t_node_id : option Z
}.

Record Message := {
  sender : string;
  receiver : string
}.

Record ApplicationData := {
  tasks : list Task;
  messages : list Message
}.

Record Node := { n_id : Z }.

Record Link := {
  start_node : Z;
  end_node : Z;
  link_delay : Z
}.

Record PlatformData := {
  nodes : list Node;
  links : list Link
}.

Record ScheduleEntry := {
  task_id : string;
  node_id : Z;
  start_time : Z;
  end_time : Z;
  deadline : Z
}.

Record Schedule := {
  schedule : list ScheduleEntry;
  name : string
}.

#[global] Instance Task_eq_dec : EqDecision Task.
Proof. solve_decision. Defined.
#[global] Instance Message_eq_dec : EqDecision Message.
Proof. solve_decision. Defined.
#[global] Instance ScheduleEntry_eq_dec : EqDecision ScheduleEntry.
Proof. solve_decision. Defined.

(** ** Exceptions *)

Inductive exn := KeyError | StopIteration | ValueError.

(** [OutOfFuel] is not a Python outcome: it marks a loop cut off by its
    iteration bound, which [drv_while_fuel] excludes. *)
Inductive result (A : Type) :=
  | Ok (a : A)
  | Raise (e : exn)
  | OutOfFuel.
Arguments Ok {A} a.
Arguments Raise {A} e.
Arguments OutOfFuel {A}.

#[global] Instance result_ret : MRet result := λ A a, Ok a.
#[global] Instance result_bind : MBind result := λ A B f m,
  match m with
  | Ok a => f a
  | Raise e => Raise e
  | OutOfFuel => OutOfFuel
  end.

(** ** Python primitives used by the routines *)

(** [d[k]] on a [dict]. *)
Definition dict_getitem {V} (d : gmap string V) (k : string) : result V :=
  match d !! k with
  | Some v => Ok v
  | None => Raise KeyError
  end.

(** [graph[k]] on a [defaultdict(list)]: a missing key reads as [[]]. *)
Definition defaultdict_getitem (graph : gmap string (list string)) (k : string)
  : list string :=
  default [] (graph !! k).

(** [sorted(l, key=key, reverse=reverse)]: Python's sort is stable, also
    under [reverse=True]; the stable sort of a list is unique, so insertion
    from the right computes it. *)
Fixpoint insert_by {A} (key : A → Z) (reverse : bool) (x : A) (l : list A)
  : list A :=
  match l with
  | [] => [x]
  | y :: l' =>
      if (if reverse then key y <=? key x else key x <=? key y)
      then x :: y :: l'
      else y :: insert_by key reverse x l'
  end.

Definition py_sorted {A} (key : A → Z) (reverse : bool) (l : list A) : list A :=
  foldr (insert_by key reverse) [] l.

(** [next(t for t in tasks if t['id'] == dependent)]. *)
Fixpoint next_task (tasks : list Task) (dependent : string) : result Task :=
  match tasks with
  | [] => Raise StopIteration
  | t :: tasks' =>
      if decide (t_id t = dependent) then Ok t else next_task tasks' dependent
  end.

(** [{task['id']: 0 for task in tasks}]. *)
Definition init_in_degree (tasks : list Task) : gmap string Z :=
  foldl (λ d task, <[t_id task := 0]> d) ∅ tasks.

(** Lines 75-79, 141-145, 303-307: the loop over the messages. *)
Fixpoint build_graph (messages : list Message)
    (graph : gmap string (list string)) (in_degree : gmap string Z)
  : result (gmap string (list string) * gmap string Z) :=
  match messages with
  | [] => Ok (graph, in_degree)
  | message :: messages' =>
      let graph :=
        <[sender message :=
            defaultdict_getitem graph (sender message) ++ [receiver message]]>
          graph in
      d ← dict_getitem in_degree (receiver message);
      build_graph messages' graph (<[receiver message := d + 1]> in_degree)
  end.

(** [[task for task in tasks if in_degree[task['id']] == 0]]; every task id
    is a key of [in_degree] ([build_graph_lookup]), so the subscript never
    raises here. *)
Definition initially_ready (tasks : list Task) (in_degree : gmap string Z)
  : list Task :=
  filter (λ task, in_degree !! t_id task = Some 0) tasks.

(** The iteration bound of a scheduling loop: the tasks in the ready queue
    plus the in-degrees still to be counted down. *)
Definition pending_in_degree (in_degree : gmap string Z) : nat :=
  sum_list_with (λ kv, Z.to_nat kv.2) (map_to_list in_degree).

Definition loop_bound (in_degree : gmap string Z) (ready_queue : list Task)
  : nat :=
  (length ready_queue + pending_in_degree in_degree)%nat.

(** ** Single-node routines *)

(** Lines 106-111 and 173-178 (the same text in both routines): the
    dependents of the task just scheduled are released. *)
Fixpoint release_dependents (tasks : list Task) (dependents : list string)
    (in_degree : gmap string Z) (ready_queue : list Task)
  : result (gmap string Z * list Task) :=
  match dependents with
  | [] => Ok (in_degree, ready_queue)
  | dependent :: dependents' =>
      d ← dict_getitem in_degree dependent;
      let in_degree := <[dependent := d - 1]> in_degree in
      if decide (d - 1 = 0) then
        dependent_task ← next_task tasks dependent;
        release_dependents tasks dependents' in_degree
          (ready_queue ++ [dependent_task])
      else release_dependents tasks dependents' in_degree ready_queue
  end.

(** Lines 89-114: [while ready_queue:] of [ldf_single_node]. *)
Fixpoint ldf_while (fuel : nat) (tasks : list Task)
    (graph : gmap string (list string)) (in_degree : gmap string Z)
    (ready_queue : list Task) (current_time : Z)
    (ldf_schedule : list ScheduleEntry) {struct fuel}
  : result (list ScheduleEntry) :=
  match ready_queue with
  | [] => Ok ldf_schedule
  | task :: ready_queue =>
      match fuel with
      | O => OutOfFuel
      | S fuel =>
          let start_time_ := current_time in
          let end_time_ := start_time_ + t_wcet task in
          let ldf_schedule :=
            ldf_schedule ++
              [{| task_id := t_id task; node_id := 1;
                  start_time := start_time_; end_time := end_time_;
                  deadline := t_deadline task |}] in
          let current_time := end_time_ in
          '(in_degree, ready_queue) ←
            release_dependents tasks (defaultdict_getitem graph (t_id task))
              in_degree ready_queue;
          let ready_queue := py_sorted t_deadline true ready_queue in
          ldf_while fuel tasks graph in_degree ready_queue current_time
            ldf_schedule
      end
  end.

(** [ldf_single_node(application_data)].  The first component is the
    caller's [application_data] after the call. *)
Definition ldf_single_node (application_data : ApplicationData)
  : ApplicationData * result Schedule :=
  let tasks_ := tasks application_data in
  let messages_ := messages application_data in
  match build_graph messages_ ∅ (init_in_degree tasks_) with
  | Ok (graph, in_degree) =>
      (* tasks.sort(key=lambda task: task['deadline'], reverse=True) *)
      let tasks_ := py_sorted t_deadline true tasks_ in
      let ready_queue := initially_ready tasks_ in_degree in
      let ready_queue := py_sorted t_deadline true ready_queue in
      ({| tasks := tasks_; messages := messages_ |},
       ldf_schedule ←
         ldf_while (loop_bound in_degree ready_queue) tasks_ graph in_degree
           ready_queue 0 [];
       Ok {| schedule := ldf_schedule; name := "LDF Single Node" |})
  | Raise e => (application_data, Raise e)
  | OutOfFuel => (application_data, OutOfFuel)
  end.

(** Lines 156-181: [while ready_queue:] of [edf_single_node]. *)
Fixpoint edf_while (fuel : nat) (tasks : list Task)
    (graph : gmap string (list string)) (in_degree : gmap string Z)
    (ready_queue : list Task) (current_time : Z)
    (edf_schedule : list ScheduleEntry) {struct fuel}
  : result (list ScheduleEntry) :=
  match ready_queue with
  | [] => Ok edf_schedule
  | task :: ready_queue =>
      match fuel with
      | O => OutOfFuel
      | S fuel =>
          let start_time_ := current_time in
          let end_time_ := start_time_ + t_wcet task in
          let edf_schedule :=
            edf_schedule ++
              [{| task_id := t_id task; node_id := 1;
                  start_time := start_time_; end_time := end_time_;
                  deadline := t_deadline task |}] in
          let current_time := end_time_ in
          '(in_degree, ready_queue) ←
            release_dependents tasks (defaultdict_getitem graph (t_id task))
              in_degree ready_queue;
          let ready_queue := py_sorted t_deadline false ready_queue in
          edf_while fuel tasks graph in_degree ready_queue current_time
            edf_schedule
      end
  end.

(** [edf_single_node(application_data)]. *)
Definition edf_single_node (application_data : ApplicationData)
  : ApplicationData * result Schedule :=
  let tasks_ := tasks application_data in
  let messages_ := messages application_data in
  match build_graph messages_ ∅ (init_in_degree tasks_) with
  | Ok (graph, in_degree) =>
      (* tasks.sort(key=lambda task: task['deadline']) *)
      let tasks_ := py_sorted t_deadline false tasks_ in
      let ready_queue := initially_ready tasks_ in_degree in
      let ready_queue := py_sorted t_deadline false ready_queue in
      ({| tasks := tasks_; messages := messages_ |},
       edf_schedule ←
         edf_while (loop_bound in_degree ready_queue) tasks_ graph in_degree
           ready_queue 0 [];
       Ok {| schedule := edf_schedule; name := "EDF Single Node" |})
  | Raise e => (application_data, Raise e)
  | OutOfFuel => (application_data, OutOfFuel)
  end.

(** ** Placeholder routines *)

(** Lines 22-51: the module-level [example_schedule]. *)
Definition example_schedule : list ScheduleEntry :=
  [ {| task_id := "3"; node_id := 0; end_time := 20; deadline := 256;
       start_time := 0 |};
    {| task_id := "2"; node_id := 0; end_time := 40; deadline := 300;
       start_time := 20 |};
    {| task_id := "1"; node_id := 0; end_time := 60; deadline := 250;
       start_time := 40 |};
    {| task_id := "0"; node_id := 0; end_time := 80; deadline := 250;
       start_time := 60 |} ].

(** [ll_multinode]: the body is a docstring followed by one [return]. *)
Definition ll_multinode (application_data : ApplicationData)
    (platform_data : PlatformData) : Schedule :=
  {| schedule := example_schedule; name := "LL Multi Node" |}.

(** [ldf_multinode]. *)
Definition ldf_multinode (application_data : ApplicationData)
    (platform_data : PlatformData) : Schedule :=
  {| schedule := example_schedule; name := "LDF Multi Node" |}.

(** ** Multi-node EDF *)

(** [find_link_delay(links, start_node, end_node)]. *)
Fixpoint find_link_delay (links : list Link) (start_node_ end_node_ : Z) : Z :=
  match links with
  | [] => 0
  | link :: links' =>
      if decide (start_node link = start_node_ ∧ end_node link = end_node_)
      then link_delay link
      else find_link_delay links' start_node_ end_node_
  end.

(** [node_time[k]]. *)
Fixpoint node_time_getitem (node_time : list (Z * Z)) (k : Z) : result Z :=
  match node_time with
  | [] => Raise KeyError
  | (k', v) :: node_time' =>
      if decide (k' = k) then Ok v else node_time_getitem node_time' k
  end.

(** [node_time[k] = v]: a key already present keeps its place in the
    iteration order, a new key goes last. *)
Fixpoint node_time_setitem (node_time : list (Z * Z)) (k v : Z)
  : list (Z * Z) :=
  match node_time with
  | [] => [(k, v)]
  | (k', v') :: node_time' =>
      if decide (k' = k) then (k, v) :: node_time'
      else (k', v') :: node_time_setitem node_time' k v
  end.

(** [{node['id']: 0 for node in nodes}]. *)
Definition init_node_time (nodes : list Node) : list (Z * Z) :=
  foldl (λ d node, node_time_setitem d (n_id node) 0) [] nodes.

(** [min(node_time, key=node_time.get)]: the keys are visited in iteration
    order and the candidate changes only for a strictly smaller value;
    [ValueError] on an empty dictionary. *)
Fixpoint min_from (best : Z * Z) (node_time : list (Z * Z)) : Z * Z :=
  match node_time with
  | [] => best
  | kv :: node_time' =>
      if kv.2 <? best.2 then min_from kv node_time'
      else min_from best node_time'
  end.

Definition min_node (node_time : list (Z * Z)) : result Z :=
  match node_time with
  | [] => Raise ValueError
  | kv :: node_time' => Ok (min_from kv node_time').1
  end.

(** Lines 346-348: the delay applied for a dependent that carries a truthy
    ["node_id"] different from the producer's node. *)
Definition propagate_delay (links : list Link) (node_id_ : Z)
    (dependent_task : Task) (node_time : list (Z * Z))
  : result (list (Z * Z)) :=
  match t_node_id dependent_task with
  | Some hint =>
      if decide (hint ≠ 0 ∧ hint ≠ node_id_) then
        let link_delay_ := find_link_delay links node_id_ hint in
        a ← node_time_getitem node_time hint;
        b ← node_time_getitem node_time node_id_;
        Ok (node_time_setitem node_time hint (Z.max a (b + link_delay_)))
      else Ok node_time
  | None => Ok node_time
  end.

(** Lines 339-350. *)
Fixpoint release_dependents_multi (tasks : list Task) (links : list Link)
    (node_id_ : Z) (dependents : list string) (in_degree : gmap string Z)
    (node_time : list (Z * Z)) (ready_queue : list Task)
  : result (gmap string Z * list (Z * Z) * list Task) :=
  match dependents with
  | [] => Ok (in_degree, node_time, ready_queue)
  | dependent :: dependents' =>
      d ← dict_getitem in_degree dependent;
      let in_degree := <[dependent := d - 1]> in_degree in
      if decide (d - 1 = 0) then
        dependent_task ← next_task tasks dependent;
        node_time ← propagate_delay links node_id_ dependent_task node_time;
        release_dependents_multi tasks links node_id_ dependents' in_degree
          node_time (ready_queue ++ [dependent_task])
      else
        release_dependents_multi tasks links node_id_ dependents' in_degree
          node_time ready_queue
  end.

(** The state of the loop of [edf_multinode]. *)
Record MultiState := {
  m_in_degree : gmap string Z;
  m_node_time : list (Z * Z);
  m_schedule : list ScheduleEntry;
  m_ready_queue : list Task
}.

(** Lines 320-353: one iteration, for [task] just taken off the front of
    the ready queue (whose rest is [m_ready_queue st]). *)
Definition edf_multinode_body (tasks : list Task) (links : list Link)
    (graph : gmap string (list string)) (task : Task) (st : MultiState)
  : result MultiState :=
  node_id_ ← min_node (m_node_time st);
  start_time_ ← node_time_getitem (m_node_time st) node_id_;
  let end_time_ := start_time_ + t_wcet task in
  let schedule_ :=
    m_schedule st ++
      [{| task_id := t_id task; node_id := node_id_;
          start_time := start_time_; end_time := end_time_;
          deadline := t_deadline task |}] in
  let node_time := node_time_setitem (m_node_time st) node_id_ end_time_ in
  '(in_degree, node_time, ready_queue) ←
    release_dependents_multi tasks links node_id_
      (defaultdict_getitem graph (t_id task)) (m_in_degree st) node_time
      (m_ready_queue st);
  Ok {| m_in_degree := in_degree; m_node_time := node_time;
        m_schedule := schedule_;
        m_ready_queue := py_sorted t_deadline false ready_queue |}.

(** Lines 319-353: [while ready_queue:]. *)
Fixpoint edf_multinode_while (fuel : nat) (tasks : list Task)
    (links : list Link) (graph : gmap string (list string)) (st : MultiState)
    {struct fuel} : result (list ScheduleEntry) :=
  match m_ready_queue st with
  | [] => Ok (m_schedule st)
  | task :: ready_queue =>
      match fuel with
      | O => OutOfFuel
      | S fuel =>
          st ← edf_multinode_body tasks links graph task
                 {| m_in_degree := m_in_degree st;
                    m_node_time := m_node_time st;
                    m_schedule := m_schedule st;
                    m_ready_queue := ready_queue |};
          edf_multinode_while fuel tasks links graph st
      end
  end.

(** [edf_multinode(application_data, platform_data)].  The first two
    components are the caller's data after the call. *)
Definition edf_multinode (application_data : ApplicationData)
    (platform_data : PlatformData)
  : ApplicationData * PlatformData * result Schedule :=
  let tasks_ := tasks application_data in
  let messages_ := messages application_data in
  let nodes_ := nodes platform_data in
  let links_ := links platform_data in
  match build_graph messages_ ∅ (init_in_degree tasks_) with
  | Ok (graph, in_degree) =>
      (* tasks.sort(key=lambda task: task['deadline']) *)
      let tasks_ := py_sorted t_deadline false tasks_ in
      let node_time := init_node_time nodes_ in
      let ready_queue := initially_ready tasks_ in_degree in
      let ready_queue := py_sorted t_deadline false ready_queue in
      ({| tasks := tasks_; messages := messages_ |}, platform_data,
       schedule_ ←
         edf_multinode_while (loop_bound in_degree ready_queue) tasks_ links_
           graph
           {| m_in_degree := in_degree; m_node_time := node_time;
              m_schedule := []; m_ready_queue := ready_queue |};
       Ok {| schedule := schedule_; name := "EDF Multi Node" |})
  | Raise e => (application_data, platform_data, Raise e)
  | OutOfFuel => (application_data, platform_data, OutOfFuel)
  end.

(** ** The three scheduling loops as one driver

    The three [while] loops differ in the order applied to the ready queue,
    in how a task is placed on a timeline ([assign]) and in what a release
    does to the clocks ([on_release]).  [drv_while] is the loop with these
    three left open; [ldf_while_drv], [edf_while_drv] and
    [edf_multinode_while_drv] show that each loop above is an instance, so
    that the facts about the loop are proved once. *)

Section Driver.
Context {C : Type}.
Variable order : list Task → list Task.
Variable assign : C → Task → result (ScheduleEntry * C).
Variable on_release : Z → Task → C → result C.
Variable tasks_ : list Task.
Variable graph : gmap string (list string).

Fixpoint drv_release (node_id_ : Z) (dependents : list string)
    (in_degree : gmap string Z) (clock : C) (ready_queue : list Task)
  : result (gmap string Z * C * list Task) :=
  match dependents with
  | [] => Ok (in_degree, clock, ready_queue)
  | dependent :: dependents' =>
      d ← dict_getitem in_degree dependent;
      let in_degree := <[dependent := d - 1]> in_degree in
      if decide (d - 1 = 0) then
        dependent_task ← next_task tasks_ dependent;
        clock ← on_release node_id_ dependent_task clock;
        drv_release node_id_ dependents' in_degree clock
          (ready_queue ++ [dependent_task])
      else drv_release node_id_ dependents' in_degree clock ready_queue
  end.

Fixpoint drv_while (fuel : nat) (in_degree : gmap string Z) (clock : C)
    (sched : list ScheduleEntry) (ready_queue : list Task) {struct fuel}
  : result (list ScheduleEntry) :=
  match ready_queue with
  | [] => Ok sched
  | task :: ready_queue =>
      match fuel with
      | O => OutOfFuel
      | S fuel =>
          '(entry, clock) ← assign clock task;
          '(in_degree, clock, ready_queue) ←
            drv_release (node_id entry)
              (defaultdict_getitem graph (t_id task)) in_degree clock
              ready_queue;
          drv_while fuel in_degree clock (sched ++ [entry])
            (order ready_queue)
      end
  end.

End Driver.

(** The single-node instance: one clock, node id [1]. *)
Definition assign_single (current_time : Z) (task : Task)
  : result (ScheduleEntry * Z) :=
  Ok ({| task_id := t_id task; node_id := 1; start_time := current_time;
         end_time := current_time + t_wcet task;
         deadline := t_deadline task |},
      current_time + t_wcet task).

Definition on_release_single (node_id_ : Z) (dependent_task : Task)
    (current_time : Z) : result Z :=
  Ok current_time.

(** The multi-node instance: the clocks are [node_time]. *)
Definition assign_multi (node_time : list (Z * Z)) (task : Task)
  : result (ScheduleEntry * list (Z * Z)) :=
  node_id_ ← min_node node_time;
  start_time_ ← node_time_getitem node_time node_id_;
  Ok ({| task_id := t_id task; node_id := node_id_;
         start_time := start_time_; end_time := start_time_ + t_wcet task;
         deadline := t_deadline task |},
      node_time_setitem node_time node_id_ (start_time_ + t_wcet task)).

(** ** Vocabulary of the statements *)

(** The ids of the tasks, in list order. *)
Definition task_ids (tasks : list Task) : list string := t_id <$> tasks.

(** [edge messages a b]: some message has sender [a] and receiver [b]. *)
Definition edge (messages : list Message) (a b : string) : Prop :=
  ∃ m, m ∈ messages ∧ sender m = a ∧ receiver m = b.

(** A task lies on a cycle when a non-empty path of messages leads from it
    back to itself; the dependency graph is acyclic when no id does. *)
Definition on_cycle (messages : list Message) (t : string) : Prop :=
  tc (edge messages) t t.

Definition acyclic (messages : list Message) : Prop :=
  ∀ t, ¬ on_cycle messages t.

Definition receivers_known (app : ApplicationData) : Prop :=
  Forall (λ m, receiver m ∈ task_ids (tasks app)) (messages app).

Definition senders_known (app : ApplicationData) : Prop :=
  Forall (λ m, sender m ∈ task_ids (tasks app)) (messages app).

#[global] Instance receivers_known_dec app : Decision (receivers_known app).
Proof. unfold receivers_known. apply _. Defined.

(** The node ids of the platform, and a task whose ["node_id"], when it has
    a truthy one, names a node of the platform. *)
Definition node_ids (plat : PlatformData) : list Z := n_id <$> nodes plat.

Definition hints_known (app : ApplicationData) (plat : PlatformData) : Prop :=
  ∀ t h, t ∈ tasks app → t_node_id t = Some h → h ≠ 0 → h ∈ node_ids plat.

(** [before l a b]: [a] stands at an earlier index of [l] than [b]. *)
Definition before {A} (l : list A) (a b : A) : Prop :=
  ∃ i j, l !! i = Some a ∧ l !! j = Some b ∧ (i < j)%nat.

(** An entry that was made for task [t]. *)
Definition entry_of (e : ScheduleEntry) (t : Task) : Prop :=
  task_id e = t_id t ∧ deadline e = t_deadline t ∧
  end_time e = start_time e + t_wcet t.

(** Consecutive entries meet: each starts where the one before ends. *)
Definition contiguous (l : list ScheduleEntry) : Prop :=
  ∀ i e1 e2, l !! i = Some e1 → l !! S i = Some e2 →
    start_time e2 = end_time e1.

(** [contiguous_from t l]: [l] is contiguous and starts at time [t]. *)
Fixpoint contiguous_from (t : Z) (l : list ScheduleEntry) : Prop :=
  match l with
  | [] => True
  | e :: l' => start_time e = t ∧ contiguous_from (end_time e) l'
  end.

(** The time at which a schedule that starts at [t] ends. *)
Definition finish_time (t : Z) (l : list ScheduleEntry) : Z :=
  foldl (λ _ e, end_time e) t l.

(** In-degree bookkeeping: the messages into [t] whose sender is not among
    [done], and the occurrences of [t] in a list of dependents. *)
Definition unmet (messages : list Message) (done : list string) (t : string)
  : nat :=
  length (filter (λ m, receiver m = t ∧ sender m ∉ done) messages).

Definition occurrences (t : string) (l : list string) : nat :=
  length (filter (λ d, d = t) l).

(** The receivers of the messages sent by [s], in message order. *)
Definition receivers_of (messages : list Message) (s : string) : list string :=
  receiver <$> filter (λ m, sender m = s) messages.

(** The order a sort by [key] establishes: ascending, or descending under
    [reverse]. *)
Definition key_le {A} (key : A → Z) (reverse : bool) (x y : A) : Prop :=
  if reverse then key y ≤ key x else key x ≤ key y.

(** ** A whole call, in terms of the driver *)

(** The body shared by the three routines: build the graph, sort the task
    list, seed and sort the ready queue, run the loop. *)
Definition drv_run {C : Type} (reverse : bool)
    (assign : C → Task → result (ScheduleEntry * C))
    (on_release : Z → Task → C → result C) (clock : C)
    (application_data : ApplicationData) : result (list ScheduleEntry) :=
  '(graph, in_degree) ←
    build_graph (messages application_data) ∅
      (init_in_degree (tasks application_data));
  let tasks_ := py_sorted t_deadline reverse (tasks application_data) in
  let ready_queue :=
    py_sorted t_deadline reverse (initially_ready tasks_ in_degree) in
  drv_while (py_sorted t_deadline reverse) assign on_release tasks_ graph
    (loop_bound in_degree ready_queue) in_degree clock [] ready_queue.

(** The caller's task list after a call: sorted in place unless the loop
    over the messages raised first. *)
Definition tasks_after (reverse : bool) (application_data : ApplicationData)
  : ApplicationData :=
  match build_graph (messages application_data) ∅
          (init_in_degree (tasks application_data)) with
  | Ok _ =>
      {| tasks := py_sorted t_deadline reverse (tasks application_data);
         messages := messages application_data |}
  | _ => application_data
  end.

(** ** Invariants used in the proofs *)

(** The invariant of the release discipline.  [done] are the ids scheduled
    so far (in order), [q] the ready queue and [pending] the dependents of
    the task just scheduled that the inner loop has still to visit.  The in-degree of a task is the number of messages
    into it whose sender is not scheduled yet, plus its pending visits; a
    task is scheduled or queued exactly when that number is zero; and every
    message into a scheduled task comes from a task scheduled earlier. *)
Definition kahn_inv (tasks_ : list Task) (messages_ : list Message)
    (pending : list string) (i : gmap string Z) (done : list string)
    (q : list Task) : Prop :=
  NoDup (done ++ task_ids q)
  ∧ (∀ t, t ∈ done ++ task_ids q → t ∈ task_ids tasks_)
  ∧ (∀ t, t ∈ task_ids tasks_ →
       i !! t = Some (Z.of_nat (unmet messages_ done t + occurrences t pending)))
  ∧ (∀ t, t ∈ task_ids tasks_ →
       t ∈ done ++ task_ids q
       ↔ (unmet messages_ done t + occurrences t pending = 0)%nat)
  ∧ (∀ d, d ∈ pending → d ∈ task_ids tasks_)
  ∧ (∀ a b, edge messages_ a b → b ∈ done → before done a b).

(** The part of the state that keeps the loop from raising: every dependent
    is a key of [in_degree], and every key is the id of a task. *)
Definition keys_ok (tasks_ : list Task) (graph : gmap string (list string))
    (i : gmap string Z) : Prop :=
  (∀ k d, d ∈ defaultdict_getitem graph k → is_Some (i !! d))
  ∧ (∀ k, is_Some (i !! k) → k ∈ task_ids tasks_).

(** The clock of a single-node loop is where its schedule ends, and the
    schedule is contiguous from time [0]. *)
Definition single_clock (c : Z) (s : list ScheduleEntry) : Prop :=
  contiguous_from 0 s ∧ c = finish_time 0 s.

(** The clocks let the multi-node loop run: there is a node, and every
    truthy ["node_id"] carried by a task is a key of [node_time]. *)
Definition clocks_ok (tasks_ : list Task) (nt : list (Z * Z)) : Prop :=
  nt ≠ [] ∧ ∀ t h, t ∈ tasks_ → t_node_id t = Some h → h ≠ 0 → h ∈ nt.*1.

(** The clocks of the multi-node loop against its schedule: no entry ends
    after the clock of its node, and of two entries on one node the later
    one starts no earlier than the earlier one ends. *)
Definition multi_clock (nt : list (Z * Z)) (s : list ScheduleEntry) : Prop :=
  NoDup nt.*1
  ∧ (∀ e, e ∈ s → ∃ v, (node_id e, v) ∈ nt ∧ end_time e ≤ v)
  ∧ (∀ i j e1 e2, s !! i = Some e1 → s !! j = Some e2 → (i < j)%nat →
       node_id e1 = node_id e2 → end_time e1 ≤ start_time e2).

(** ** Example inputs *)

Definition task (i : string) (wcet_ deadline_ : Z) : Task :=
  {| t_id := i; t_wcet := wcet_; t_deadline := deadline_;
     t_node_id := None |}.

Definition msg (s r : string) : Message := {| sender := s; receiver := r |}.

(** Three tasks, [A] before [B]; two nodes; a delay of [5] from node [1] to
    node [2]. *)
Definition chain_app : ApplicationData :=
  {| tasks := [task "A" 10 1; task "B" 5 2; task "C" 5 3];
     messages := [msg "A" "B"] |}.

Definition two_nodes : PlatformData :=
  {| nodes := [{| n_id := 1 |}; {| n_id := 2 |}];
     links := [{| start_node := 1; end_node := 2; link_delay := 5 |}] |}.

(** [A] and [B] wait for each other; [C] is free. *)
Definition cyclic_app : ApplicationData :=
  {| tasks := [task "A" 10 1; task "B" 5 2; task "C" 5 3];
     messages := [msg "A" "B"; msg "B" "A"] |}.

(** Two ready tasks with one deadline, the larger id first in the list. *)
Definition tie_app : ApplicationData :=
  {| tasks := [task "1" 20 250; task "0" 20 250]; messages := [] |}.

(** The same two tasks, and a task with an earlier deadline that the first
    of them releases. *)
Definition tie_release_app : ApplicationData :=
  {| tasks := [task "1" 20 250; task "0" 20 250; task "2" 20 100];
     messages := [msg "1" "2"] |}.

(** Two nodes free at the same time, the larger id first in the list. *)
Definition nodes_2_1 : PlatformData :=
  {| nodes := [{| n_id := 2 |}; {| n_id := 1 |}]; links := [] |}.

(** One task, no message. *)
Definition one_task_app : ApplicationData :=
  {| tasks := [task "A" 10 1]; messages := [] |}.

(** A message from ["X"], which is no task, to the task ["A"]. *)
Definition unknown_sender_app : ApplicationData :=
  {| tasks := [task "A" 10 1]; messages := [msg "X" "A"] |}.

(** [A] before [B], and [B] carries the ["node_id"] [2]; three nodes, with
    a delay of [5] from node [1] to each of the others. *)
Definition hinted_app : ApplicationData :=
  {| tasks := [task "A" 10 1;
               {| t_id := "B"; t_wcet := 5; t_deadline := 2;
                  t_node_id := Some 2 |}];
     messages := [msg "A" "B"] |}.

Definition three_nodes : PlatformData :=
  {| nodes := [{| n_id := 1 |}; {| n_id := 2 |}; {| n_id := 3 |}];
     links := [{| start_node := 1; end_node := 2; link_delay := 5 |};
               {| start_node := 1; end_node := 3; link_delay := 5 |}] |}.

(** The four tasks of the design document's first scenario. *)
Definition scenario_app : ApplicationData :=
  {| tasks := [task "0" 20 250; task "1" 20 250; task "2" 20 300;
               task "3" 20 256];
     messages := [] |}.

(** ** Vocabulary of the further properties *)

(** [returns app plat s]: [s] is the schedule one of the three scheduling
    routines returns on these inputs. *)
Definition returns (app : ApplicationData) (plat : PlatformData)
    (s : Schedule) : Prop :=
  (ldf_single_node app).2 = Ok s ∨ (edf_single_node app).2 = Ok s
  ∨ (edf_multinode app plat).2 = Ok s.

(** The execution times of a task list, added up. *)
Definition total_wcet (tasks_ : list Task) : Z :=
  foldr (λ t acc, t_wcet t + acc) 0 tasks_.

(** An entry moved to node [n]. *)
Definition on_node (n : Z) (e : ScheduleEntry) : ScheduleEntry :=
  {| task_id := task_id e; node_id := n; start_time := start_time e;
     end_time := end_time e; deadline := deadline e |}.

(** The clocks of the multi-node loop stay on the nodes [K], and neither a
    clock nor a start time is negative. *)
Definition clock_range (K : list Z) (nt : list (Z * Z))
    (s : list ScheduleEntry) : Prop :=
  nt.*1 = K
  ∧ Forall (λ kv, 0 ≤ kv.2) nt
  ∧ Forall (λ e, node_id e ∈ K ∧ 0 ≤ start_time e) s.

(** [result] is a functor. *)
#[global] Instance result_fmap : FMap result := λ A B f m,
  match m with
  | Ok a => Ok (f a)
  | Raise e => Raise e
  | OutOfFuel => OutOfFuel
  end.

(** [guarded a b l]: reading [l] from the front, [a] is met before any
    [b] (or there is no [b]). *)
Fixpoint guarded {A} (a b : A) (l : list A) : Prop :=
  match l with
  | [] => True
  | x :: l' => x = a ∨ (x ≠ b ∧ guarded a b l')
  end.

(** [a] goes before [b] in the order of a routine: its deadline is at
    least as good, and at equal deadlines it is listed before [b]. *)
Definition has_priority (reverse : bool) (tasks_ : list Task) (a b : Task)
  : Prop :=
  key_le t_deadline reverse a b
  ∧ (key_le t_deadline reverse b a → guarded a b tasks_).

(** A task that receives no message. *)
Definition free_task (app : ApplicationData) (t : Task) : Prop :=
  t ∈ tasks app ∧ ∀ m, m ∈ messages app → receiver m ≠ t_id t.

(** A link from [a] to [b]. *)
Definition link_matches (a b : Z) (link : Link) : Prop :=
  start_node link = a ∧ end_node link = b.

(** [A] and [B] wait for each other, and there is no other task. *)
Definition deadlock_app : ApplicationData :=
  {| tasks := [task "A" 10 1; task "B" 5 2];
     messages := [msg "A" "B"; msg "B" "A"] |}.

(** [chain_app] with its tasks listed in another order. *)
Definition chain_app_shuffled : ApplicationData :=
  {| tasks := [task "C" 5 3; task "A" 10 1; task "B" 5 2];
     messages := [msg "A" "B"] |}.

Definition one_node (n : Z) : PlatformData :=
  {| nodes := [{| n_id := n |}]; links := [] |}.

Definition no_nodes : PlatformData := {| nodes := []; links := [] |}.

(** * Facts *)

(** ** The result monad *)

Lemma bind_Ok {A B} (f : A → result B) (m : result A) (b : B) :
  m ≫= f = Ok b → ∃ a, m = Ok a ∧ f a = Ok b.
Proof. destruct m as [a| |]; simpl; [eauto | done | done]. Qed.

Lemma bind_not_OutOfFuel {A B} (f : A → result B) (m : result A) :
  m ≠ OutOfFuel → (∀ a, m = Ok a → f a ≠ OutOfFuel) → m ≫= f ≠ OutOfFuel.
Proof. destruct m as [a| |]; simpl; [eauto | done | done]. Qed.

Lemma dict_getitem_Ok {V} (d : gmap string V) k v :
  dict_getitem d k = Ok v ↔ d !! k = Some v.
Proof. unfold dict_getitem. destruct (d !! k); split; congruence. Qed.

Lemma dict_getitem_not_OutOfFuel {V} (d : gmap string V) k :
  dict_getitem d k ≠ OutOfFuel.
Proof. unfold dict_getitem. by destruct (d !! k). Qed.

(** ** [sorted]: a stable sort *)

Section Sorted.
Context {A : Type} (key : A → Z) (reverse : bool).

Lemma insert_by_test (x y : A) :
  (if reverse then key y <=? key x else key x <=? key y) = true
  ↔ key_le key reverse x y.
Proof. unfold key_le. destruct reverse; apply Z.leb_le. Qed.

Lemma insert_by_perm (x : A) l : insert_by key reverse x l ≡ₚ x :: l.
Proof.
  induction l as [|y l IH]; simpl; [done|].
  destruct (if reverse then _ else _); [done|].
  rewrite IH. apply Permutation_swap.
Qed.

Lemma py_sorted_perm l : py_sorted key reverse l ≡ₚ l.
Proof.
  induction l as [|x l IH]; simpl; [done|].
  by rewrite insert_by_perm, IH.
Qed.

Lemma py_sorted_length l : length (py_sorted key reverse l) = length l.
Proof. by rewrite py_sorted_perm. Qed.

Lemma py_sorted_elem_of x l : x ∈ py_sorted key reverse l ↔ x ∈ l.
Proof. by rewrite py_sorted_perm. Qed.

Lemma key_le_trans x y z :
  key_le key reverse x y → key_le key reverse y z → key_le key reverse x z.
Proof. unfold key_le. destruct reverse; lia. Qed.

Lemma key_le_total x y : key_le key reverse x y ∨ key_le key reverse y x.
Proof. unfold key_le. destruct reverse; lia. Qed.

Lemma insert_by_sorted x l :
  StronglySorted (key_le key reverse) l →
  StronglySorted (key_le key reverse) (insert_by key reverse x l).
Proof.
  induction 1 as [|y l Hl IH Hy]; simpl.
  - repeat constructor.
  - destruct (if reverse then _ else _) eqn:Htest.
    + apply insert_by_test in Htest.
      constructor; [by constructor|].
      constructor; [done|].
      eapply Forall_impl; [exact Hy|]. intros z Hz.
      eapply key_le_trans; eauto.
    + assert (key_le key reverse y x) as Hyx.
      { destruct (key_le_total x y) as [Hxy|]; [|done].
        apply insert_by_test in Hxy. congruence. }
      constructor; [done|].
      rewrite insert_by_perm. by constructor.
Qed.

Lemma py_sorted_sorted l :
  StronglySorted (key_le key reverse) (py_sorted key reverse l).
Proof.
  induction l as [|x l IH]; simpl; [constructor|].
  by apply insert_by_sorted.
Qed.

(** Stability: the elements with one key keep their relative order. *)
Lemma insert_by_filter_key d x l :
  filter (λ y, key y = d) (insert_by key reverse x l)
  = filter (λ y, key y = d) (x :: l).
Proof.
  induction l as [|y l IH]; simpl; [done|].
  destruct (if reverse then _ else _) eqn:Htest; [done|].
  assert (key x ≠ key y) as Hne.
  { intros Heq.
    assert (key_le key reverse x y) as Hle
      by (unfold key_le; destruct reverse; lia).
    apply insert_by_test in Hle. congruence. }
  rewrite (filter_cons _ y), IH, !filter_cons.
  repeat case_decide; congruence.
Qed.

Lemma py_sorted_stable d l :
  filter (λ y, key y = d) (py_sorted key reverse l)
  = filter (λ y, key y = d) l.
Proof.
  induction l as [|x l IH]; simpl; [done|].
  by rewrite insert_by_filter_key, !filter_cons, IH.
Qed.

(** A list that is already in order is left as it is. *)
Lemma py_sorted_id l :
  Sorted (key_le key reverse) l → py_sorted key reverse l = l.
Proof.
  induction 1 as [|x l Hl IH Hx]; simpl; [done|].
  rewrite IH. destruct Hx as [|y l Hxy]; simpl; [done|].
  apply insert_by_test in Hxy. by rewrite Hxy.
Qed.

Lemma py_sorted_idemp l :
  py_sorted key reverse (py_sorted key reverse l) = py_sorted key reverse l.
Proof.
  apply py_sorted_id, StronglySorted_Sorted, py_sorted_sorted.
Qed.

End Sorted.

Lemma filter_comm {A} (P Q : A → Prop) `{!∀ x, Decision (P x)}
    `{!∀ x, Decision (Q x)} (l : list A) :
  filter P (filter Q l) = filter Q (filter P l).
Proof. rewrite !list_filter_filter. apply list_filter_iff. tauto. Qed.

Lemma filter_eq_cons_split {A} (P : A → Prop) `{∀ x, Decision (P x)}
    (l : list A) x r :
  filter P l = x :: r →
  ∃ l1 l2, l = l1 ++ x :: l2 ∧ Forall (λ y, ¬ P y) l1 ∧ P x ∧ r = filter P l2.
Proof.
  induction l as [|y l IH]; [done|].
  rewrite filter_cons. case_decide as Hy.
  - intros [= -> <-]. exists [], l. by repeat split.
  - intros (l1 & l2 & -> & Hl1 & Hx & Hr)%IH.
    exists (y :: l1), l2. repeat split; try done. by constructor.
Qed.

(** What the head of a sorted queue is: the first element of the queue whose
    key is extremal. *)
Lemma py_sorted_head {A} (key : A → Z) reverse (l : list A) x r :
  py_sorted key reverse l = x :: r →
  ∃ l1 l2, l = l1 ++ x :: l2
    ∧ Forall (λ y, key_le key reverse x y ∧ key y ≠ key x) l1
    ∧ Forall (λ y, key_le key reverse x y) l2.
Proof.
  intros Hs.
  assert (Forall (key_le key reverse x) l) as Hmin.
  { pose proof (py_sorted_sorted key reverse l) as Hsorted.
    rewrite Hs in Hsorted. apply StronglySorted_inv in Hsorted as [_ Hr].
    apply Forall_forall. intros y Hy.
    rewrite <-(py_sorted_perm key reverse l), Hs in Hy.
    apply elem_of_cons in Hy as [->|Hy].
    - unfold key_le. destruct reverse; lia.
    - by eapply Forall_forall in Hr. }
  pose proof (py_sorted_stable key reverse (key x) l) as Hst.
  rewrite Hs, filter_cons in Hst. case_decide; [|done].
  symmetry in Hst.
  apply filter_eq_cons_split in Hst as (l1 & l2 & -> & Hl1 & _ & _).
  exists l1, l2. split; [done|].
  apply Forall_app in Hmin as [Hm1 Hm2].
  apply Forall_cons in Hm2 as [_ Hm2]. split; [|done].
  apply Forall_forall. intros y Hy. split.
  - by eapply Forall_forall in Hm1.
  - by eapply Forall_forall in Hl1.
Qed.

(** ** Looking a task up, and the dependency graph *)

Lemma next_task_Ok tasks d t :
  next_task tasks d = Ok t → t ∈ tasks ∧ t_id t = d.
Proof.
  induction tasks as [|t' tasks IH]; simpl; [done|].
  case_decide as Hid.
  - intros [= ->]. split; [left | done].
  - intros [? ?]%IH. split; [by right | done].
Qed.

Lemma next_task_known tasks d :
  d ∈ task_ids tasks → ∃ t, next_task tasks d = Ok t.
Proof.
  unfold task_ids. induction tasks as [|t' tasks IH]; simpl.
  - by intros ?%elem_of_nil.
  - intros Hd. case_decide as Hid; [eauto|].
    apply elem_of_cons in Hd as [Hd|Hd]; [congruence | eauto].
Qed.

Lemma next_task_not_OutOfFuel tasks d : next_task tasks d ≠ OutOfFuel.
Proof. induction tasks; simpl; [done|]. by case_decide. Qed.

Lemma init_in_degree_lookup tasks k :
  init_in_degree tasks !! k
  = if decide (k ∈ task_ids tasks) then Some 0 else None.
Proof.
  unfold init_in_degree, task_ids.
  assert (∀ d : gmap string Z,
    foldl (λ d task, <[t_id task := 0]> d) d tasks !! k
    = if decide (k ∈ t_id <$> tasks) then Some 0 else d !! k) as Hgen.
  { induction tasks as [|t tasks IH]; intros d; [done|].
    rewrite fmap_cons. cbn [foldl]. rewrite IH.
    destruct (decide (k ∈ t_id <$> tasks)) as [Hin|Hin].
    - rewrite decide_True; [done | by right].
    - destruct (decide (k = t_id t)) as [->|Hne].
      + rewrite decide_True by left. apply lookup_insert_eq.
      + rewrite decide_False by (by intros [?|?]%elem_of_cons).
        by rewrite lookup_insert_ne. }
  by rewrite Hgen, lookup_empty.
Qed.

Lemma init_in_degree_perm tasks tasks' :
  tasks ≡ₚ tasks' → init_in_degree tasks = init_in_degree tasks'.
Proof.
  intros Hp. apply map_eq. intros k. rewrite !init_in_degree_lookup.
  unfold task_ids. repeat case_decide; try done; exfalso.
  - rewrite Hp in *. done.
  - rewrite <-Hp in *. done.
Qed.

Lemma unmet_cons messages m done t :
  unmet (m :: messages) done t
  = ((if decide (receiver m = t ∧ sender m ∉ done) then 1 else 0)
     + unmet messages done t)%nat.
Proof. unfold unmet. rewrite filter_cons. by case_decide. Qed.

Lemma occurrences_cons t d l :
  occurrences t (d :: l)
  = ((if decide (d = t) then 1 else 0) + occurrences t l)%nat.
Proof. unfold occurrences. rewrite filter_cons. by case_decide. Qed.

Lemma receivers_of_cons messages m s :
  receivers_of (m :: messages) s
  = (if decide (sender m = s) then [receiver m] else [])
    ++ receivers_of messages s.
Proof. unfold receivers_of. rewrite filter_cons. by case_decide. Qed.

Lemma defaultdict_getitem_insert graph k l k' :
  defaultdict_getitem (<[k := l]> graph) k'
  = if decide (k = k') then l else defaultdict_getitem graph k'.
Proof.
  unfold defaultdict_getitem. rewrite lookup_insert.
  by case_decide.
Qed.

(** What the loop over the messages computes: adjacency lists in message
    order, and one count per message into each key. *)
Lemma build_graph_Ok messages graph in_degree graph' in_degree' :
  build_graph messages graph in_degree = Ok (graph', in_degree') →
  (∀ s, defaultdict_getitem graph' s
        = defaultdict_getitem graph s ++ receivers_of messages s)
  ∧ (∀ k, in_degree' !! k
          = (λ v, v + Z.of_nat (unmet messages [] k)) <$> in_degree !! k)
  ∧ (∀ m, m ∈ messages → is_Some (in_degree !! receiver m)).
Proof.
  revert graph in_degree.
  induction messages as [|m messages IH]; intros graph in_degree; simpl.
  - intros [= <- <-]. split_and!.
    + intros s. unfold receivers_of. simpl. by rewrite app_nil_r.
    + intros k. destruct (in_degree !! k) as [v|]; simpl; [|done].
      f_equal. unfold unmet. simpl. lia.
    + by intros m ?%elem_of_nil.
  - intros (d & Hd%dict_getitem_Ok & Hrec)%bind_Ok.
    apply IH in Hrec as (Hg & Hi & Hk). split_and!.
    + intros s. rewrite Hg, defaultdict_getitem_insert, receivers_of_cons.
      case_decide as Hs; [subst s|]; by rewrite <-?app_assoc.
    + intros k. rewrite Hi, unmet_cons, lookup_insert.
      case_decide as Hr.
      * subst k. rewrite Hd. simpl. f_equal.
        rewrite decide_True; [lia|]. split; [done | apply not_elem_of_nil].
      * rewrite decide_False by (by intros [? _]).
        destruct (in_degree !! k); simpl; [f_equal; lia | done].
    + intros m' [->|Hm']%elem_of_cons; [by rewrite Hd|].
      apply Hk in Hm'. rewrite lookup_insert in Hm'.
      case_decide as Hr; [by rewrite <-Hr, Hd | done].
Qed.

(** The loop over the messages raises exactly when some receiver is not a
    key of [in_degree], and then it raises [KeyError]. *)
Lemma build_graph_known messages graph in_degree :
  (∀ m, m ∈ messages → is_Some (in_degree !! receiver m)) →
  ∃ r, build_graph messages graph in_degree = Ok r.
Proof.
  revert graph in_degree.
  induction messages as [|m messages IH]; intros graph in_degree Hk; simpl.
  - eauto.
  - destruct (Hk m) as [d Hd]; [left|].
    unfold dict_getitem at 1. rewrite Hd. simpl. apply IH.
    intros m' Hm'. rewrite lookup_insert. case_decide; [done|].
    apply Hk. by right.
Qed.

Lemma build_graph_unknown messages graph in_degree m :
  m ∈ messages → in_degree !! receiver m = None →
  build_graph messages graph in_degree = Raise KeyError.
Proof.
  revert graph in_degree.
  induction messages as [|m' messages IH]; intros graph in_degree Hm Hnone.
  - by apply elem_of_nil in Hm.
  - simpl. unfold dict_getitem at 1.
    destruct (in_degree !! receiver m') as [d|] eqn:Hd; simpl; [|done].
    apply elem_of_cons in Hm as [->|Hm]; [congruence|].
    apply IH; [done|]. rewrite lookup_insert_ne; [done|]. congruence.
Qed.

Lemma build_graph_not_OutOfFuel messages graph in_degree :
  build_graph messages graph in_degree ≠ OutOfFuel.
Proof.
  revert graph in_degree.
  induction messages as [|m messages IH]; intros graph in_degree; simpl.
  - done.
  - apply bind_not_OutOfFuel; [apply dict_getitem_not_OutOfFuel | eauto].
Qed.

(** ** The loops are instances of the driver *)

Lemma release_dependents_drv tasks n deps i (c : Z) q :
  drv_release on_release_single tasks n deps i c q
  = '(i', q') ← release_dependents tasks deps i q; Ok (i', c, q').
Proof.
  revert i q. induction deps as [|d deps IH]; intros i q; simpl; [done|].
  destruct (dict_getitem i d) as [v| |]; simpl; [|done..].
  case_decide; [|apply IH].
  destruct (next_task tasks d) as [dt| |]; simpl; [apply IH | done..].
Qed.

Lemma ldf_while_drv fuel tasks graph i q c s :
  ldf_while fuel tasks graph i q c s
  = drv_while (py_sorted t_deadline true) assign_single on_release_single
      tasks graph fuel i c s q.
Proof.
  revert i q c s. induction fuel as [|fuel IH]; intros i q c s;
    destruct q as [|t q]; simpl; try done.
  rewrite release_dependents_drv.
  destruct (release_dependents _ _ _ _) as [[i' q']| |]; simpl; [apply IH|done..].
Qed.

Lemma edf_while_drv fuel tasks graph i q c s :
  edf_while fuel tasks graph i q c s
  = drv_while (py_sorted t_deadline false) assign_single on_release_single
      tasks graph fuel i c s q.
Proof.
  revert i q c s. induction fuel as [|fuel IH]; intros i q c s;
    destruct q as [|t q]; simpl; try done.
  rewrite release_dependents_drv.
  destruct (release_dependents _ _ _ _) as [[i' q']| |]; simpl; [apply IH|done..].
Qed.

Lemma release_dependents_multi_drv tasks links n deps i nt q :
  release_dependents_multi tasks links n deps i nt q
  = drv_release (propagate_delay links) tasks n deps i nt q.
Proof.
  revert i nt q. induction deps as [|d deps IH]; intros i nt q; simpl; [done|].
  destruct (dict_getitem i d) as [v| |]; simpl; [|done..].
  case_decide; [|apply IH].
  destruct (next_task tasks d) as [dt| |]; simpl; [|done..].
  destruct (propagate_delay links n dt nt) as [nt'| |]; simpl; [apply IH|done..].
Qed.

Lemma edf_multinode_while_drv fuel tasks links graph st :
  edf_multinode_while fuel tasks links graph st
  = drv_while (py_sorted t_deadline false) assign_multi (propagate_delay links)
      tasks graph fuel (m_in_degree st) (m_node_time st) (m_schedule st)
      (m_ready_queue st).
Proof.
  revert st. induction fuel as [|fuel IH]; intros [i nt s q];
    destruct q as [|t q]; simpl; try done.
  unfold edf_multinode_body, assign_multi. simpl.
  destruct (min_node nt) as [n| |]; simpl; [|done..].
  destruct (node_time_getitem nt n) as [v| |]; simpl; [|done..].
  rewrite release_dependents_multi_drv.
  destruct (drv_release _ _ _ _ _ _ _) as [[[i' nt'] q']| |]; simpl; [|done..].
  by rewrite IH.
Qed.

(** ** The iteration bound *)

Lemma pending_in_degree_insert (i : gmap string Z) k v v' :
  i !! k = Some v →
  (pending_in_degree (<[k := v']> i) + Z.to_nat v
   = pending_in_degree i + Z.to_nat v')%nat.
Proof.
  intros Hk. unfold pending_in_degree.
  rewrite <-(insert_delete_eq i k v').
  rewrite map_to_list_insert by apply lookup_delete_eq.
  rewrite <-(map_to_list_delete i k v Hk). simpl. lia.
Qed.

Section DriverFacts.
Context {C : Type}.
Variable order : list Task → list Task.
Variable assign : C → Task → result (ScheduleEntry * C).
Variable on_release : Z → Task → C → result C.
Variable tasks_ : list Task.
Variable graph : gmap string (list string).

Hypothesis order_perm : ∀ q, order q ≡ₚ q.

Local Abbreviation release := (drv_release on_release tasks_).
Local Abbreviation while := (drv_while order assign on_release tasks_ graph).

(** Releasing dependents never raises the bound: an in-degree counted down
    to zero pays for the task that joins the queue. *)
Lemma drv_release_bound n deps i c q i' c' q' :
  release n deps i c q = Ok (i', c', q') →
  (loop_bound i' q' ≤ loop_bound i q)%nat.
Proof.
  revert i c q. induction deps as [|d deps IH]; intros i c q; simpl.
  - by intros [= -> -> ->].
  - intros (v & Hv%dict_getitem_Ok & Hrec)%bind_Ok.
    pose proof (pending_in_degree_insert i d v (v - 1) Hv) as Hsum.
    case_decide as Hz.
    + apply bind_Ok in Hrec as (dt & _ & Hrec).
      apply bind_Ok in Hrec as (c1 & _ & Hrec).
      apply IH in Hrec. revert Hrec. unfold loop_bound.
      rewrite length_app. simpl. lia.
    + apply IH in Hrec. revert Hrec. unfold loop_bound. lia.
Qed.

Hypothesis assign_fuel : ∀ c t, assign c t ≠ OutOfFuel.
Hypothesis on_release_fuel : ∀ n t c, on_release n t c ≠ OutOfFuel.

Lemma drv_release_not_OutOfFuel n deps i c q :
  release n deps i c q ≠ OutOfFuel.
Proof.
  revert i c q. induction deps as [|d deps IH]; intros i c q; simpl; [done|].
  apply bind_not_OutOfFuel; [apply dict_getitem_not_OutOfFuel|].
  intros v _. case_decide; [|apply IH].
  apply bind_not_OutOfFuel; [apply next_task_not_OutOfFuel|].
  intros dt _. apply bind_not_OutOfFuel; [apply on_release_fuel|].
  intros c' _. apply IH.
Qed.

(** The bound is enough: the loop is never cut off. *)
Lemma drv_while_fuel fuel i c s q :
  (loop_bound i q ≤ fuel)%nat → while fuel i c s q ≠ OutOfFuel.
Proof.
  revert i c s q. induction fuel as [|fuel IH]; intros i c s q Hb;
    destruct q as [|t q]; simpl; try done.
  - unfold loop_bound in Hb. simpl in Hb. lia.
  - apply bind_not_OutOfFuel; [apply assign_fuel|].
    intros [e c1] _. apply bind_not_OutOfFuel;
      [apply drv_release_not_OutOfFuel|].
    intros [[i' c2] q'] Hrel. apply IH.
    apply drv_release_bound in Hrel. revert Hrel Hb. unfold loop_bound.
    rewrite (order_perm q'). simpl. lia.
Qed.

(** ** Invariant rules for the two loops *)

Lemma drv_release_rule
    (J : list string → gmap string Z → C → list Task → Prop) n :
  (∀ d ds i c q v, J (d :: ds) i c q → i !! d = Some v → v - 1 ≠ 0 →
     J ds (<[d := v - 1]> i) c q) →
  (∀ d ds i c q v dt c', J (d :: ds) i c q → i !! d = Some v → v - 1 = 0 →
     next_task tasks_ d = Ok dt → on_release n dt c = Ok c' →
     J ds (<[d := v - 1]> i) c' (q ++ [dt])) →
  ∀ deps i c q i' c' q',
    J deps i c q → release n deps i c q = Ok (i', c', q') → J [] i' c' q'.
Proof.
  intros Hkeep Hadd deps. induction deps as [|d deps IH];
    intros i c q i' c' q' HJ; simpl.
  - by intros [= <- <- <-].
  - intros (v & Hv%dict_getitem_Ok & Hrec)%bind_Ok.
    case_decide as Hz.
    + apply bind_Ok in Hrec as (dt & Hdt & Hrec).
      apply bind_Ok in Hrec as (c1 & Hc1 & Hrec).
      eapply IH; [|exact Hrec]. eauto.
    + eapply IH; [|exact Hrec]. eauto.
Qed.

Lemma drv_release_progress
    (J : list string → gmap string Z → C → list Task → Prop) n :
  (∀ d ds i c q v, J (d :: ds) i c q → i !! d = Some v → v - 1 ≠ 0 →
     J ds (<[d := v - 1]> i) c q) →
  (∀ d ds i c q v dt c', J (d :: ds) i c q → i !! d = Some v → v - 1 = 0 →
     next_task tasks_ d = Ok dt → on_release n dt c = Ok c' →
     J ds (<[d := v - 1]> i) c' (q ++ [dt])) →
  (∀ d ds i c q, J (d :: ds) i c q →
     ∃ v, i !! d = Some v ∧
       (v - 1 = 0 → ∃ dt c', next_task tasks_ d = Ok dt
                              ∧ on_release n dt c = Ok c')) →
  ∀ deps i c q, J deps i c q → ∃ r, release n deps i c q = Ok r.
Proof.
  intros Hkeep Hadd Hgo deps. induction deps as [|d deps IH];
    intros i c q HJ; simpl; [eauto|].
  destruct (Hgo _ _ _ _ _ HJ) as (v & Hv & Hnext).
  unfold dict_getitem at 1. rewrite Hv. simpl.
  case_decide as Hz.
  - destruct (Hnext Hz) as (dt & c' & Hdt & Hc'). rewrite Hdt. simpl.
    rewrite Hc'. simpl. eauto.
  - eauto.
Qed.

Lemma drv_while_rule
    (P : gmap string Z → C → list ScheduleEntry → list Task → Prop) :
  (∀ i c s t q e c1 i' c2 q', P i c s (t :: q) → assign c t = Ok (e, c1) →
     release (node_id e) (defaultdict_getitem graph (t_id t)) i c1 q
       = Ok (i', c2, q') →
     P i' c2 (s ++ [e]) (order q')) →
  ∀ fuel i c s q s',
    P i c s q → while fuel i c s q = Ok s' → ∃ i' c', P i' c' s' [].
Proof.
  intros Hstep fuel. induction fuel as [|fuel IH]; intros i c s q s' HP;
    destruct q as [|t q]; simpl; try done.
  - intros [= <-]. eauto.
  - intros [= <-]. eauto.
  - intros ([e c1] & He & Hrun)%bind_Ok.
    apply bind_Ok in Hrun as ([[i' c2] q'] & Hrel & Hrun).
    eapply IH; [|exact Hrun]. eauto.
Qed.

Lemma drv_while_progress
    (P : gmap string Z → C → list ScheduleEntry → list Task → Prop) :
  (∀ i c s t q e c1 i' c2 q', P i c s (t :: q) → assign c t = Ok (e, c1) →
     release (node_id e) (defaultdict_getitem graph (t_id t)) i c1 q
       = Ok (i', c2, q') →
     P i' c2 (s ++ [e]) (order q')) →
  (∀ i c s t q, P i c s (t :: q) →
     ∃ e c1, assign c t = Ok (e, c1) ∧
       ∃ r, release (node_id e) (defaultdict_getitem graph (t_id t)) i c1 q
            = Ok r) →
  ∀ fuel i c s q,
    P i c s q → (loop_bound i q ≤ fuel)%nat → ∃ s', while fuel i c s q = Ok s'.
Proof.
  intros Hstep Hgo fuel. induction fuel as [|fuel IH]; intros i c s q HP Hb;
    destruct q as [|t q]; simpl; eauto.
  - unfold loop_bound in Hb. simpl in Hb. lia.
  - destruct (Hgo _ _ _ _ _ HP) as (e & c1 & He & [[[i' c2] q'] Hrel]).
    rewrite He. simpl. rewrite Hrel. simpl. apply IH; [eauto|].
    apply drv_release_bound in Hrel. revert Hrel Hb. unfold loop_bound.
    rewrite (order_perm q'). simpl. lia.
Qed.

End DriverFacts.

(** ** Counting unmet predecessors *)

Lemma occurrences_app t l k :
  occurrences t (l ++ k) = (occurrences t l + occurrences t k)%nat.
Proof. unfold occurrences. by rewrite filter_app, length_app. Qed.

Lemma occurrences_zero t l : occurrences t l = 0%nat ↔ t ∉ l.
Proof.
  induction l as [|d l IH]; [by split; [intros _ ?%elem_of_nil|]|].
  rewrite occurrences_cons, not_elem_of_cons.
  case_decide as Hd; [subst; split; [lia | tauto]|].
  rewrite Nat.add_0_l, IH. split; [by split | tauto].
Qed.

(** Scheduling [p] moves the messages sent by [p] from the unmet
    predecessors of their receivers to the list of dependents to release. *)
Lemma unmet_pop messages done p t :
  p ∉ done →
  (unmet messages (done ++ [p]) t + occurrences t (receivers_of messages p)
   = unmet messages done t)%nat.
Proof.
  intros Hp. induction messages as [|m messages IH]; [done|].
  rewrite !unmet_cons, receivers_of_cons, occurrences_app, <-IH.
  pose proof (elem_of_app done [p] (sender m)) as Hsplit.
  rewrite list_elem_of_singleton in Hsplit.
  destruct (decide (sender m = p)) as [Hs|Hs].
  - rewrite (decide_False (P := _ ∧ sender m ∉ (done ++ [p]))) by tauto.
    rewrite occurrences_cons. unfold occurrences at 1. simpl.
    repeat case_decide; try lia; exfalso.
    + rewrite Hs in *. tauto.
    + tauto.
  - unfold occurrences at 1. simpl.
    repeat case_decide; try lia; exfalso; tauto.
Qed.

Lemma unmet_zero messages done t m :
  unmet messages done t = 0%nat → m ∈ messages → receiver m = t →
  sender m ∈ done.
Proof.
  unfold unmet. intros Hz%length_zero_iff_nil Hm Hr.
  destruct (decide (sender m ∈ done)) as [|Hs]; [done|].
  assert (m ∈ filter (λ m, receiver m = t ∧ sender m ∉ done) messages) as Hin
    by (by apply list_elem_of_filter).
  rewrite Hz in Hin. by apply elem_of_nil in Hin.
Qed.

Lemma unmet_pos messages done t :
  unmet messages done t ≠ 0%nat →
  ∃ m, m ∈ messages ∧ receiver m = t ∧ sender m ∉ done.
Proof.
  unfold unmet. intros Hnz.
  destruct (filter _ messages) as [|m l] eqn:Hf; [done|].
  assert (m ∈ filter (λ m, receiver m = t ∧ sender m ∉ done) messages) as Hin
    by (rewrite Hf; left).
  apply list_elem_of_filter in Hin as [[? ?] ?]. eauto.
Qed.

(** ** Order of appearance *)

Lemma before_app_l {A} (l k : list A) a b : before l a b → before (l ++ k) a b.
Proof.
  intros (i & j & Hi & Hj & Hlt). exists i, j.
  split_and!; [by apply lookup_app_l_Some.. | done].
Qed.

Lemma before_snoc {A} (l : list A) a b : a ∈ l → before (l ++ [b]) a b.
Proof.
  intros (i & Hi)%list_elem_of_lookup. exists i, (length l).
  split_and!.
  - by apply lookup_app_l_Some.
  - by rewrite lookup_app_r, Nat.sub_diag.
  - by eapply lookup_lt_Some.
Qed.

Lemma before_trans {A} (l : list A) a b c :
  NoDup l → before l a b → before l b c → before l a c.
Proof.
  intros Hnd (i & j & Hi & Hj & Hij) (j' & k & Hj' & Hk & Hjk).
  assert (j = j') as <- by (eapply NoDup_lookup; eauto).
  exists i, k. split_and!; [done.. | lia].
Qed.

Lemma before_irrefl {A} (l : list A) a : NoDup l → ¬ before l a a.
Proof.
  intros Hnd (i & j & Hi & Hj & Hij).
  assert (i = j) by (eapply NoDup_lookup; eauto). lia.
Qed.

Lemma before_elem_of_l {A} (l : list A) a b : before l a b → a ∈ l.
Proof. intros (i & j & Hi & _). by eapply list_elem_of_lookup_2. Qed.

(** If every edge into a listed element comes from an earlier one, so does
    every path. *)
Lemma tc_before {A} (R : relation A) (l : list A) a b :
  NoDup l → (∀ x y, R x y → y ∈ l → before l x y) →
  tc R a b → b ∈ l → before l a b.
Proof.
  intros Hnd Hedge. induction 1 as [x y Hxy|x y z Hxy Hyz IH]; intros Hin.
  - by apply Hedge.
  - specialize (IH Hin). eapply before_trans; [done| |exact IH].
    apply Hedge; [done|]. by eapply before_elem_of_l.
Qed.

(** In an irreflexive transitive closure a non-empty list cannot have a
    predecessor inside the list for each of its elements. *)
Lemma no_minimal_cycle {A} (R : relation A) (l : list A) :
  (∀ x, ¬ tc R x x) → l ≠ [] →
  ¬ ¬ ∃ m, m ∈ l ∧ ∀ u, u ∈ l → ¬ tc R u m.
Proof.
  intros Hirr. induction l as [|a l IH]; [done|]. intros _ Hno.
  destruct l as [|b l].
  - apply Hno. exists a. split; [left|].
    intros u ->%list_elem_of_singleton. apply Hirr.
  - apply IH; [done|]. intros (m & Hm & Hmin).
    assert (¬ ¬ (tc R a m ∨ ¬ tc R a m)) as Hem by tauto.
    apply Hem. intros [Ham|Ham]; apply Hno.
    + exists a. split; [left|]. intros u [->|Hu]%elem_of_cons.
      * apply Hirr.
      * intros Hua. apply (Hmin u Hu). by etrans.
    + exists m. split; [by right|]. intros u [->|Hu]%elem_of_cons; eauto.
Qed.

Lemma predecessors_inside_cycle {A} (R : relation A) (l : list A) :
  (∀ x, ¬ tc R x x) → (∀ u, u ∈ l → ∃ v, v ∈ l ∧ R v u) → l = [].
Proof.
  intros Hirr Hpred. destruct (decide (l = [])) as [|Hne]; [done|]. exfalso.
  apply (no_minimal_cycle R l Hirr Hne).
  intros (m & Hm & Hmin). destruct (Hpred m Hm) as (v & Hv & Hvm).
  apply (Hmin v Hv). by apply tc_once.
Qed.

(** ** The invariant of the release discipline *)

Section Kahn.
Variable tasks_ : list Task.
Variable messages_ : list Message.
Hypothesis receivers_ok :
  ∀ m, m ∈ messages_ → receiver m ∈ task_ids tasks_.

Local Abbreviation inv := (kahn_inv tasks_ messages_).

Lemma kahn_inv_perm pending i done q q' :
  q ≡ₚ q' → inv pending i done q → inv pending i done q'.
Proof.
  intros Hp (Hnd & Hsub & Hdeg & Hmem & Hpend & Hord).
  assert (task_ids q ≡ₚ task_ids q') as Hids
    by (unfold task_ids; by rewrite Hp).
  split_and!; try done.
  - by rewrite <-Hids.
  - intros t. rewrite <-Hids. apply Hsub.
  - intros t Ht. rewrite <-Hids. by apply Hmem.
Qed.

(** Taking [t] off the queue and scheduling it. *)
Lemma kahn_inv_pop i done t q :
  inv [] i done (t :: q) →
  inv (receivers_of messages_ (t_id t)) i (done ++ [t_id t]) q.
Proof.
  intros (Hnd & Hsub & Hdeg & Hmem & _ & Hord).
  change (task_ids (t :: q)) with (t_id t :: task_ids q) in *.
  assert ((done ++ [t_id t]) ++ task_ids q = done ++ t_id t :: task_ids q)
    as Happ by (by rewrite <-app_assoc).
  assert (t_id t ∉ done) as Hfresh.
  { apply NoDup_app in Hnd as (_ & Hdisj & _). intros Hin.
    apply (Hdisj _ Hin). left. }
  split_and!.
  - by rewrite Happ.
  - by rewrite Happ.
  - intros t' Ht'. rewrite (unmet_pop _ _ _ _ Hfresh).
    rewrite (Hdeg t' Ht'). do 2 f_equal. unfold occurrences. simpl. lia.
  - intros t' Ht'. rewrite Happ, (unmet_pop _ _ _ _ Hfresh).
    rewrite (Hmem t' Ht'). unfold occurrences. simpl. lia.
  - intros d (m & -> & (_ & Hm)%list_elem_of_filter)%list_elem_of_fmap.
    by apply receivers_ok.
  - intros a b Hab [Hb| ->%list_elem_of_singleton]%elem_of_app.
    + by apply before_app_l, Hord.
    + apply before_snoc. destruct Hab as (m & Hm & <- & Hr).
      eapply unmet_zero; [|done..].
      assert (t_id t ∈ task_ids tasks_) as Hknown
        by (apply Hsub, elem_of_app; right; left).
      pose proof (proj1 (Hmem _ Hknown)) as Hz.
      unfold occurrences in Hz. simpl in Hz.
      rewrite Nat.add_0_r in Hz. apply Hz, elem_of_app. right. left.
Qed.

(** Visiting a dependent whose in-degree stays positive. *)
Lemma kahn_inv_keep d ds i done q v :
  inv (d :: ds) i done q → i !! d = Some v → v - 1 ≠ 0 →
  inv ds (<[d := v - 1]> i) done q.
Proof.
  intros (Hnd & Hsub & Hdeg & Hmem & Hpend & Hord) Hv Hnz.
  assert (d ∈ task_ids tasks_) as Hd by (apply Hpend; left).
  pose proof (Hdeg d Hd) as Hvd. rewrite Hv, occurrences_cons in Hvd.
  rewrite decide_True in Hvd by done. injection Hvd as Hvd.
  split_and!; try done.
  - intros t Ht. rewrite lookup_insert. case_decide as Heq.
    + subst t. f_equal. lia.
    + rewrite (Hdeg t Ht), occurrences_cons, decide_False by done.
      done.
  - intros t Ht. rewrite (Hmem t Ht), occurrences_cons.
    case_decide as Heq; [subst t; lia | lia].
  - intros d' Hd'. apply Hpend. by right.
Qed.

(** Visiting a dependent whose in-degree reaches zero: it joins the queue. *)
Lemma kahn_inv_add d ds i done q v dt :
  inv (d :: ds) i done q → i !! d = Some v → v - 1 = 0 →
  next_task tasks_ d = Ok dt →
  inv ds (<[d := v - 1]> i) done (q ++ [dt]).
Proof.
  intros (Hnd & Hsub & Hdeg & Hmem & Hpend & Hord) Hv Hz
    [Hdt Hid]%next_task_Ok.
  assert (d ∈ task_ids tasks_) as Hd by (apply Hpend; left).
  pose proof (Hdeg d Hd) as Hvd. rewrite Hv, occurrences_cons in Hvd.
  rewrite decide_True in Hvd by done. injection Hvd as Hvd.
  assert (d ∉ done ++ task_ids q) as Hfresh.
  { rewrite (Hmem d Hd), occurrences_cons, decide_True by done. lia. }
  assert (task_ids (q ++ [dt]) = task_ids q ++ [d]) as Hq
    by (unfold task_ids; by rewrite fmap_app, <-Hid).
  rewrite <-Hid in *.
  split_and!; try done.
  - rewrite Hq, app_assoc. apply NoDup_app. split_and!; [done| |].
    + by intros x Hx ->%list_elem_of_singleton.
    + apply NoDup_singleton.
  - intros t. rewrite Hq, app_assoc, elem_of_app.
    intros [?| ->%list_elem_of_singleton]; [by apply Hsub | done].
  - intros t Ht. rewrite lookup_insert. case_decide as Heq.
    + subst t. f_equal. lia.
    + rewrite (Hdeg t Ht), occurrences_cons, decide_False by done.
      done.
  - intros t Ht. rewrite Hq, app_assoc, elem_of_app, list_elem_of_singleton.
    rewrite (Hmem t Ht), occurrences_cons.
    case_decide as Heq; [subst t; split; [intros _; lia | by right]|].
    split; [intros [?|?]; [lia | congruence] | intros ?; left; lia].
  - intros d' Hd'. apply Hpend. by right.
Qed.

(** The state in which the loops start. *)
Lemma kahn_inv_init (i : gmap string Z) :
  NoDup (task_ids tasks_) →
  (∀ t, t ∈ task_ids tasks_ →
     i !! t = Some (Z.of_nat (unmet messages_ [] t))) →
  inv [] i [] (initially_ready tasks_ i).
Proof.
  intros Hnd Hdeg. unfold initially_ready.
  split_and!.
  - simpl. unfold task_ids in *.
    eapply sublist_NoDup; [exact Hnd|].
    apply fmap_sublist, sublist_filter.
  - simpl. intros t (t' & -> & (_ & Ht')%list_elem_of_filter)%list_elem_of_fmap.
    by apply list_elem_of_fmap_2.
  - intros t Ht. rewrite (Hdeg t Ht). unfold occurrences. simpl.
    by rewrite Nat.add_0_r.
  - intros t Ht. simpl. unfold occurrences. simpl. rewrite Nat.add_0_r.
    pose proof (Hdeg t Ht) as Ht'. unfold task_ids. split.
    + intros (t' & -> & (Hz & _)%list_elem_of_filter)%list_elem_of_fmap.
      rewrite Ht' in Hz. injection Hz as Hz. lia.
    + intros Hz. apply list_elem_of_fmap in Ht as (t' & -> & Hin).
      apply list_elem_of_fmap. exists t'. split; [done|].
      apply list_elem_of_filter. split; [|done].
      rewrite Ht'. by rewrite Hz.
  - by intros d ?%elem_of_nil.
  - by intros a b _ ?%elem_of_nil.
Qed.

(** When the loop ends: no task on a cycle has been scheduled. *)
Lemma kahn_inv_cycle pending i done q t :
  inv pending i done q → on_cycle messages_ t → t ∉ done.
Proof.
  intros (Hnd & _ & _ & _ & _ & Hord) Hcyc Hin.
  apply NoDup_app in Hnd as (Hnd & _).
  eapply before_irrefl; [exact Hnd|].
  eapply tc_before; eauto.
Qed.

(** When the loop ends on an acyclic graph whose senders are tasks: every
    task has been scheduled. *)
Lemma kahn_inv_complete i done :
  inv [] i done [] → NoDup (task_ids tasks_) → acyclic messages_ →
  (∀ m, m ∈ messages_ → sender m ∈ task_ids tasks_) →
  done ≡ₚ task_ids tasks_.
Proof.
  intros (Hnd & Hsub & _ & Hmem & _ & _) Hids Hacyc Hsenders.
  simpl in *. rewrite app_nil_r in *.
  set (U := filter (λ t, t ∉ done) (task_ids tasks_)).
  assert (U = []) as HU.
  { apply (predecessors_inside_cycle (edge messages_)); [exact Hacyc|].
    intros u [Hu Hin]%list_elem_of_filter.
    destruct (unmet_pos messages_ done u) as (m & Hm & Hr & Hs).
    { intros Hz. apply Hu, Hmem; [done|].
      unfold occurrences. simpl. lia. }
    exists (sender m). split.
    - apply list_elem_of_filter. auto.
    - by exists m. }
  apply NoDup_Permutation; [done..|]. intros t. split; [apply Hsub|].
  intros Ht. destruct (decide (t ∈ done)) as [|Hno]; [done|].
  assert (t ∈ U) as HtU by (by apply list_elem_of_filter).
  rewrite HU in HtU. by apply elem_of_nil in HtU.
Qed.

End Kahn.

(** ** What a run of the driver establishes *)

Lemma keys_ok_insert tasks_ graph i d v v' :
  i !! d = Some v → keys_ok tasks_ graph i →
  keys_ok tasks_ graph (<[d := v']> i).
Proof.
  intros Hd [Hdep Hkey]. split.
  - intros k d' Hd'. rewrite lookup_insert. case_decide; [done | eauto].
  - intros k. rewrite lookup_insert. case_decide as Hk; [|eauto].
    subst k. intros _. apply Hkey. by rewrite Hd.
Qed.

Section Run.
Context {C : Type}.
Variable order : list Task → list Task.
Variable assign : C → Task → result (ScheduleEntry * C).
Variable on_release : Z → Task → C → result C.
Variable tasks_ : list Task.
Variable graph : gmap string (list string).
Variable messages_ : list Message.

Hypothesis order_perm : ∀ q, order q ≡ₚ q.
Hypothesis assign_entry :
  ∀ c t e c', assign c t = Ok (e, c') → entry_of e t.

Local Abbreviation while := (drv_while order assign on_release tasks_ graph).

(** Every entry was made for a task of the list, and an invariant [SI] that
    ties the clock to the schedule is kept. *)
Lemma drv_while_entries (SI : C → list ScheduleEntry → Prop) :
  (∀ c s t e c', t ∈ tasks_ → SI c s → assign c t = Ok (e, c') →
     SI c' (s ++ [e])) →
  (∀ n t c s c', SI c s → on_release n t c = Ok c' → SI c' s) →
  ∀ fuel i c s q s',
    (∀ t, t ∈ q → t ∈ tasks_) →
    (∀ e, e ∈ s → ∃ t, t ∈ tasks_ ∧ entry_of e t) →
    SI c s →
    while fuel i c s q = Ok s' →
    (∀ e, e ∈ s' → ∃ t, t ∈ tasks_ ∧ entry_of e t) ∧ ∃ c', SI c' s'.
Proof.
  intros Hassign Hrel fuel i c s q s' Hq Hs HSI Hrun.
  destruct (drv_while_rule order assign on_release tasks_ graph
    (λ _ c s q, (∀ t, t ∈ q → t ∈ tasks_)
                ∧ (∀ e, e ∈ s → ∃ t, t ∈ tasks_ ∧ entry_of e t)
                ∧ SI c s)) with (2 := conj Hq (conj Hs HSI)) (3 := Hrun)
    as (_ & c' & _ & Hs' & HSI'); [|eauto].
  clear Hq Hs HSI Hrun.
  intros i0 c0 s0 t q0 e c1 i' c2 q' (Hq & Hs & HSI) He Hrelease.
  assert ((∀ t, t ∈ q' → t ∈ tasks_) ∧ SI c2 (s0 ++ [e])) as [Hq' HSI'].
  { eapply (drv_release_rule on_release tasks_
      (λ _ _ c q, (∀ t, t ∈ q → t ∈ tasks_) ∧ SI c (s0 ++ [e])))
      with (4 := Hrelease).
    - by intros.
    - intros d ds i1 c3 q1 v dt c3' [Hq1 HSI1] _ _ [Hdt _]%next_task_Ok Hc3.
      split; [|eauto].
      intros t' [?| ->%list_elem_of_singleton]%elem_of_app; eauto.
    - split; [|eapply Hassign; [apply Hq; left|done..]].
      intros t' Ht'. apply Hq. by right. }
  split_and!; [|
    intros e' [?| ->%list_elem_of_singleton]%elem_of_app; [eauto|] | done].
  - intros t'. rewrite order_perm. apply Hq'.
  - exists t. split; [apply Hq; left | eauto].
Qed.

Hypothesis graph_spec :
  ∀ s, defaultdict_getitem graph s = receivers_of messages_ s.
Hypothesis receivers_ok :
  ∀ m, m ∈ messages_ → receiver m ∈ task_ids tasks_.

(** The release discipline is kept. *)
Lemma drv_while_kahn fuel i c s q s' :
  kahn_inv tasks_ messages_ [] i (task_id <$> s) q →
  while fuel i c s q = Ok s' →
  ∃ i', kahn_inv tasks_ messages_ [] i' (task_id <$> s') [].
Proof.
  intros Hinv Hrun.
  destruct (drv_while_rule order assign on_release tasks_ graph
    (λ i _ s q, kahn_inv tasks_ messages_ [] i (task_id <$> s) q))
    with (2 := Hinv) (3 := Hrun) as (i' & _ & Hfin); [|eauto].
  clear Hinv Hrun. intros i0 c0 s0 t q0 e c1 i' c2 q' Hinv He Hrelease.
  apply (kahn_inv_perm tasks_ messages_ _ _ _ q'); [by rewrite order_perm|].
  apply assign_entry in He as (Hid & _).
  rewrite fmap_app. simpl. rewrite Hid.
  eapply (drv_release_rule on_release tasks_
    (λ pending i _ q,
       kahn_inv tasks_ messages_ pending i ((task_id <$> s0) ++ [t_id t]) q))
    with (4 := Hrelease).
  - intros. by eapply kahn_inv_keep.
  - intros. by eapply kahn_inv_add.
  - rewrite graph_spec. by apply kahn_inv_pop.
Qed.

(** The loop returns a schedule, given clocks that let [assign] and
    [on_release] succeed. *)
Lemma drv_while_runs (CI : C → Prop) (CN : Z → C → Prop) :
  (∀ c t, CI c → ∃ e c', assign c t = Ok (e, c') ∧ CN (node_id e) c') →
  (∀ n t c, CN n c → t ∈ tasks_ → ∃ c', on_release n t c = Ok c' ∧ CN n c') →
  (∀ n c, CN n c → CI c) →
  ∀ fuel i c s q,
    keys_ok tasks_ graph i → CI c → (loop_bound i q ≤ fuel)%nat →
    ∃ s', while fuel i c s q = Ok s'.
Proof.
  intros Hassign Hrel HCN fuel i c s q Hkeys HCI Hfuel.
  set (J := λ (n : Z) (ds : list string) (i : gmap string Z) (c : C)
              (_ : list Task),
    (∀ d, d ∈ ds → is_Some (i !! d)) ∧ keys_ok tasks_ graph i ∧ CN n c).
  assert (∀ n d ds i c q v, J n (d :: ds) i c q → i !! d = Some v →
    v - 1 ≠ 0 → J n ds (<[d := v - 1]> i) c q) as Jkeep.
  { intros n d ds i0 c0 q0 v (Hds & Hk & Hc) Hv _. split_and!; [|
      by eapply keys_ok_insert | done].
    intros d' Hd'. rewrite lookup_insert. case_decide; [done|].
    apply Hds. by right. }
  assert (∀ n d ds i c q v dt c', J n (d :: ds) i c q → i !! d = Some v →
    v - 1 = 0 → next_task tasks_ d = Ok dt → on_release n dt c = Ok c' →
    J n ds (<[d := v - 1]> i) c' (q ++ [dt])) as Jadd.
  { intros n d ds i0 c0 q0 v dt c0' (Hds & Hk & Hc) Hv _
      [Hdt _]%next_task_Ok Hc0.
    destruct (Hrel n dt c0 Hc Hdt) as (c0'' & Hc0'' & HCN'').
    assert (c0'' = c0') as -> by congruence.
    split_and!; [| by eapply keys_ok_insert | done].
    intros d' Hd'. rewrite lookup_insert. case_decide; [done|].
    apply Hds. by right. }
  apply (drv_while_progress order assign on_release tasks_ graph order_perm
    (λ i c _ _, keys_ok tasks_ graph i ∧ CI c)); [| |done|done].
  - clear -Jkeep Jadd Hassign HCN.
    intros i c s t q e c1 i' c2 q' [Hk HCI] He Hrelease.
    destruct (Hassign c t HCI) as (e' & c1' & He' & HCN1).
    assert (e' = e ∧ c1' = c1) as [-> ->] by (split; congruence).
    destruct (drv_release_rule on_release tasks_ (J (node_id e)) (node_id e)
      (Jkeep _) (Jadd _) _ _ _ _ _ _ _ (conj (λ d Hd, proj1 Hk _ d Hd)
        (conj Hk HCN1)) Hrelease) as (_ & Hk' & HCN2).
    eauto.
  - clear -Jkeep Jadd Hassign Hrel.
    intros i c s t q [Hk HCI].
    destruct (Hassign c t HCI) as (e & c1 & He & HCN1).
    exists e, c1. split; [done|].
    apply (drv_release_progress on_release tasks_ (J (node_id e)) (node_id e)
      (Jkeep _) (Jadd _)); [|by split_and!; [apply Hk|..]].
    intros d ds i0 c0 q0 (Hds & Hk0 & Hc0).
    destruct (Hds d) as [v Hv]; [left|]. exists v. split; [done|].
    intros _. destruct (next_task_known tasks_ d) as [dt Hdt].
    { apply Hk0. by rewrite Hv. }
    exists dt. destruct (Hrel (node_id e) dt c0 Hc0) as (c' & Hc' & _).
    { by apply next_task_Ok in Hdt as [? _]. }
    eauto.
Qed.

End Run.

(** ** A whole call, through the driver *)

Lemma ldf_single_node_run app :
  ldf_single_node app
  = (tasks_after true app,
     s ← drv_run true assign_single on_release_single 0 app;
     Ok {| schedule := s; name := "LDF Single Node" |}).
Proof.
  unfold ldf_single_node, tasks_after, drv_run.
  destruct (build_graph _ _ _) as [[g i]| |]; simpl; [|done..].
  by rewrite ldf_while_drv.
Qed.

Lemma edf_single_node_run app :
  edf_single_node app
  = (tasks_after false app,
     s ← drv_run false assign_single on_release_single 0 app;
     Ok {| schedule := s; name := "EDF Single Node" |}).
Proof.
  unfold edf_single_node, tasks_after, drv_run.
  destruct (build_graph _ _ _) as [[g i]| |]; simpl; [|done..].
  by rewrite edf_while_drv.
Qed.

Lemma edf_multinode_run app plat :
  edf_multinode app plat
  = (tasks_after false app, plat,
     s ← drv_run false assign_multi (propagate_delay (links plat))
           (init_node_time (nodes plat)) app;
     Ok {| schedule := s; name := "EDF Multi Node" |}).
Proof.
  unfold edf_multinode, tasks_after, drv_run.
  destruct (build_graph _ _ _) as [[g i]| |]; simpl; [|done..].
  by rewrite edf_multinode_while_drv.
Qed.

Lemma task_ids_sorted reverse tasks_ :
  task_ids (py_sorted t_deadline reverse tasks_) ≡ₚ task_ids tasks_.
Proof. unfold task_ids. by rewrite py_sorted_perm. Qed.

(** The graph and the in-degrees with which the loops start. *)
Lemma build_graph_init tasks_ messages_ graph i :
  build_graph messages_ ∅ (init_in_degree tasks_) = Ok (graph, i) →
  (∀ s, defaultdict_getitem graph s = receivers_of messages_ s)
  ∧ (∀ k, i !! k = if decide (k ∈ task_ids tasks_)
                   then Some (Z.of_nat (unmet messages_ [] k)) else None)
  ∧ (∀ m, m ∈ messages_ → receiver m ∈ task_ids tasks_).
Proof.
  intros (Hg & Hi & Hk)%build_graph_Ok. split_and!.
  - intros s. rewrite Hg. unfold defaultdict_getitem.
    by rewrite lookup_empty.
  - intros k. rewrite Hi, init_in_degree_lookup.
    case_decide; simpl; [f_equal; lia | done].
  - intros m [v Hv]%Hk. rewrite init_in_degree_lookup in Hv.
    by case_decide.
Qed.

Lemma build_graph_receivers_known app :
  receivers_known app →
  ∃ r, build_graph (messages app) ∅ (init_in_degree (tasks app)) = Ok r.
Proof.
  intros Hk. apply build_graph_known. intros m Hm.
  eapply Forall_forall in Hk; [|exact Hm].
  rewrite init_in_degree_lookup. by rewrite decide_True.
Qed.

Lemma build_graph_receiver_unknown app m :
  m ∈ messages app → receiver m ∉ task_ids (tasks app) →
  build_graph (messages app) ∅ (init_in_degree (tasks app)) = Raise KeyError.
Proof.
  intros Hm Hr. eapply build_graph_unknown; [exact Hm|].
  rewrite init_in_degree_lookup. by rewrite decide_False.
Qed.

Lemma build_graph_keys_ok reverse tasks_ messages_ graph i :
  build_graph messages_ ∅ (init_in_degree tasks_) = Ok (graph, i) →
  keys_ok (py_sorted t_deadline reverse tasks_) graph i.
Proof.
  intros (Hg & Hi & Hk)%build_graph_init. split.
  - intros k d. rewrite Hg.
    intros (m & -> & (_ & Hm)%list_elem_of_filter)%list_elem_of_fmap.
    rewrite Hi, decide_True by auto. done.
  - intros k. rewrite Hi, task_ids_sorted. case_decide; [done|].
    by intros [? ?].
Qed.

(** Every task id is a key of [in_degree], so [in_degree[task['id']]] in
    the comprehension that seeds the ready queue never raises. *)
Lemma build_graph_lookup tasks_ messages_ graph i t :
  build_graph messages_ ∅ (init_in_degree tasks_) = Ok (graph, i) →
  t ∈ tasks_ → is_Some (i !! t_id t).
Proof.
  intros (_ & Hi & _)%build_graph_init Ht. rewrite Hi, decide_True; [done|].
  by apply list_elem_of_fmap_2.
Qed.

Section DrvRun.
Context {C : Type}.
Variable reverse : bool.
Variable assign : C → Task → result (ScheduleEntry * C).
Variable on_release : Z → Task → C → result C.
Variable c0 : C.

Local Abbreviation run := (drv_run reverse assign on_release c0).

Lemma drv_run_unknown_receiver app m :
  m ∈ messages app → receiver m ∉ task_ids (tasks app) →
  run app = Raise KeyError.
Proof.
  intros Hm Hr. unfold drv_run.
  by rewrite (build_graph_receiver_unknown app m Hm Hr).
Qed.

Lemma tasks_after_unknown_receiver app m :
  m ∈ messages app → receiver m ∉ task_ids (tasks app) →
  tasks_after reverse app = app.
Proof.
  intros Hm Hr. unfold tasks_after.
  by rewrite (build_graph_receiver_unknown app m Hm Hr).
Qed.

Hypothesis assign_fuel : ∀ c t, assign c t ≠ OutOfFuel.
Hypothesis on_release_fuel : ∀ n t c, on_release n t c ≠ OutOfFuel.

(** A call is never cut off by the iteration bound. *)
Lemma drv_run_fuel app : run app ≠ OutOfFuel.
Proof.
  unfold drv_run. apply bind_not_OutOfFuel;
    [apply build_graph_not_OutOfFuel|].
  intros [g i] _. apply drv_while_fuel; try done.
  intros q. apply py_sorted_perm.
Qed.

Hypothesis assign_entry :
  ∀ c t e c', assign c t = Ok (e, c') → entry_of e t.

(** Every entry of the schedule was made for a task of the list, and an
    invariant between clock and schedule holds of the result. *)
Lemma drv_run_entries (SI : C → list ScheduleEntry → Prop) app s :
  (∀ c s t e c', t ∈ tasks app → SI c s → assign c t = Ok (e, c') →
     SI c' (s ++ [e])) →
  (∀ n t c s c', SI c s → on_release n t c = Ok c' → SI c' s) →
  SI c0 [] →
  run app = Ok s →
  (∀ e, e ∈ s → ∃ t, t ∈ tasks app ∧ entry_of e t) ∧ ∃ c', SI c' s.
Proof.
  intros Hassign Hrel HSI. unfold drv_run.
  intros ([g i] & Hbuild & Hrun)%bind_Ok.
  eapply (drv_while_entries _ assign on_release) in Hrun
    as [Hent HSI']; try done.
  - split; [|done]. intros e (t & Ht & He)%Hent. exists t.
    by rewrite py_sorted_elem_of in Ht.
  - intros q. apply py_sorted_perm.
  - intros c s' t e c' Ht. apply Hassign.
    by rewrite py_sorted_elem_of in Ht.
  - intros t. rewrite py_sorted_elem_of. unfold initially_ready.
    by intros [_ ?]%list_elem_of_filter.
  - by intros e ?%elem_of_nil.
Qed.

(** The release discipline holds of the schedule returned. *)
Lemma drv_run_kahn app s :
  NoDup (task_ids (tasks app)) →
  run app = Ok s →
  ∃ i, kahn_inv (tasks app) (messages app) [] i (task_id <$> s) [].
Proof.
  intros Hnd. unfold drv_run. intros ([g i] & Hbuild & Hrun)%bind_Ok.
  pose proof (build_graph_init _ _ _ _ Hbuild) as (Hg & Hi & Hk).
  set (tasks' := py_sorted t_deadline reverse (tasks app)) in *.
  assert (∀ x, x ∈ task_ids tasks' ↔ x ∈ task_ids (tasks app)) as Hids
    by (intros x; unfold tasks'; by rewrite task_ids_sorted).
  eapply (drv_while_kahn _ assign on_release tasks' g (messages app))
    in Hrun as [i' Hfin]; try done.
  - exists i'. destruct Hfin as (H1 & H2 & H3 & H4 & H5 & H6).
    split_and!; try done.
    + intros t Ht. by apply Hids, H2.
    + intros t Ht. by apply H3, Hids.
    + intros t Ht. by apply H4, Hids.
    + intros d Hd. by apply Hids, H5.
  - intros q. apply py_sorted_perm.
  - intros m Hm. by apply Hids, Hk.
  - apply kahn_inv_perm with (q := initially_ready tasks' i);
      [by rewrite py_sorted_perm|].
    apply kahn_inv_init.
    + unfold tasks'. by rewrite task_ids_sorted.
    + intros t Ht%Hids. by rewrite Hi, decide_True.
Qed.

(** The call returns a schedule when every receiver is a task and the
    clocks let [assign] and [on_release] succeed. *)
Lemma drv_run_returns (CI : C → Prop) (CN : Z → C → Prop) app :
  (∀ c t, CI c → ∃ e c', assign c t = Ok (e, c') ∧ CN (node_id e) c') →
  (∀ n t c, CN n c → t ∈ tasks app →
     ∃ c', on_release n t c = Ok c' ∧ CN n c') →
  (∀ n c, CN n c → CI c) →
  receivers_known app → CI c0 →
  ∃ s, run app = Ok s.
Proof.
  intros Hassign Hrel HCN Hknown HCI. unfold drv_run.
  destruct (build_graph_receivers_known app Hknown) as [[g i] Hbuild].
  rewrite Hbuild. simpl.
  eapply (drv_while_runs _ assign on_release _ g); try done.
  - intros q. apply py_sorted_perm.
  - intros n t c Hc Ht. apply Hrel; [done|].
    by rewrite py_sorted_elem_of in Ht.
  - by eapply build_graph_keys_ok.
Qed.

End DrvRun.

(** ** The single-node instance *)

Lemma assign_single_entry c t e c' :
  assign_single c t = Ok (e, c') → entry_of e t.
Proof. intros [= <- <-]. by repeat split. Qed.

Lemma contiguous_from_snoc t s e :
  contiguous_from t s → start_time e = finish_time t s →
  contiguous_from t (s ++ [e]).
Proof.
  revert t. induction s as [|e' s IH]; intros t; simpl.
  - by intros _ ->.
  - intros [-> Hs] He. split; [done|]. by apply IH.
Qed.

Lemma finish_time_snoc t s e : finish_time t (s ++ [e]) = end_time e.
Proof. unfold finish_time. by rewrite foldl_app. Qed.

Lemma contiguous_from_contiguous t s : contiguous_from t s → contiguous s.
Proof.
  revert t. induction s as [|e s IH]; intros t; simpl.
  - by intros _ [|?] ? ? ?.
  - intros [_ Hs] [|j] e1 e2; simpl.
    + intros [= <-]. destruct s as [|e' s]; simpl; [done|].
      intros [= <-]. by destruct Hs.
    + by apply (IH _ Hs).
Qed.

(** A contiguous schedule whose entries do not end before they start is
    in order of start time. *)
Lemma contiguous_from_sorted t s :
  contiguous_from t s → Forall (λ e, start_time e ≤ end_time e) s →
  Sorted (key_le start_time false) s.
Proof.
  revert t. induction s as [|e s IH]; intros t; simpl; [constructor|].
  intros [_ Hs] [He Hall]%Forall_cons. constructor; [by eapply IH|].
  destruct s as [|e' s]; constructor.
  destruct Hs as [Hs _]. unfold key_le. lia.
Qed.

Lemma assign_single_clock c s t e c' :
  single_clock c s → assign_single c t = Ok (e, c') →
  single_clock c' (s ++ [e]).
Proof.
  intros [Hs ->] [= <- <-]. split.
  - by apply contiguous_from_snoc.
  - by rewrite finish_time_snoc.
Qed.

Lemma on_release_single_clock n t c s c' :
  single_clock c s → on_release_single n t c = Ok c' → single_clock c' s.
Proof. by intros ? [= <-]. Qed.

(** A single-node call returns a schedule when every receiver is a task. *)
Lemma single_run_returns reverse app :
  receivers_known app →
  ∃ s, drv_run reverse assign_single on_release_single 0 app = Ok s.
Proof.
  intros Hknown.
  apply (drv_run_returns reverse assign_single on_release_single 0
    (λ _, True) (λ _ _, True)); try done.
  - intros c t _. by eexists _, _.
  - intros n t c _ _. by eexists.
Qed.

(** ** The multi-node instance *)

Lemma node_time_getitem_elem nt k :
  k ∈ nt.*1 → ∃ v, node_time_getitem nt k = Ok v.
Proof.
  induction nt as [|[k' v'] nt IH]; simpl; [by intros ?%elem_of_nil|].
  intros Hk. case_decide as Heq; [eauto|].
  apply elem_of_cons in Hk as [?|?]; [congruence | eauto].
Qed.

Lemma node_time_getitem_NoDup nt l1 k v l2 :
  nt = l1 ++ (k, v) :: l2 → NoDup nt.*1 → node_time_getitem nt k = Ok v.
Proof.
  intros -> Hnd. induction l1 as [|[k' v'] l1 IH]; simpl.
  - by rewrite decide_True.
  - simpl in Hnd. apply NoDup_cons in Hnd as [Hk' Hnd].
    rewrite decide_False; [by apply IH|].
    intros ->. apply Hk'. rewrite fmap_app. apply elem_of_app. right.
    left.
Qed.

Lemma node_time_setitem_keys nt k v :
  k ∈ nt.*1 → (node_time_setitem nt k v).*1 = nt.*1.
Proof.
  induction nt as [|[k' v'] nt IH]; simpl; [by intros ?%elem_of_nil|].
  intros Hk. case_decide as Heq; simpl; [by rewrite Heq|].
  apply elem_of_cons in Hk as [?|?]; [congruence|]. f_equal. by apply IH.
Qed.

Lemma node_time_setitem_keys_new nt k v :
  k ∉ nt.*1 → (node_time_setitem nt k v).*1 = nt.*1 ++ [k].
Proof.
  induction nt as [|[k' v'] nt IH]; simpl; [done|].
  intros [Hne Hk]%not_elem_of_cons.
  rewrite decide_False by done. simpl. f_equal. by apply IH.
Qed.

Lemma node_time_getitem_not_OutOfFuel nt k :
  node_time_getitem nt k ≠ OutOfFuel.
Proof.
  induction nt as [|[k' v'] nt IH]; simpl; [done|]. by case_decide.
Qed.

(** [min] returns the first of the smallest: everything before it is
    strictly larger, everything after it at least as large. *)
Lemma min_from_split l pre best mid :
  Forall (λ kv, best.2 < kv.2) pre → Forall (λ kv, best.2 ≤ kv.2) mid →
  ∃ l1 l2, pre ++ best :: mid ++ l = l1 ++ min_from best l :: l2
    ∧ Forall (λ kv, (min_from best l).2 < kv.2) l1
    ∧ Forall (λ kv, (min_from best l).2 ≤ kv.2) l2.
Proof.
  revert pre best mid. induction l as [|kv l IH]; intros pre best mid Hpre Hmid;
    simpl.
  - exists pre, mid. by rewrite app_nil_r.
  - destruct (kv.2 <? best.2) eqn:Hlt.
    + apply Z.ltb_lt in Hlt.
      destruct (IH (pre ++ best :: mid) kv []) as (l1 & l2 & Heq & H1 & H2).
      * apply Forall_app. split; [|apply Forall_cons; split; [done|]].
        -- eapply Forall_impl; [exact Hpre|]. simpl. lia.
        -- eapply Forall_impl; [exact Hmid|]. simpl. lia.
      * constructor.
      * exists l1, l2. split; [|done]. rewrite <-Heq.
        by rewrite <-app_assoc.
    + apply Z.ltb_ge in Hlt.
      destruct (IH pre best (mid ++ [kv])) as (l1 & l2 & Heq & H1 & H2).
      * done.
      * apply Forall_app. split; [done|]. by repeat constructor.
      * exists l1, l2. split; [|done]. rewrite <-Heq.
        by rewrite <-app_assoc.
Qed.

Lemma min_node_Ok nt n :
  min_node nt = Ok n →
  ∃ l1 v l2, nt = l1 ++ (n, v) :: l2
    ∧ Forall (λ kv, v < kv.2) l1 ∧ Forall (λ kv, v ≤ kv.2) l2.
Proof.
  destruct nt as [|kv nt]; simpl; [done|]. intros [= <-].
  destruct (min_from_split nt [] kv []) as (l1 & l2 & Heq & H1 & H2);
    [constructor..|].
  simpl in Heq. exists l1, (min_from kv nt).2, l2.
  by rewrite <-surjective_pairing.
Qed.

Lemma min_node_nonempty nt : nt ≠ [] → ∃ n, min_node nt = Ok n.
Proof. destruct nt; [done|]. simpl. eauto. Qed.

Lemma init_node_time_keys nodes_ :
  NoDup (init_node_time nodes_).*1
  ∧ (∀ k, k ∈ (init_node_time nodes_).*1 ↔ k ∈ n_id <$> nodes_)
  ∧ (NoDup (n_id <$> nodes_) → (init_node_time nodes_).*1 = n_id <$> nodes_).
Proof.
  unfold init_node_time.
  assert (∀ d : list (Z * Z),
    NoDup d.*1 →
    let d' := foldl (λ d node, node_time_setitem d (n_id node) 0) d nodes_ in
    NoDup d'.*1
    ∧ (∀ k, k ∈ d'.*1 ↔ k ∈ d.*1 ∨ k ∈ n_id <$> nodes_)
    ∧ (NoDup (d.*1 ++ (n_id <$> nodes_)) → d'.*1 = d.*1 ++ (n_id <$> nodes_)))
    as Hgen.
  { induction nodes_ as [|node nodes_ IH]; intros d Hd; simpl.
    - split_and!; [done| |by rewrite app_nil_r].
      intros k. rewrite elem_of_nil. tauto.
    - destruct (decide (n_id node ∈ d.*1)) as [Hin|Hin].
      + destruct (IH (node_time_setitem d (n_id node) 0)) as (H1 & H2 & H3).
        { by rewrite node_time_setitem_keys. }
        rewrite node_time_setitem_keys in H2, H3 by done.
        split_and!; [done| |].
        * intros k. rewrite H2, elem_of_cons. split; [tauto|].
          intros [?|[->|?]]; tauto.
        * intros Hnd. apply NoDup_app in Hnd as (_ & Hdisj & _).
          exfalso. apply (Hdisj _ Hin). left.
      + destruct (IH (node_time_setitem d (n_id node) 0)) as (H1 & H2 & H3).
        { rewrite node_time_setitem_keys_new by done.
          apply NoDup_app. split_and!; [done| |apply NoDup_singleton].
          by intros x Hx ->%list_elem_of_singleton. }
        rewrite node_time_setitem_keys_new in H2, H3 by done.
        split_and!; [done| |].
        * intros k. rewrite H2, elem_of_app, list_elem_of_singleton,
            elem_of_cons. tauto.
        * intros Hnd. rewrite <-app_assoc in H3. by apply H3. }
  destruct (Hgen [] (NoDup_nil_2)) as (H1 & H2 & H3).
  split_and!; [done| |done].
  intros k. rewrite H2. simpl. rewrite elem_of_nil. tauto.
Qed.

Lemma clocks_ok_setitem tasks_ nt k v :
  k ∈ nt.*1 → clocks_ok tasks_ nt →
  clocks_ok tasks_ (node_time_setitem nt k v)
  ∧ (node_time_setitem nt k v).*1 = nt.*1.
Proof.
  intros Hk [Hne Hhint].
  pose proof (node_time_setitem_keys nt k v Hk) as Hkeys.
  split; [split|done].
  - intros Hnil. rewrite Hnil in Hkeys. destruct nt; [done | discriminate].
  - intros t h ? ? ?. rewrite Hkeys. eauto.
Qed.

Lemma assign_multi_entry nt t e nt' :
  assign_multi nt t = Ok (e, nt') → entry_of e t.
Proof.
  unfold assign_multi. intros (n & _ & Hrest)%bind_Ok.
  apply bind_Ok in Hrest as (v & _ & [= <- <-]). by repeat split.
Qed.

Lemma assign_multi_ok tasks_ nt t :
  clocks_ok tasks_ nt →
  ∃ e nt', assign_multi nt t = Ok (e, nt')
    ∧ clocks_ok tasks_ nt' ∧ node_id e ∈ nt'.*1.
Proof.
  intros Hok. destruct (min_node_nonempty nt (proj1 Hok)) as [n Hn].
  pose proof (min_node_Ok nt n Hn) as (l1 & v & l2 & Hnt & _).
  assert (n ∈ nt.*1) as Hkey.
  { rewrite Hnt, fmap_app. apply elem_of_app. right. left. }
  destruct (node_time_getitem_elem nt n Hkey) as [v' Hv'].
  unfold assign_multi. rewrite Hn. simpl. rewrite Hv'. simpl.
  eexists _, _. split; [done|]. simpl.
  destruct (clocks_ok_setitem tasks_ nt n (v' + t_wcet t) Hkey Hok)
    as [Hok' Hkeys].
  split; [done|]. by rewrite Hkeys.
Qed.

Lemma propagate_delay_ok tasks_ links_ n t nt :
  clocks_ok tasks_ nt ∧ n ∈ nt.*1 → t ∈ tasks_ →
  ∃ nt', propagate_delay links_ n t nt = Ok nt'
    ∧ clocks_ok tasks_ nt' ∧ n ∈ nt'.*1.
Proof.
  intros [Hok Hn] Ht. unfold propagate_delay.
  destruct (t_node_id t) as [h|] eqn:Hh; [|eauto].
  case_decide as Hcond; [|eauto]. destruct Hcond as [Hnz Hne].
  assert (h ∈ nt.*1) as Hkey by (by eapply (proj2 Hok)).
  destruct (node_time_getitem_elem nt h Hkey) as [a Ha].
  destruct (node_time_getitem_elem nt n Hn) as [b Hb].
  rewrite Ha. simpl. rewrite Hb. simpl. eexists. split; [done|].
  destruct (clocks_ok_setitem tasks_ nt h
    (a `max` (b + find_link_delay links_ n h)) Hkey Hok) as [Hok' Hkeys].
  split; [done|]. by rewrite Hkeys.
Qed.

Lemma assign_multi_not_OutOfFuel nt t : assign_multi nt t ≠ OutOfFuel.
Proof.
  unfold assign_multi. apply bind_not_OutOfFuel.
  - by destruct nt.
  - intros n _. apply bind_not_OutOfFuel;
      [apply node_time_getitem_not_OutOfFuel | done].
Qed.

Lemma propagate_delay_not_OutOfFuel links_ n t nt :
  propagate_delay links_ n t nt ≠ OutOfFuel.
Proof.
  unfold propagate_delay. destruct (t_node_id t) as [h|]; [|done].
  case_decide; [|done].
  apply bind_not_OutOfFuel; [apply node_time_getitem_not_OutOfFuel|].
  intros a _. apply bind_not_OutOfFuel;
    [apply node_time_getitem_not_OutOfFuel | done].
Qed.

Lemma init_node_time_clocks_ok app plat :
  nodes plat ≠ [] → hints_known app plat →
  clocks_ok (tasks app) (init_node_time (nodes plat)).
Proof.
  intros Hne Hhints.
  destruct (init_node_time_keys (nodes plat)) as (_ & Hkeys & _). split.
  - destruct (nodes plat) as [|node rest] eqn:Hnodes; [done|].
    intros Hnil. assert (n_id node ∈ (init_node_time (node :: rest)).*1) as Hin
      by (apply Hkeys; left).
    rewrite Hnil in Hin. by apply elem_of_nil in Hin.
  - intros t h Ht Hh Hnz. apply Hkeys. by eapply Hhints.
Qed.

(** A multi-node call returns a schedule when every receiver is a task, the
    platform has a node, and every truthy ["node_id"] names a node. *)
Lemma multi_run_returns app plat :
  receivers_known app → nodes plat ≠ [] → hints_known app plat →
  ∃ s, drv_run false assign_multi (propagate_delay (links plat))
         (init_node_time (nodes plat)) app = Ok s.
Proof.
  intros Hknown Hne Hhints.
  apply (drv_run_returns false assign_multi (propagate_delay (links plat))
    (init_node_time (nodes plat)) (clocks_ok (tasks app))
    (λ n nt, clocks_ok (tasks app) nt ∧ n ∈ nt.*1)); try done.
  - intros. by apply assign_multi_ok.
  - intros. by apply propagate_delay_ok.
  - by intros n c [? _].
  - by apply init_node_time_clocks_ok.
Qed.

Lemma node_time_getitem_Ok_elem nt k v :
  node_time_getitem nt k = Ok v → k ∈ nt.*1.
Proof.
  induction nt as [|[k' v'] nt IH]; simpl; [done|].
  case_decide as Heq; [subst k'; intros _; left|].
  intros ?%IH. by right.
Qed.

Lemma propagate_delay_keys links_ n t nt nt' :
  propagate_delay links_ n t nt = Ok nt' → nt'.*1 = nt.*1.
Proof.
  unfold propagate_delay. destruct (t_node_id t) as [h|]; [|by intros [= <-]].
  case_decide; [|by intros [= <-]].
  intros (a & Ha%node_time_getitem_Ok_elem & Hrest)%bind_Ok.
  apply bind_Ok in Hrest as (b & _ & [= <-]).
  by apply node_time_setitem_keys.
Qed.

Lemma release_dependents_multi_keys tasks_ links_ n deps i nt q i' nt' q' :
  release_dependents_multi tasks_ links_ n deps i nt q = Ok (i', nt', q') →
  nt'.*1 = nt.*1.
Proof.
  rewrite release_dependents_multi_drv.
  apply (drv_release_rule (propagate_delay links_) tasks_
    (λ _ _ c _, c.*1 = nt.*1)); [done| |done].
  intros d ds i0 c0 q0 v dt c0' Hc0 _ _ _ ->%propagate_delay_keys. done.
Qed.

Lemma node_time_getitem_elem_of nt k v :
  NoDup nt.*1 → node_time_getitem nt k = Ok v ↔ (k, v) ∈ nt.
Proof.
  induction nt as [|[k' v'] nt IH]; simpl.
  - intros _. split; [done | by intros ?%elem_of_nil].
  - intros [Hk' Hnd]%NoDup_cons. rewrite elem_of_cons.
    case_decide as Heq.
    + subst k'. split; [intros [= ->]; by left|].
      intros [[= ->]|Hin]; [done|]. exfalso. apply Hk'.
      by apply (list_elem_of_fmap_2 fst) in Hin.
    + rewrite (IH Hnd). split; [by right|]. by intros [[= ? ?]|?].
Qed.

Lemma node_time_setitem_elem_of nt k v k' v' :
  NoDup nt.*1 → k ∈ nt.*1 →
  (k', v') ∈ node_time_setitem nt k v
  ↔ (k' = k ∧ v' = v) ∨ (k' ≠ k ∧ (k', v') ∈ nt).
Proof.
  induction nt as [|[k0 v0] nt IH]; simpl; [by intros _ ?%elem_of_nil|].
  intros [Hk0 Hnd]%NoDup_cons Hk. case_decide as Heq.
  - subst k0. rewrite !elem_of_cons. split.
    + intros [[= -> ->]|Hin]; [by left|]. right. split; [|by right].
      intros ->. apply Hk0. by apply (list_elem_of_fmap_2 fst) in Hin.
    + intros [[-> ->]|[Hne [[= ? ?]|?]]]; [by left | done | by right].
  - apply elem_of_cons in Hk as [?|Hk]; [congruence|].
    rewrite !elem_of_cons, (IH Hnd Hk). split.
    + intros [[= -> ->]|[?|[? ?]]]; [right; split; [done | by left]
        | by left | right; split; [done | by right]].
    + intros [?|[Hne [[= -> ->]|?]]]; [right; by left | by left
        | right; right; done].
Qed.

Lemma assign_multi_clock nt s t e nt' :
  0 ≤ t_wcet t → multi_clock nt s → assign_multi nt t = Ok (e, nt') →
  multi_clock nt' (s ++ [e]).
Proof.
  intros Hwcet (Hnd & Hend & Hord). unfold assign_multi.
  intros (n & _ & Hrest)%bind_Ok.
  apply bind_Ok in Hrest as (v0 & Hv0 & [= <- <-]).
  pose proof (node_time_getitem_Ok_elem _ _ _ Hv0) as Hn.
  assert (∀ e', e' ∈ s → node_id e' = n → end_time e' ≤ v0) as Hbusy.
  { intros e' (v & Hv & Hle)%Hend Hnode. rewrite Hnode in Hv.
    apply node_time_getitem_elem_of in Hv; [|done]. congruence. }
  split_and!.
  - by rewrite node_time_setitem_keys.
  - intros e' [He'| ->%list_elem_of_singleton]%elem_of_app; simpl.
    + destruct (decide (node_id e' = n)) as [Hnode|Hnode].
      * exists (v0 + t_wcet t). rewrite Hnode. split.
        -- apply node_time_setitem_elem_of; auto.
        -- specialize (Hbusy e' He' Hnode). lia.
      * destruct (Hend e' He') as (v & Hv & Hle). exists v. split; [|done].
        apply node_time_setitem_elem_of; auto.
    + exists (v0 + t_wcet t). split; [|lia].
      apply node_time_setitem_elem_of; auto.
  - intros i j e1 e2 Hi Hj Hlt Hnode.
    apply lookup_app_Some in Hj as [Hj|[Hlen Hj]].
    + apply lookup_app_Some in Hi as [Hi|[Hlen _]]; [by eapply Hord|].
      apply lookup_lt_Some in Hj. lia.
    + apply list_lookup_singleton_Some in Hj as [Hj0 <-]. simpl in *.
      apply lookup_app_Some in Hi as [Hi|[Hlen' _]]; [|lia].
      apply Hbusy; [by eapply list_elem_of_lookup_2 | done].
Qed.

Lemma propagate_delay_clock links_ n t nt s nt' :
  multi_clock nt s → propagate_delay links_ n t nt = Ok nt' →
  multi_clock nt' s.
Proof.
  intros (Hnd & Hend & Hord). unfold propagate_delay.
  destruct (t_node_id t) as [h|]; [|by intros [= <-]].
  case_decide; [|by intros [= <-]].
  intros (a & Ha & Hrest)%bind_Ok.
  apply bind_Ok in Hrest as (b & _ & [= <-]).
  pose proof (node_time_getitem_Ok_elem _ _ _ Ha) as Hh.
  split_and!; [by rewrite node_time_setitem_keys | | done].
  intros e' (v & Hv & Hle)%Hend.
  destruct (decide (node_id e' = h)) as [Hnode|Hnode].
  - rewrite Hnode in *. apply node_time_getitem_elem_of in Hv; [|done].
    eexists. split; [apply node_time_setitem_elem_of; auto|].
    assert (v = a) by congruence. lia.
  - exists v. split; [|done]. apply node_time_setitem_elem_of; auto.
Qed.

(** ** Consequences for a whole call *)

Lemma acyclic_rank messages_ (rank : string → nat) :
  (∀ m, m ∈ messages_ → (rank (sender m) < rank (receiver m))%nat) →
  acyclic messages_.
Proof.
  intros Hrank.
  assert (∀ a b, tc (edge messages_) a b → (rank a < rank b)%nat) as Htc.
  { induction 1 as [a b (m & Hm & <- & <-)|a b c (m & Hm & <- & <-) _ IH].
    - by apply Hrank.
    - specialize (Hrank m Hm). lia. }
  intros t Hcyc%Htc. lia.
Qed.

Section RunFacts.
Context {C : Type}.
Variable reverse : bool.
Variable assign : C → Task → result (ScheduleEntry * C).
Variable on_release : Z → Task → C → result C.
Variable c0 : C.
Hypothesis assign_entry :
  ∀ c t e c', assign c t = Ok (e, c') → entry_of e t.

(** On an acyclic graph between tasks with distinct ids, the schedule
    returned lists every task id once. *)
Lemma drv_run_complete app s :
  NoDup (task_ids (tasks app)) → senders_known app → acyclic (messages app) →
  drv_run reverse assign on_release c0 app = Ok s →
  task_id <$> s ≡ₚ task_ids (tasks app).
Proof.
  intros Hnd Hsend Hacyc Hrun.
  destruct (drv_run_kahn reverse assign on_release c0 assign_entry app s
    Hnd Hrun) as [i Hinv].
  eapply kahn_inv_complete; [exact Hinv|done..|].
  intros m Hm. by eapply Forall_forall in Hsend.
Qed.

(** A task on a cycle is not in the schedule returned. *)
Lemma drv_run_omits_cycles app s t :
  NoDup (task_ids (tasks app)) → on_cycle (messages app) t →
  drv_run reverse assign on_release c0 app = Ok s →
  t ∉ task_id <$> s.
Proof.
  intros Hnd Hcyc Hrun.
  destruct (drv_run_kahn reverse assign on_release c0 assign_entry app s
    Hnd Hrun) as [i Hinv].
  by eapply kahn_inv_cycle.
Qed.

End RunFacts.

(** A single-node schedule is contiguous from time [0], and stays as it is
    when sorted by start time. *)
Lemma single_run_contiguous reverse app s :
  Forall (λ t, 0 ≤ t_wcet t) (tasks app) →
  drv_run reverse assign_single on_release_single 0 app = Ok s →
  (∀ e, e ∈ s → ∃ t, t ∈ tasks app ∧ entry_of e t)
  ∧ contiguous_from 0 s
  ∧ py_sorted start_time false s = s.
Proof.
  intros Hwcet Hrun.
  destruct (drv_run_entries reverse assign_single on_release_single 0
    assign_single_entry single_clock app s) as (Hent & c' & Hcont & _);
    [intros c s' t e c' _; apply assign_single_clock
    | apply on_release_single_clock | done | done |].
  split_and!; [done..|].
  apply py_sorted_id. eapply contiguous_from_sorted; [exact Hcont|].
  apply Forall_forall. intros e (t & Ht & _ & _ & Hend)%Hent.
  eapply Forall_forall in Hwcet; [|exact Ht]. lia.
Qed.

(** No call is cut off by the iteration bound: the three routines are
    total, and every outcome is a schedule or a Python exception. *)
Lemma scheduling_never_runs_out_of_fuel app plat :
  (ldf_single_node app).2 ≠ OutOfFuel
  ∧ (edf_single_node app).2 ≠ OutOfFuel
  ∧ (edf_multinode app plat).2 ≠ OutOfFuel.
Proof.
  rewrite ldf_single_node_run, edf_single_node_run, edf_multinode_run.
  simpl. split_and!; (apply bind_not_OutOfFuel; [|done]).
  - by apply drv_run_fuel.
  - by apply drv_run_fuel.
  - apply drv_run_fuel.
    + apply assign_multi_not_OutOfFuel.
    + apply propagate_delay_not_OutOfFuel.
Qed.

Lemma contiguous_from_lower t s j e :
  contiguous_from t s → Forall (λ e, start_time e ≤ end_time e) s →
  s !! j = Some e → t ≤ start_time e.
Proof.
  revert t j. induction s as [|e' s IH]; intros t j; [done|]. simpl.
  intros [<- Hs] [He' Hall]%Forall_cons. destruct j as [|j]; simpl.
  - by intros [= <-].
  - intros Hj. specialize (IH _ _ Hs Hall Hj). lia.
Qed.

Lemma contiguous_from_ordered t s i j e1 e2 :
  contiguous_from t s → Forall (λ e, start_time e ≤ end_time e) s →
  s !! i = Some e1 → s !! j = Some e2 → (i < j)%nat →
  end_time e1 ≤ start_time e2.
Proof.
  revert t i j. induction s as [|e' s IH]; intros t i j; [done|]. simpl.
  intros [_ Hs] [He' Hall]%Forall_cons Hi Hj Hlt.
  destruct j as [|j]; [lia|]. destruct i as [|i]; simpl in *.
  - injection Hi as <-. by eapply contiguous_from_lower.
  - eapply IH; eauto. lia.
Qed.

(** On one node a receiver starts no earlier than its sender ends: the
    sender is scheduled first, and the clock never runs backwards. *)
Lemma single_run_respects_messages reverse app s m ea eb :
  NoDup (task_ids (tasks app)) → Forall (λ t, 0 ≤ t_wcet t) (tasks app) →
  drv_run reverse assign_single on_release_single 0 app = Ok s →
  m ∈ messages app → ea ∈ s → eb ∈ s →
  task_id ea = sender m → task_id eb = receiver m →
  end_time ea ≤ start_time eb.
Proof.
  intros Hnd Hwcet Hrun Hm Hea Heb Hida Hidb.
  destruct (single_run_contiguous reverse app s Hwcet Hrun)
    as (Hent & Hcont & _).
  destruct (drv_run_kahn reverse assign_single on_release_single 0
    assign_single_entry app s Hnd Hrun)
    as (i & Hnds & _ & _ & _ & _ & Hord).
  rewrite app_nil_r in Hnds.
  destruct (Hord (sender m) (receiver m)) as (ia & ib & Hia & Hib & Hlt).
  { by exists m. }
  { rewrite <-Hidb. by apply list_elem_of_fmap_2. }
  apply list_elem_of_lookup in Hea as [ja Hja].
  apply list_elem_of_lookup in Heb as [jb Hjb].
  assert (ja = ia) as ->.
  { eapply NoDup_lookup; [exact Hnds| |exact Hia].
    by rewrite list_lookup_fmap, Hja, <-Hida. }
  assert (jb = ib) as ->.
  { eapply NoDup_lookup; [exact Hnds| |exact Hib].
    by rewrite list_lookup_fmap, Hjb, <-Hidb. }
  eapply contiguous_from_ordered; eauto.
  apply Forall_forall. intros e (t & Ht & _ & _ & Hend)%Hent.
  eapply Forall_forall in Hwcet; [|exact Ht]. lia.
Qed.

(** In [edf_multinode] the same holds of a sender and a receiver that end
    up on one node. *)
Lemma multi_run_respects_messages_on_one_node app plat s m ea eb :
  NoDup (task_ids (tasks app)) → Forall (λ t, 0 ≤ t_wcet t) (tasks app) →
  drv_run false assign_multi (propagate_delay (links plat))
    (init_node_time (nodes plat)) app = Ok s →
  m ∈ messages app → ea ∈ s → eb ∈ s →
  task_id ea = sender m → task_id eb = receiver m →
  node_id ea = node_id eb →
  end_time ea ≤ start_time eb.
Proof.
  intros Hnd Hwcet Hrun Hm Hea Heb Hida Hidb Hnode.
  destruct (drv_run_entries false assign_multi (propagate_delay (links plat))
    (init_node_time (nodes plat)) assign_multi_entry multi_clock app s)
    as (_ & c' & _ & _ & Hsame); [| |split_and!|done|].
  - intros c s' t e c' Ht. apply assign_multi_clock.
    by eapply Forall_forall in Hwcet.
  - intros n t c s' c'. apply propagate_delay_clock.
  - apply init_node_time_keys.
  - by intros e ?%elem_of_nil.
  - by intros [|?] ? ? ?.
  - destruct (drv_run_kahn false assign_multi (propagate_delay (links plat))
      (init_node_time (nodes plat)) assign_multi_entry app s Hnd Hrun)
      as (i & Hnds & _ & _ & _ & _ & Hord).
    rewrite app_nil_r in Hnds.
    destruct (Hord (sender m) (receiver m)) as (ia & ib & Hia & Hib & Hlt).
    { by exists m. }
    { rewrite <-Hidb. by apply list_elem_of_fmap_2. }
    apply list_elem_of_lookup in Hea as [ja Hja].
    apply list_elem_of_lookup in Heb as [jb Hjb].
    assert (ja = ia) as ->.
    { eapply NoDup_lookup; [exact Hnds| |exact Hia].
      by rewrite list_lookup_fmap, Hja, <-Hida. }
    assert (jb = ib) as ->.
    { eapply NoDup_lookup; [exact Hnds| |exact Hib].
      by rewrite list_lookup_fmap, Hjb, <-Hidb. }
    by eapply Hsame.
Qed.

(** ** The embedding on the design document's scenario *)

(** Four tasks without messages: EDF runs them in the order 0, 1, 3, 2 and
    LDF in the order 2, 3, 0, 1, back to back from time [0]. *)
Example scenario_single_node :
  (edf_single_node scenario_app).2
  = Ok {| schedule :=
            [{| task_id := "0"; node_id := 1; start_time := 0;
                end_time := 20; deadline := 250 |};
             {| task_id := "1"; node_id := 1; start_time := 20;
                end_time := 40; deadline := 250 |};
             {| task_id := "3"; node_id := 1; start_time := 40;
                end_time := 60; deadline := 256 |};
             {| task_id := "2"; node_id := 1; start_time := 60;
                end_time := 80; deadline := 300 |}];
          name := "EDF Single Node" |}
  ∧ (ldf_single_node scenario_app).2
    = Ok {| schedule :=
              [{| task_id := "2"; node_id := 1; start_time := 0;
                  end_time := 20; deadline := 300 |};
               {| task_id := "3"; node_id := 1; start_time := 20;
                  end_time := 40; deadline := 256 |};
               {| task_id := "0"; node_id := 1; start_time := 40;
                  end_time := 60; deadline := 250 |};
               {| task_id := "1"; node_id := 1; start_time := 60;
                  end_time := 80; deadline := 250 |}];
            name := "LDF Single Node" |}.
Proof. split; vm_compute; reflexivity. Qed.

(** * The claims *)

Lemma chain_app_acyclic : acyclic (messages chain_app).
Proof.
  apply (acyclic_rank _ (λ s, if decide (s = "A") then 0 else 1)%nat).
  intros m ->%list_elem_of_singleton. simpl. lia.
Qed.

Lemma cyclic_app_cycle : on_cycle (messages cyclic_app) "A".
Proof.
  apply tc_l with "B"; [|apply tc_once].
  - exists (msg "A" "B"). split; [left | done].
  - exists (msg "B" "A"). split; [right; left | done].
Qed.

(** Tasks without a ["node_id"] fit every platform. *)
Lemma no_hints app plat :
  Forall (λ t, t_node_id t = None) (tasks app) → hints_known app plat.
Proof.
  intros Hnone t h Ht Hh. eapply Forall_forall in Hnone; [|exact Ht].
  congruence.
Qed.

(** ** C2 *)

(** C2. For an input whose dependency graph is acyclic -- tasks with
    distinct ids, every message between two of them -- each of
    [ldf_single_node] and [edf_single_node] returns a schedule whose task ids
    are a permutation of the ids of the task list: every task once, none
    dropped, none twice.  So does [edf_multinode] on a platform with at
    least one node where every truthy ["node_id"] of a task names a node;
    on any other platform it raises, and whatever schedule it returns has
    the property. *)
Theorem every_task_scheduled_exactly_once app plat :
  NoDup (task_ids (tasks app)) → receivers_known app → senders_known app →
  acyclic (messages app) →
  (∃ s, (ldf_single_node app).2 = Ok s
        ∧ task_id <$> schedule s ≡ₚ task_ids (tasks app))
  ∧ (∃ s, (edf_single_node app).2 = Ok s
          ∧ task_id <$> schedule s ≡ₚ task_ids (tasks app))
  ∧ (∀ s, (edf_multinode app plat).2 = Ok s →
          task_id <$> schedule s ≡ₚ task_ids (tasks app))
  ∧ (nodes plat ≠ [] → hints_known app plat →
     ∃ s, (edf_multinode app plat).2 = Ok s).
Proof.
  intros Hnd Hrecv Hsend Hacyc.
  rewrite ldf_single_node_run, edf_single_node_run, edf_multinode_run.
  simpl. split_and!.
  - destruct (single_run_returns true app Hrecv) as [s Hs].
    rewrite Hs. simpl. eexists. split; [done|]. simpl.
    by eapply drv_run_complete; [apply assign_single_entry|..].
  - destruct (single_run_returns false app Hrecv) as [s Hs].
    rewrite Hs. simpl. eexists. split; [done|]. simpl.
    by eapply drv_run_complete; [apply assign_single_entry|..].
  - intros s (l & Hl & [= <-])%bind_Ok. simpl.
    by eapply drv_run_complete; [apply assign_multi_entry|..].
  - intros Hnodes Hhints.
    destruct (multi_run_returns app plat Hrecv Hnodes Hhints) as [s Hs].
    rewrite Hs. simpl. eauto.
Qed.

Lemma every_task_scheduled_exactly_once_witness :
  (∃ s, (ldf_single_node chain_app).2 = Ok s
        ∧ task_id <$> schedule s ≡ₚ task_ids (tasks chain_app))
  ∧ (∃ s, (edf_single_node chain_app).2 = Ok s
          ∧ task_id <$> schedule s ≡ₚ task_ids (tasks chain_app))
  ∧ (∃ s, (edf_multinode chain_app two_nodes).2 = Ok s
          ∧ task_id <$> schedule s ≡ₚ task_ids (tasks chain_app)).
Proof.
  destruct (every_task_scheduled_exactly_once chain_app two_nodes)
    as (Hldf & Hedf & Hperm & Hmulti).
  - apply (bool_decide_unpack _). vm_compute. exact I.
  - apply (bool_decide_unpack _). vm_compute. exact I.
  - apply (bool_decide_unpack _). vm_compute. exact I.
  - exact chain_app_acyclic.
  - split_and!; [exact Hldf | exact Hedf |].
    destruct Hmulti as [s Hs].
    + discriminate.
    + apply no_hints. by repeat constructor.
    + exists s. split; [exact Hs | exact (Hperm s Hs)].
Defined.

(** ** C1 *)

(** C1, as the code has it.  No routine raises on a cyclic input (there is
    no [CyclicDependencyError] in the module): for tasks with distinct ids
    and messages whose receivers are tasks, each routine returns a schedule,
    and a task that lies on a cycle of messages is not in it.
    [edf_multinode] returns when the platform has a node and every truthy
    ["node_id"] names one. *)
Theorem tasks_on_a_cycle_are_left_out app plat t :
  NoDup (task_ids (tasks app)) → receivers_known app →
  on_cycle (messages app) t →
  (∃ s, (ldf_single_node app).2 = Ok s ∧ t ∉ task_id <$> schedule s)
  ∧ (∃ s, (edf_single_node app).2 = Ok s ∧ t ∉ task_id <$> schedule s)
  ∧ (∀ s, (edf_multinode app plat).2 = Ok s → t ∉ task_id <$> schedule s)
  ∧ (nodes plat ≠ [] → hints_known app plat →
     ∃ s, (edf_multinode app plat).2 = Ok s).
Proof.
  intros Hnd Hrecv Hcyc.
  rewrite ldf_single_node_run, edf_single_node_run, edf_multinode_run.
  simpl. split_and!.
  - destruct (single_run_returns true app Hrecv) as [s Hs].
    rewrite Hs. simpl. eexists. split; [done|]. simpl.
    by eapply drv_run_omits_cycles; [apply assign_single_entry|..].
  - destruct (single_run_returns false app Hrecv) as [s Hs].
    rewrite Hs. simpl. eexists. split; [done|]. simpl.
    by eapply drv_run_omits_cycles; [apply assign_single_entry|..].
  - intros s (l & Hl & [= <-])%bind_Ok. simpl.
    by eapply drv_run_omits_cycles; [apply assign_multi_entry|..].
  - intros Hnodes Hhints.
    destruct (multi_run_returns app plat Hrecv Hnodes Hhints) as [s Hs].
    rewrite Hs. simpl. eauto.
Qed.

Lemma tasks_on_a_cycle_are_left_out_witness :
  (∃ s, (ldf_single_node cyclic_app).2 = Ok s ∧ "A" ∉ task_id <$> schedule s)
  ∧ (∃ s, (edf_single_node cyclic_app).2 = Ok s
          ∧ "A" ∉ task_id <$> schedule s)
  ∧ (∃ s, (edf_multinode cyclic_app two_nodes).2 = Ok s
          ∧ "A" ∉ task_id <$> schedule s).
Proof.
  destruct (tasks_on_a_cycle_are_left_out cyclic_app two_nodes "A")
    as (Hldf & Hedf & Hout & Hmulti).
  - apply (bool_decide_unpack _). vm_compute. exact I.
  - apply (bool_decide_unpack _). vm_compute. exact I.
  - exact cyclic_app_cycle.
  - split_and!; [exact Hldf | exact Hedf |].
    destruct Hmulti as [s Hs].
    + discriminate.
    + apply no_hints. by repeat constructor.
    + exists s. split; [exact Hs | exact (Hout s Hs)].
Defined.

(** C1 as stated fails: on the cyclic input [cyclic_app] ([A] and [B] wait
    for each other) every routine returns normally, with the partial
    schedule that holds [C] alone. *)
Lemma cyclic_input_returns_partial_schedule :
  on_cycle (messages cyclic_app) "A"
  ∧ (ldf_single_node cyclic_app).2
    = Ok {| schedule := [{| task_id := "C"; node_id := 1; start_time := 0;
                            end_time := 5; deadline := 3 |}];
            name := "LDF Single Node" |}
  ∧ (edf_single_node cyclic_app).2
    = Ok {| schedule := [{| task_id := "C"; node_id := 1; start_time := 0;
                            end_time := 5; deadline := 3 |}];
            name := "EDF Single Node" |}
  ∧ (edf_multinode cyclic_app two_nodes).2
    = Ok {| schedule := [{| task_id := "C"; node_id := 1; start_time := 0;
                            end_time := 5; deadline := 3 |}];
            name := "EDF Multi Node" |}.
Proof.
  split; [exact cyclic_app_cycle|].
  split_and!; vm_compute; reflexivity.
Qed.

(** ** C6 *)

(** C6. When every receiver of a message is a task and no task has a
    negative execution time, [ldf_single_node] and [edf_single_node] return
    a schedule that is contiguous once sorted by start time -- each entry
    starts where the one before it ends -- and every entry was made for a
    task of the list: it carries that task's id and deadline, and
    [end_time = start_time + wcet]. *)
Theorem single_node_schedules_are_contiguous app :
  receivers_known app → Forall (λ t, 0 ≤ t_wcet t) (tasks app) →
  (∃ s, (ldf_single_node app).2 = Ok s
        ∧ contiguous (py_sorted start_time false (schedule s))
        ∧ ∀ e, e ∈ schedule s → ∃ t, t ∈ tasks app ∧ entry_of e t)
  ∧ (∃ s, (edf_single_node app).2 = Ok s
          ∧ contiguous (py_sorted start_time false (schedule s))
          ∧ ∀ e, e ∈ schedule s → ∃ t, t ∈ tasks app ∧ entry_of e t).
Proof.
  intros Hrecv Hwcet.
  rewrite ldf_single_node_run, edf_single_node_run. simpl. split.
  - destruct (single_run_returns true app Hrecv) as [s Hs].
    rewrite Hs. simpl. eexists. split; [done|]. simpl.
    destruct (single_run_contiguous true app s Hwcet Hs)
      as (Hent & Hcont & ->).
    split; [by eapply contiguous_from_contiguous | done].
  - destruct (single_run_returns false app Hrecv) as [s Hs].
    rewrite Hs. simpl. eexists. split; [done|]. simpl.
    destruct (single_run_contiguous false app s Hwcet Hs)
      as (Hent & Hcont & ->).
    split; [by eapply contiguous_from_contiguous | done].
Qed.

Lemma single_node_schedules_are_contiguous_witness :
  (∃ s, (ldf_single_node chain_app).2 = Ok s
        ∧ contiguous (py_sorted start_time false (schedule s))
        ∧ ∀ e, e ∈ schedule s → ∃ t, t ∈ tasks chain_app ∧ entry_of e t)
  ∧ (∃ s, (edf_single_node chain_app).2 = Ok s
          ∧ contiguous (py_sorted start_time false (schedule s))
          ∧ ∀ e, e ∈ schedule s → ∃ t, t ∈ tasks chain_app ∧ entry_of e t).
Proof.
  apply (single_node_schedules_are_contiguous chain_app).
  - apply (bool_decide_unpack _). vm_compute. exact I.
  - repeat constructor; simpl; lia.
Defined.

(** ** C4 *)

(** What the schedulers do with equal deadlines is proved at the end of
    the file, after the facts on priority it rests on. *)

(** C4 as stated fails: with equal deadlines and the task of id ["1"]
    listed before the task of id ["0"], every routine schedules ["1"]
    first, although ["0"] is the smaller id. *)
Lemma equal_deadlines_keep_list_order :
  String.ltb "0" "1" = true
  ∧ (∃ s, (edf_single_node tie_app).2 = Ok s
          ∧ task_id <$> schedule s = ["1"; "0"])
  ∧ (∃ s, (ldf_single_node tie_app).2 = Ok s
          ∧ task_id <$> schedule s = ["1"; "0"])
  ∧ (∃ s, (edf_multinode tie_app two_nodes).2 = Ok s
          ∧ task_id <$> schedule s = ["1"; "0"]).
Proof.
  split; [reflexivity|].
  split_and!; eexists; (split; [vm_compute; reflexivity | reflexivity]).
Qed.

(** ** C5 *)

(** C5, as the code has it.  The clocks [node_time] list the nodes in the
    order of the platform's [nodes] list (a repeated id keeps its first
    place), and no step of the loop changes that order.  A step appends one
    entry for the task taken off the ready queue; its node is one whose
    clock is minimal, its start time is that clock, and among the nodes
    with the minimal clock it is the one listed first: every node listed
    before it has a strictly later clock.  The node id is not compared. *)
Theorem edf_multinode_picks_first_free_node tasks_ links_ graph task_ st st'
    nodes_ :
  NoDup (m_node_time st).*1 →
  edf_multinode_body tasks_ links_ graph task_ st = Ok st' →
  (∃ e l1 l2,
      m_schedule st' = m_schedule st ++ [e]
      ∧ task_id e = t_id task_
      ∧ m_node_time st = l1 ++ (node_id e, start_time e) :: l2
      ∧ Forall (λ kv, start_time e < kv.2) l1
      ∧ Forall (λ kv, start_time e ≤ kv.2) l2)
  ∧ (m_node_time st').*1 = (m_node_time st).*1
  ∧ NoDup (init_node_time nodes_).*1
  ∧ (NoDup (n_id <$> nodes_) → (init_node_time nodes_).*1 = n_id <$> nodes_).
Proof.
  intros Hnd. unfold edf_multinode_body.
  intros (n & Hn & Hrest)%bind_Ok.
  apply bind_Ok in Hrest as (v & Hv & Hrest).
  apply bind_Ok in Hrest as ([[i' nt'] q'] & Hrel & [= <-]). simpl.
  apply min_node_Ok in Hn as (l1 & v0 & l2 & Hnt & Hl1 & Hl2).
  rewrite (node_time_getitem_NoDup _ _ _ _ _ Hnt Hnd) in Hv.
  injection Hv as ->.
  destruct (init_node_time_keys nodes_) as (Hinit & _ & Hkeys).
  split_and!; [|
    rewrite (release_dependents_multi_keys _ _ _ _ _ _ _ _ _ _ Hrel);
    apply node_time_setitem_keys; rewrite Hnt, fmap_app, elem_of_app;
    right; left | done | done].
  eexists _, l1, l2. by split_and!.
Qed.

Lemma edf_multinode_picks_first_free_node_witness :
  ∃ st',
    edf_multinode_body (tasks one_task_app) [] ∅ (task "A" 10 1)
      {| m_in_degree := {["A" := 0]}; m_node_time := [(2, 0); (1, 0)];
         m_schedule := []; m_ready_queue := [] |} = Ok st'
    ∧ (∃ e l1 l2,
          m_schedule st' = [] ++ [e]
          ∧ task_id e = "A"
          ∧ [(2, 0); (1, 0)] = l1 ++ (node_id e, start_time e) :: l2
          ∧ Forall (λ kv, start_time e < kv.2) l1
          ∧ Forall (λ kv, start_time e ≤ kv.2) l2)
    ∧ (m_node_time st').*1 = [2; 1]
    ∧ NoDup (init_node_time (nodes nodes_2_1)).*1
    ∧ (NoDup (n_id <$> nodes nodes_2_1) →
       (init_node_time (nodes nodes_2_1)).*1 = n_id <$> nodes nodes_2_1).
Proof.
  eexists. split; [vm_compute; reflexivity|].
  apply (edf_multinode_picks_first_free_node (tasks one_task_app) [] ∅
    (task "A" 10 1)
    {| m_in_degree := {["A" := 0]}; m_node_time := [(2, 0); (1, 0)];
       m_schedule := []; m_ready_queue := [] |} _ (nodes nodes_2_1)).
  - apply (bool_decide_unpack _). vm_compute. exact I.
  - vm_compute. reflexivity.
Defined.

(** C5 as stated fails: with the nodes listed as [2; 1] and both free at
    time [0], the first task goes to node [2], not to the smaller id [1]. *)
Lemma tie_between_nodes_goes_to_first_listed :
  init_node_time (nodes nodes_2_1) = [(2, 0); (1, 0)]
  ∧ (edf_multinode one_task_app nodes_2_1).2
    = Ok {| schedule := [{| task_id := "A"; node_id := 2; start_time := 0;
                            end_time := 10; deadline := 1 |}];
            name := "EDF Multi Node" |}.
Proof. split; vm_compute; reflexivity. Qed.

(** ** C7 *)

(** The loop over the messages completes exactly when every receiver is a
    task, so that is when the task list gets sorted. *)
Lemma tasks_after_spec reverse app :
  tasks_after reverse app
  = {| tasks := if decide (receivers_known app)
                then py_sorted t_deadline reverse (tasks app)
                else tasks app;
       messages := messages app |}.
Proof.
  unfold tasks_after. case_decide as Hknown.
  - by destruct (build_graph_receivers_known app Hknown) as [r ->].
  - apply not_Forall_Exists in Hknown; [|apply _].
    apply Exists_exists in Hknown as (m & Hm & Hr).
    rewrite (build_graph_receiver_unknown app m Hm Hr). by destruct app.
Qed.

(** C7, as the code has it.  Every routine begins, once the loop over the
    messages has completed, with [tasks.sort(...)] on the caller's list.
    After a call the caller's task list holds the same records, reordered
    by deadline (stable; descending for LDF, ascending for EDF) -- or
    untouched when the loop over the messages raised, which is when some
    receiver is not a task.  The message list, the node list and the link
    list are as they were, and no record gains a field. *)
Theorem only_the_task_list_is_reordered app plat :
  let tasks_then reverse :=
    if decide (receivers_known app)
    then py_sorted t_deadline reverse (tasks app) else tasks app in
  (ldf_single_node app).1
  = {| tasks := tasks_then true; messages := messages app |}
  ∧ (edf_single_node app).1
    = {| tasks := tasks_then false; messages := messages app |}
  ∧ (edf_multinode app plat).1
    = ({| tasks := tasks_then false; messages := messages app |}, plat)
  ∧ tasks_then true ≡ₚ tasks app
  ∧ tasks_then false ≡ₚ tasks app.
Proof.
  simpl. rewrite ldf_single_node_run, edf_single_node_run, edf_multinode_run.
  simpl. rewrite !tasks_after_spec.
  split_and!; try done; case_decide; try done; apply py_sorted_perm.
Qed.

(** C7 as stated fails: [ldf_single_node] leaves the caller's task list in
    another order than it found it. *)
Lemma ldf_single_node_reorders_the_task_list :
  tasks (ldf_single_node chain_app).1
  = [task "C" 5 3; task "B" 5 2; task "A" 10 1]
  ∧ tasks (ldf_single_node chain_app).1 ≠ tasks chain_app.
Proof. split; [vm_compute; reflexivity | vm_compute; discriminate]. Qed.

(** ** C8 *)

(** A call on the data a previous call has left behind runs as the
    previous call did: the in-degrees do not depend on the order of the
    tasks, and sorting a sorted list changes nothing. *)
Lemma drv_run_tasks_after {C} reverse assign on_release (c0 : C) app :
  drv_run reverse assign on_release c0 (tasks_after reverse app)
  = drv_run reverse assign on_release c0 app.
Proof.
  unfold tasks_after, drv_run.
  destruct (build_graph _ _ _) as [[g i]| |] eqn:Hbuild;
    [|by rewrite Hbuild..].
  simpl.
  rewrite (init_in_degree_perm _ (tasks app)) by apply py_sorted_perm.
  rewrite Hbuild. simpl. by rewrite !py_sorted_idemp.
Qed.

(** C8. The routines are functions of their arguments: they read no state
    but what they are passed, so two calls on equal inputs are one and the
    same computation.  What a call does change is the caller's task list;
    calling again on the data as the first call left it returns the same
    result -- the same name, the same entries in the same order, or the
    same exception.  The two placeholder routines return one constant. *)
Theorem repeated_calls_return_the_same_schedule app plat :
  (ldf_single_node (ldf_single_node app).1).2 = (ldf_single_node app).2
  ∧ (edf_single_node (edf_single_node app).1).2 = (edf_single_node app).2
  ∧ (edf_multinode (edf_multinode app plat).1.1 (edf_multinode app plat).1.2).2
    = (edf_multinode app plat).2
  ∧ ll_multinode (edf_multinode app plat).1.1 plat = ll_multinode app plat
  ∧ ldf_multinode (edf_multinode app plat).1.1 plat = ldf_multinode app plat.
Proof.
  rewrite !ldf_single_node_run, !edf_single_node_run, !edf_multinode_run.
  simpl. by rewrite !drv_run_tasks_after.
Qed.

(** ** C9 *)

(** C9, as the code has it.  The module defines no
    [UnknownTaskReferenceError] and checks no message.  A receiver that is
    no task makes [in_degree[receiver] += 1] raise [KeyError], in every
    routine, before the task list is sorted and before anything is
    scheduled.  A sender that is no task raises nothing: when every
    receiver is a task the single-node routines return a schedule, and so
    does [edf_multinode] on a platform with a node on which every truthy
    ["node_id"] names one. *)
Theorem unknown_receiver_raises_KeyError app plat :
  if decide (receivers_known app) then
    (∃ s, (ldf_single_node app).2 = Ok s)
    ∧ (∃ s, (edf_single_node app).2 = Ok s)
    ∧ (nodes plat ≠ [] → hints_known app plat →
       ∃ s, (edf_multinode app plat).2 = Ok s)
  else
    ldf_single_node app = (app, Raise KeyError)
    ∧ edf_single_node app = (app, Raise KeyError)
    ∧ edf_multinode app plat = (app, plat, Raise KeyError).
Proof.
  rewrite ldf_single_node_run, edf_single_node_run, edf_multinode_run.
  case_decide as Hknown.
  - simpl. split_and!.
    + destruct (single_run_returns true app Hknown) as [s ->]. simpl. eauto.
    + destruct (single_run_returns false app Hknown) as [s ->]. simpl. eauto.
    + intros Hnodes Hhints.
      destruct (multi_run_returns app plat Hknown Hnodes Hhints) as [s ->].
      simpl. eauto.
  - apply not_Forall_Exists in Hknown; [|apply _].
    apply Exists_exists in Hknown as (m & Hm & Hr).
    rewrite !(tasks_after_unknown_receiver _ app m Hm Hr).
    by rewrite !(drv_run_unknown_receiver _ _ _ _ app m Hm Hr).
Qed.

Lemma unknown_receiver_raises_KeyError_witness :
  (∃ s, (ldf_single_node unknown_sender_app).2 = Ok s)
  ∧ (∃ s, (edf_single_node unknown_sender_app).2 = Ok s)
  ∧ (∃ s, (edf_multinode unknown_sender_app two_nodes).2 = Ok s).
Proof.
  pose proof (unknown_receiver_raises_KeyError unknown_sender_app two_nodes)
    as H.
  rewrite decide_True in H by (apply (bool_decide_unpack _); vm_compute;
    exact I).
  destruct H as (Hldf & Hedf & Hmulti).
  split_and!; [exact Hldf | exact Hedf |]. apply Hmulti.
  - discriminate.
  - apply no_hints. by repeat constructor.
Defined.

(** C9 as stated fails for an unknown sender: the message from ["X"] is
    accepted by every routine, which returns normally -- with an empty
    schedule, since the receiver ["A"] waits for ["X"] for ever. *)
Lemma unknown_sender_is_accepted :
  ("X" ∉ task_ids (tasks unknown_sender_app))
  ∧ (ldf_single_node unknown_sender_app).2
    = Ok {| schedule := []; name := "LDF Single Node" |}
  ∧ (edf_single_node unknown_sender_app).2
    = Ok {| schedule := []; name := "EDF Single Node" |}
  ∧ (edf_multinode unknown_sender_app two_nodes).2
    = Ok {| schedule := []; name := "EDF Multi Node" |}.
Proof.
  split; [by intros ?%list_elem_of_singleton|].
  split_and!; vm_compute; reflexivity.
Qed.

(** ** C10 *)

(** C10. [ll_multinode] and [ldf_multinode] return, whatever they are
    passed, the module's [example_schedule] -- four fixed entries, for the
    tasks ["3"], ["2"], ["1"], ["0"] in that order -- under the names
    ["LL Multi Node"] and ["LDF Multi Node"]. *)
Theorem placeholders_return_the_example_schedule app plat :
  ll_multinode app plat
  = {| schedule := example_schedule; name := "LL Multi Node" |}
  ∧ ldf_multinode app plat
    = {| schedule := example_schedule; name := "LDF Multi Node" |}
  ∧ length example_schedule = 4%nat
  ∧ task_id <$> example_schedule = ["3"; "2"; "1"; "0"]
  ∧ (λ e, (start_time e, end_time e)) <$> example_schedule
    = [(0, 20); (20, 40); (40, 60); (60, 80)].
Proof. by split_and!. Qed.

(** ** C3 *)

(** C3 fails in [edf_multinode]: a task starts at the clock of the node it
    is placed on, whatever its senders do elsewhere.  On [hinted_app] with
    three nodes, [A] runs on node [1] from [0] to [10].  Its receiver [B]
    carries ["node_id"] [2], so the delay code runs and raises the clock of
    node [2] to [10 + 5]; [B] is then placed on node [3], whose clock is
    still [0], and starts at [0]: before [A] ends, and [15] time units
    before [A]'s end plus the delay of the link from node [1] to node [3].
    Without a ["node_id"] ([chain_app], two nodes) the same happens: [B]
    starts at [0] on node [2]. *)
Lemma edf_multinode_starts_receiver_before_sender_ends :
  msg "A" "B" ∈ messages hinted_app
  ∧ find_link_delay (links three_nodes) 1 3 = 5
  ∧ (edf_multinode hinted_app three_nodes).2
    = Ok {| schedule :=
              [{| task_id := "A"; node_id := 1; start_time := 0;
                  end_time := 10; deadline := 1 |};
               {| task_id := "B"; node_id := 3; start_time := 0;
                  end_time := 5; deadline := 2 |}];
            name := "EDF Multi Node" |}
  ∧ msg "A" "B" ∈ messages chain_app
  ∧ find_link_delay (links two_nodes) 1 2 = 5
  ∧ (edf_multinode chain_app two_nodes).2
    = Ok {| schedule :=
              [{| task_id := "A"; node_id := 1; start_time := 0;
                  end_time := 10; deadline := 1 |};
               {| task_id := "B"; node_id := 2; start_time := 0;
                  end_time := 5; deadline := 2 |};
               {| task_id := "C"; node_id := 2; start_time := 5;
                  end_time := 10; deadline := 3 |}];
            name := "EDF Multi Node" |}.
Proof.
  split_and!; [left | reflexivity | vm_compute; reflexivity
              | left | reflexivity | vm_compute; reflexivity].
Qed.

(** What does hold of C3: in every schedule returned, by any of the three
    routines, a receiver on the same node as its sender starts no earlier
    than the sender ends (task ids distinct, no negative execution time).
    The single-node routines put every task on node [1], so they satisfy
    C3. *)
Lemma messages_are_respected_on_one_node app plat s m ea eb :
  NoDup (task_ids (tasks app)) → Forall (λ t, 0 ≤ t_wcet t) (tasks app) →
  (ldf_single_node app).2 = Ok s ∨ (edf_single_node app).2 = Ok s
  ∨ (edf_multinode app plat).2 = Ok s →
  m ∈ messages app → ea ∈ schedule s → eb ∈ schedule s →
  task_id ea = sender m → task_id eb = receiver m →
  node_id ea = node_id eb →
  end_time ea ≤ start_time eb.
Proof.
  intros Hnd Hwcet Hrun Hm Hea Heb Hida Hidb Hnode.
  rewrite ldf_single_node_run, edf_single_node_run, edf_multinode_run
    in Hrun.
  simpl in Hrun.
  destruct Hrun as [Hrun|[Hrun|Hrun]];
    apply bind_Ok in Hrun as (l & Hl & [= <-]); simpl in *.
  - by eapply single_run_respects_messages.
  - by eapply single_run_respects_messages.
  - by eapply multi_run_respects_messages_on_one_node.
Qed.

(** * Further properties of the routines *)

(** ** What every returned schedule satisfies *)

Lemma returns_kahn app plat s :
  NoDup (task_ids (tasks app)) → returns app plat s →
  ∃ i, kahn_inv (tasks app) (messages app) [] i (task_id <$> schedule s) [].
Proof.
  intros Hnd Hret. unfold returns in Hret.
  rewrite ldf_single_node_run, edf_single_node_run, edf_multinode_run
    in Hret.
  simpl in Hret.
  destruct Hret as [Hrun|[Hrun|Hrun]];
    apply bind_Ok in Hrun as (l & Hl & [= <-]); simpl.
  - by eapply drv_run_kahn; [apply assign_single_entry|..].
  - by eapply drv_run_kahn; [apply assign_single_entry|..].
  - by eapply drv_run_kahn; [apply assign_multi_entry|..].
Qed.

(** X3. Whatever the messages, a schedule returned for tasks with distinct
    ids never holds a task twice and holds ids of tasks only; it has at
    most as many entries as there are tasks. *)
Theorem scheduled_ids_are_distinct_task_ids app plat s :
  NoDup (task_ids (tasks app)) → returns app plat s →
  NoDup (task_id <$> schedule s)
  ∧ (∀ e, e ∈ schedule s → task_id e ∈ task_ids (tasks app))
  ∧ (length (schedule s) ≤ length (tasks app))%nat.
Proof.
  intros Hnd Hret.
  destruct (returns_kahn app plat s Hnd Hret) as (i & Hdone & Hsub & _).
  simpl in *. rewrite app_nil_r in *.
  split_and!; [done| |].
  - intros e He. by apply Hsub, list_elem_of_fmap_2.
  - rewrite <-(length_fmap task_id), <-(length_fmap t_id (tasks app)).
    apply submseteq_length, NoDup_submseteq; [done|]. exact Hsub.
Qed.

Lemma scheduled_ids_are_distinct_task_ids_witness :
  ∃ s, returns cyclic_app two_nodes s
       ∧ NoDup (task_id <$> schedule s)
       ∧ (∀ e, e ∈ schedule s → task_id e ∈ task_ids (tasks cyclic_app))
       ∧ (length (schedule s) ≤ length (tasks cyclic_app))%nat.
Proof.
  eexists. split; [left; vm_compute; reflexivity|].
  apply (scheduled_ids_are_distinct_task_ids cyclic_app two_nodes).
  - apply (bool_decide_unpack _). vm_compute. exact I.
  - left. vm_compute. reflexivity.
Defined.

(** X4. In a returned schedule (task ids distinct) the entries stand in an
    order that respects the messages: before the entry of a receiver there
    is, for each message into it, an entry of the sender. *)
Theorem senders_are_scheduled_first app plat s m j eb :
  NoDup (task_ids (tasks app)) → returns app plat s →
  m ∈ messages app → schedule s !! j = Some eb → task_id eb = receiver m →
  ∃ i ea, (i < j)%nat ∧ schedule s !! i = Some ea ∧ task_id ea = sender m.
Proof.
  intros Hnd Hret Hm Hj Hid.
  destruct (returns_kahn app plat s Hnd Hret)
    as (i0 & Hdone & _ & _ & _ & _ & Hord).
  rewrite app_nil_r in Hdone.
  destruct (Hord (sender m) (receiver m)) as (ia & ib & Hia & Hib & Hlt).
  { by exists m. }
  { rewrite <-Hid. by eapply list_elem_of_fmap_2, list_elem_of_lookup_2. }
  assert (ib = j) as ->.
  { eapply NoDup_lookup; [exact Hdone|exact Hib|].
    by rewrite list_lookup_fmap, Hj, <-Hid. }
  rewrite list_lookup_fmap in Hia.
  destruct (schedule s !! ia) as [ea|] eqn:Hea; [|done].
  injection Hia as Hia. by exists ia, ea.
Qed.

Lemma senders_are_scheduled_first_witness :
  ∃ i ea, (i < 1)%nat
    ∧ [ {| task_id := "A"; node_id := 1; start_time := 0; end_time := 10;
           deadline := 1 |};
        {| task_id := "B"; node_id := 2; start_time := 0; end_time := 5;
           deadline := 2 |};
        {| task_id := "C"; node_id := 2; start_time := 5; end_time := 10;
           deadline := 3 |} ] !! i = Some ea
    ∧ task_id ea = "A".
Proof.
  apply (senders_are_scheduled_first chain_app two_nodes
    {| schedule :=
         [ {| task_id := "A"; node_id := 1; start_time := 0; end_time := 10;
              deadline := 1 |};
           {| task_id := "B"; node_id := 2; start_time := 0; end_time := 5;
              deadline := 2 |};
           {| task_id := "C"; node_id := 2; start_time := 5; end_time := 10;
              deadline := 3 |} ];
       name := "EDF Multi Node" |}
    (msg "A" "B") 1%nat
    {| task_id := "B"; node_id := 2; start_time := 0; end_time := 5;
       deadline := 2 |}).
  - apply (bool_decide_unpack _). vm_compute. exact I.
  - right. right. vm_compute. reflexivity.
  - left.
  - reflexivity.
  - reflexivity.
Defined.

(** X5. Which tasks a returned schedule holds (task ids distinct): a task
    is scheduled exactly when the sender of every message into it is
    scheduled.  A task that a message from a non-task points to, and a task
    behind one that is never scheduled, are left out without an error. *)
Theorem scheduled_iff_senders_scheduled app plat s t :
  NoDup (task_ids (tasks app)) → returns app plat s →
  t ∈ task_ids (tasks app) →
  t ∈ task_id <$> schedule s
  ↔ ∀ m, m ∈ messages app → receiver m = t →
         sender m ∈ task_id <$> schedule s.
Proof.
  intros Hnd Hret Ht.
  destruct (returns_kahn app plat s Hnd Hret)
    as (i & _ & _ & _ & Hmem & _ & _).
  specialize (Hmem t Ht). simpl in Hmem. rewrite app_nil_r in Hmem.
  unfold occurrences in Hmem. simpl in Hmem. rewrite Nat.add_0_r in Hmem.
  rewrite Hmem. split.
  - intros Hz m Hm Hr. by eapply unmet_zero.
  - intros Hall.
    destruct (decide (unmet (messages app) (task_id <$> schedule s) t = 0%nat))
      as [|Hnz]; [done|].
    apply unmet_pos in Hnz as (m & Hm & Hr & Hs). by destruct Hs; eauto.
Qed.

Lemma scheduled_iff_senders_scheduled_witness :
  ∃ s, returns unknown_sender_app two_nodes s
    ∧ ("A" ∈ task_id <$> schedule s
       ↔ ∀ m, m ∈ messages unknown_sender_app → receiver m = "A" →
              sender m ∈ task_id <$> schedule s).
Proof.
  eexists. split; [left; vm_compute; reflexivity|].
  apply (scheduled_iff_senders_scheduled unknown_sender_app two_nodes).
  - apply (bool_decide_unpack _). vm_compute. exact I.
  - left. vm_compute. reflexivity.
  - left.
Defined.

(** X6. Precedence on one timeline (task ids distinct, no negative
    execution time).  In a schedule returned by a single-node routine the
    receiver of a message starts no earlier than its sender ends; in a
    schedule returned by [edf_multinode] this holds of every message whose
    two tasks were placed on the same node. *)
Theorem receivers_start_after_their_senders_end app plat m ea eb :
  NoDup (task_ids (tasks app)) → Forall (λ t, 0 ≤ t_wcet t) (tasks app) →
  m ∈ messages app → task_id ea = sender m → task_id eb = receiver m →
  (∀ s, (ldf_single_node app).2 = Ok s ∨ (edf_single_node app).2 = Ok s →
        ea ∈ schedule s → eb ∈ schedule s → end_time ea ≤ start_time eb)
  ∧ (∀ s, (edf_multinode app plat).2 = Ok s →
          ea ∈ schedule s → eb ∈ schedule s → node_id ea = node_id eb →
          end_time ea ≤ start_time eb).
Proof.
  intros Hnd Hwcet Hm Hida Hidb.
  rewrite ldf_single_node_run, edf_single_node_run, edf_multinode_run.
  simpl. split.
  - intros s [Hs|Hs] Hea Heb; apply bind_Ok in Hs as (l & Hl & [= <-]);
      simpl in *; by eapply single_run_respects_messages.
  - intros s (l & Hl & [= <-])%bind_Ok Hea Heb Hnode. simpl in *.
    by eapply multi_run_respects_messages_on_one_node.
Qed.

Lemma receivers_start_after_their_senders_end_witness :
  end_time {| task_id := "A"; node_id := 1; start_time := 0; end_time := 10;
              deadline := 1 |}
  ≤ start_time {| task_id := "B"; node_id := 1; start_time := 10;
                  end_time := 15; deadline := 2 |}.
Proof.
  refine (proj1 (receivers_start_after_their_senders_end chain_app two_nodes
    (msg "A" "B")
    {| task_id := "A"; node_id := 1; start_time := 0; end_time := 10;
       deadline := 1 |}
    {| task_id := "B"; node_id := 1; start_time := 10; end_time := 15;
       deadline := 2 |} _ _ _ eq_refl eq_refl)
    {| schedule :=
         [ {| task_id := "A"; node_id := 1; start_time := 0; end_time := 10;
              deadline := 1 |};
           {| task_id := "B"; node_id := 1; start_time := 10; end_time := 15;
              deadline := 2 |};
           {| task_id := "C"; node_id := 1; start_time := 15; end_time := 20;
              deadline := 3 |} ];
       name := "EDF Single Node" |} _ _ _).
  - apply (bool_decide_unpack _). vm_compute. exact I.
  - repeat constructor; simpl; lia.
  - left.
  - right. vm_compute. reflexivity.
  - left.
  - right. left.
Defined.

(** ** Timelines *)

Lemma node_time_getitem_Ok_in nt k v :
  node_time_getitem nt k = Ok v → (k, v) ∈ nt.
Proof.
  induction nt as [|[k' v'] nt IH]; simpl; [done|].
  case_decide as Heq; [intros [= ->]; subst; left|].
  intros ?%IH. by right.
Qed.

Lemma node_time_setitem_Forall (P : Z * Z → Prop) nt k v :
  Forall P nt → P (k, v) → Forall P (node_time_setitem nt k v).
Proof.
  intros Hall Hkv. induction Hall as [|[k' v'] nt Hx Hall IH]; simpl.
  - by repeat constructor.
  - case_decide; by constructor.
Qed.

Lemma assign_multi_range K nt s t e nt' :
  0 ≤ t_wcet t → clock_range K nt s → assign_multi nt t = Ok (e, nt') →
  clock_range K nt' (s ++ [e]).
Proof.
  intros Hwcet (Hkeys & Hpos & Hs). unfold assign_multi.
  intros (n & _ & Hrest)%bind_Ok.
  apply bind_Ok in Hrest as (v0 & Hv0 & [= <- <-]).
  pose proof (node_time_getitem_Ok_elem _ _ _ Hv0) as Hn.
  apply node_time_getitem_Ok_in in Hv0.
  assert (0 ≤ v0) as Hv0pos
    by (eapply Forall_forall in Hpos; [|exact Hv0]; done).
  split_and!.
  - by rewrite node_time_setitem_keys.
  - apply node_time_setitem_Forall; [done|]. simpl. lia.
  - apply Forall_app. split; [done|]. repeat constructor; simpl; [|done].
    by rewrite <-Hkeys.
Qed.

Lemma propagate_delay_range links_ K n t nt s nt' :
  clock_range K nt s → propagate_delay links_ n t nt = Ok nt' →
  clock_range K nt' s.
Proof.
  intros (Hkeys & Hpos & Hs). unfold propagate_delay.
  destruct (t_node_id t) as [h|]; [|by intros [= <-]].
  case_decide; [|by intros [= <-]].
  intros (a & Ha & Hrest)%bind_Ok.
  apply bind_Ok in Hrest as (b & _ & [= <-]).
  pose proof (node_time_getitem_Ok_elem _ _ _ Ha) as Hh.
  apply node_time_getitem_Ok_in in Ha.
  assert (0 ≤ a) by (eapply Forall_forall in Hpos; [|exact Ha]; done).
  split_and!; [by rewrite node_time_setitem_keys | | done].
  apply node_time_setitem_Forall; [done|]. simpl. lia.
Qed.

Lemma init_node_time_zero nodes_ :
  Forall (λ kv, 0 ≤ kv.2) (init_node_time nodes_).
Proof.
  unfold init_node_time.
  assert (∀ d : list (Z * Z), Forall (λ kv, 0 ≤ kv.2) d →
    Forall (λ kv, 0 ≤ kv.2)
      (foldl (λ d node, node_time_setitem d (n_id node) 0) d nodes_)) as Hgen.
  { induction nodes_ as [|node nodes_ IH]; intros d Hd; simpl; [done|].
    apply IH. by apply node_time_setitem_Forall. }
  apply Hgen. constructor.
Qed.

(** X7. When no task has a negative execution time, every entry of a
    schedule returned by [edf_multinode] sits on a node of the platform,
    starts at a time that is not negative, and was made for a task of the
    list (its id, its deadline, [end_time = start_time + wcet]); and the
    entries of one node never overlap: of two entries on the same node the
    later one in the list starts no earlier than the earlier one ends. *)
Theorem edf_multinode_timelines_do_not_overlap app plat s :
  Forall (λ t, 0 ≤ t_wcet t) (tasks app) →
  (edf_multinode app plat).2 = Ok s →
  (∀ e, e ∈ schedule s →
        node_id e ∈ node_ids plat ∧ 0 ≤ start_time e
        ∧ ∃ t, t ∈ tasks app ∧ entry_of e t)
  ∧ (∀ i j e1 e2, schedule s !! i = Some e1 → schedule s !! j = Some e2 →
       (i < j)%nat → node_id e1 = node_id e2 →
       end_time e1 ≤ start_time e2).
Proof.
  intros Hwcet. rewrite edf_multinode_run. simpl.
  intros (l & Hrun & [= <-])%bind_Ok. simpl.
  destruct (init_node_time_keys (nodes plat)) as (Hnd & Hkeys & _).
  destruct (drv_run_entries false assign_multi (propagate_delay (links plat))
    (init_node_time (nodes plat)) assign_multi_entry
    (λ nt s, multi_clock nt s
             ∧ clock_range (init_node_time (nodes plat)).*1 nt s) app l)
    as (Hent & c' & (_ & _ & Hsame) & (_ & _ & Hrange)); [| | |done|].
  - intros c s' t e c' Ht [Hmc Hcr] He.
    eapply Forall_forall in Hwcet; [|exact Ht].
    split; [by eapply assign_multi_clock | by eapply assign_multi_range].
  - intros n t c s' c' [Hmc Hcr] Hrel.
    split; [by eapply propagate_delay_clock
           | by eapply propagate_delay_range].
  - split; [split_and!|split_and!]; try done.
    + by intros e ?%elem_of_nil.
    + apply init_node_time_zero.
  - split; [|done]. intros e He.
    eapply Forall_forall in Hrange as [Hnode Hstart]; [|exact He].
    split_and!; [by apply Hkeys | done | by apply Hent].
Qed.

Lemma edf_multinode_timelines_do_not_overlap_witness :
  ∃ s, (edf_multinode chain_app two_nodes).2 = Ok s
    ∧ (∀ e, e ∈ schedule s →
          node_id e ∈ node_ids two_nodes ∧ 0 ≤ start_time e
          ∧ ∃ t, t ∈ tasks chain_app ∧ entry_of e t)
    ∧ (∀ i j e1 e2, schedule s !! i = Some e1 → schedule s !! j = Some e2 →
         (i < j)%nat → node_id e1 = node_id e2 →
         end_time e1 ≤ start_time e2).
Proof.
  eexists. split; [vm_compute; reflexivity|].
  apply (edf_multinode_timelines_do_not_overlap chain_app two_nodes).
  - repeat constructor; simpl; lia.
  - vm_compute. reflexivity.
Defined.

Lemma total_wcet_perm l l' : l ≡ₚ l' → total_wcet l = total_wcet l'.
Proof.
  induction 1 as [|t l l' _ IH|t t' l|l l' l'' _ IH1 _ IH2]; simpl;
    [done | by rewrite IH | lia | congruence].
Qed.

Lemma finish_time_total t s l :
  contiguous_from t s → Forall2 entry_of s l →
  finish_time t s = t + total_wcet l.
Proof.
  intros Hcont Hent. revert t Hcont.
  induction Hent as [|e t' s l (_ & _ & Hend) _ IH]; intros t; simpl.
  - intros _. unfold finish_time. simpl. lia.
  - intros [Hstart Hs]. unfold finish_time in *. simpl.
    rewrite (IH _ Hs). lia.
Qed.

Lemma entries_choose_tasks (tasks_ : list Task) (s : list ScheduleEntry) :
  (∀ e, e ∈ s → ∃ t, t ∈ tasks_ ∧ entry_of e t) →
  ∃ l, Forall2 entry_of s l ∧ Forall (λ t, t ∈ tasks_) l.
Proof.
  induction s as [|e s IH]; intros Hent.
  - exists []. by split.
  - destruct (Hent e) as (t & Ht & He); [left|].
    destruct IH as (l & Hl & Hin); [intros e' He'; apply Hent; by right|].
    exists (t :: l). split; by constructor.
Qed.

Lemma fmap_NoDup_inj {A B} (f : A → B) (l : list A) x y :
  NoDup (f <$> l) → x ∈ l → y ∈ l → f x = f y → x = y.
Proof.
  intros Hnd [i Hi]%list_elem_of_lookup [j Hj]%list_elem_of_lookup Heq.
  assert (i = j) as ->.
  { eapply NoDup_lookup; [exact Hnd| |].
    - by rewrite list_lookup_fmap, Hi.
    - by rewrite list_lookup_fmap, Hj, Heq. }
  congruence.
Qed.

(** A list of tasks drawn from a task list with distinct ids, holding each
    id once, is the task list up to order. *)
Lemma tasks_by_ids_perm tasks_ l :
  NoDup (task_ids tasks_) → Forall (λ t, t ∈ tasks_) l →
  task_ids l ≡ₚ task_ids tasks_ → l ≡ₚ tasks_.
Proof.
  unfold task_ids. intros Hnd Hin Hperm.
  apply NoDup_Permutation.
  - eapply NoDup_fmap_1. by rewrite Hperm.
  - by eapply NoDup_fmap_1.
  - intros t. split; [intros Ht; by eapply (proj1 (Forall_forall _ _) Hin)|].
    intros Ht.
    assert (t_id t ∈ t_id <$> l) as (t' & Hid & Ht')%list_elem_of_fmap
      by (rewrite Hperm; by apply list_elem_of_fmap_2).
    eapply Forall_forall in Hin as Ht'in; [|exact Ht'].
    by rewrite (fmap_NoDup_inj t_id tasks_ t t' Hnd Ht Ht'in Hid).
Qed.

(** X8. On an acyclic graph between tasks with distinct ids, a schedule
    returned by [ldf_single_node] or [edf_single_node] puts every entry on
    node [1], runs the tasks back to back from time [0], and ends at the
    sum of all execution times: the single timeline has no idle time. *)
Theorem single_node_makespan_is_total_wcet app s :
  NoDup (task_ids (tasks app)) → senders_known app →
  acyclic (messages app) →
  (ldf_single_node app).2 = Ok s ∨ (edf_single_node app).2 = Ok s →
  Forall (λ e, node_id e = 1) (schedule s)
  ∧ contiguous_from 0 (schedule s)
  ∧ finish_time 0 (schedule s) = total_wcet (tasks app).
Proof.
  intros Hnd Hsend Hacyc Hret.
  assert (∃ reverse,
    drv_run reverse assign_single on_release_single 0 app = Ok (schedule s))
    as [reverse Hrun].
  { rewrite ldf_single_node_run, edf_single_node_run in Hret. simpl in Hret.
    destruct Hret as [Hret|Hret];
      apply bind_Ok in Hret as (l & Hl & [= <-]); eauto. }
  destruct (drv_run_entries reverse assign_single on_release_single 0
    assign_single_entry
    (λ c s, single_clock c s ∧ Forall (λ e, node_id e = 1) s) app (schedule s))
    as (Hent & c' & [Hcont _] & Hnode); [| | |done|].
  - intros c s' t e c' _ [Hc Hn] He. split; [by eapply assign_single_clock|].
    injection He as <- _. apply Forall_app. split; [done|].
    by repeat constructor.
  - by intros n t c s' c' H [= <-].
  - by repeat split.
  - split_and!; [done..|].
    destruct (entries_choose_tasks _ _ Hent) as (l & Hl & Hin).
    rewrite (finish_time_total 0 _ l Hcont Hl), Z.add_0_l.
    apply total_wcet_perm, tasks_by_ids_perm; [done..|].
    rewrite <-(drv_run_complete reverse assign_single on_release_single 0
      assign_single_entry app (schedule s) Hnd Hsend Hacyc Hrun).
    unfold task_ids. clear -Hl.
    induction Hl as [|e t s' l' (Hid & _) _ IH]; [done|].
    rewrite !fmap_cons, Hid. by constructor.
Qed.

Lemma single_node_makespan_is_total_wcet_witness :
  ∃ s, (ldf_single_node chain_app).2 = Ok s
    ∧ Forall (λ e, node_id e = 1) (schedule s)
    ∧ contiguous_from 0 (schedule s)
    ∧ finish_time 0 (schedule s) = total_wcet (tasks chain_app).
Proof.
  eexists. split; [vm_compute; reflexivity|].
  apply (single_node_makespan_is_total_wcet chain_app).
  - apply (bool_decide_unpack _). vm_compute. exact I.
  - apply (bool_decide_unpack _). vm_compute. exact I.
  - exact chain_app_acyclic.
  - left. vm_compute. reflexivity.
Defined.

(** ** Inputs without dependencies, and inputs without a start *)

Lemma filter_all {A} (P : A → Prop) `{!∀ x, Decision (P x)} (l : list A) :
  Forall P l → filter P l = l.
Proof.
  induction 1 as [|x l Hx _ IH]; [done|].
  by rewrite filter_cons, decide_True, IH.
Qed.

Lemma filter_none {A} (P : A → Prop) `{!∀ x, Decision (P x)} (l : list A) :
  Forall (λ x, ¬ P x) l → filter P l = [].
Proof.
  induction 1 as [|x l Hx _ IH]; [done|].
  by rewrite filter_cons, decide_False, IH.
Qed.

(** With no dependents to release, the loop takes a queue that is in order
    from front to back. *)
Lemma drv_while_no_dependents {C} reverse
    (assign : C → Task → result (ScheduleEntry * C)) on_release tasks_ graph
    fuel i c s q s' :
  (∀ c t e c', assign c t = Ok (e, c') → entry_of e t) →
  (∀ k, defaultdict_getitem graph k = []) →
  Sorted (key_le t_deadline reverse) q →
  drv_while (py_sorted t_deadline reverse) assign on_release tasks_ graph
    fuel i c s q = Ok s' →
  task_id <$> s' = (task_id <$> s) ++ task_ids q.
Proof.
  intros Hentry Hgraph. revert i c s q.
  induction fuel as [|fuel IH]; intros i c s q Hsorted;
    destruct q as [|t q]; simpl; try done.
  - intros [= <-]. by rewrite app_nil_r.
  - intros [= <-]. by rewrite app_nil_r.
  - intros ([e c1] & He & Hrun)%bind_Ok. rewrite Hgraph in Hrun.
    simpl in Hrun. apply Sorted_inv in Hsorted as [Hq _].
    rewrite (py_sorted_id _ _ _ Hq) in Hrun.
    apply IH in Hrun; [|done]. rewrite Hrun, fmap_app. simpl.
    apply Hentry in He as (-> & _). by rewrite <-app_assoc.
Qed.

Lemma drv_run_no_messages {C} reverse
    (assign : C → Task → result (ScheduleEntry * C)) on_release c0 app s :
  (∀ c t e c', assign c t = Ok (e, c') → entry_of e t) →
  messages app = [] →
  drv_run reverse assign on_release c0 app = Ok s →
  task_id <$> s = t_id <$> py_sorted t_deadline reverse (tasks app).
Proof.
  intros Hentry Hmsg. unfold drv_run. rewrite Hmsg. simpl.
  assert (initially_ready (py_sorted t_deadline reverse (tasks app))
            (init_in_degree (tasks app))
          = py_sorted t_deadline reverse (tasks app)) as ->.
  { apply filter_all, Forall_forall. intros t Ht.
    rewrite init_in_degree_lookup, decide_True; [done|].
    apply list_elem_of_fmap_2. by rewrite py_sorted_elem_of in Ht. }
  rewrite py_sorted_idemp. intros Hrun.
  apply drv_while_no_dependents in Hrun; [done..| |].
  - intros k. unfold defaultdict_getitem. by rewrite lookup_empty.
  - apply StronglySorted_Sorted, py_sorted_sorted.
Qed.

(** X9. Without messages every task is ready from the start, and the
    routines schedule the tasks in the order of the stable sort of the task
    list by deadline -- descending for [ldf_single_node], ascending for
    [edf_single_node] and [edf_multinode]; tasks with one deadline run in
    the order of the caller's list. *)
Theorem without_messages_tasks_run_in_deadline_order app plat :
  messages app = [] →
  (∃ s, (ldf_single_node app).2 = Ok s
        ∧ task_id <$> schedule s
          = t_id <$> py_sorted t_deadline true (tasks app))
  ∧ (∃ s, (edf_single_node app).2 = Ok s
          ∧ task_id <$> schedule s
            = t_id <$> py_sorted t_deadline false (tasks app))
  ∧ (∀ s, (edf_multinode app plat).2 = Ok s →
          task_id <$> schedule s
          = t_id <$> py_sorted t_deadline false (tasks app)).
Proof.
  intros Hmsg.
  assert (receivers_known app) as Hknown
    by (unfold receivers_known; rewrite Hmsg; constructor).
  rewrite ldf_single_node_run, edf_single_node_run, edf_multinode_run.
  simpl. split_and!.
  - destruct (single_run_returns true app Hknown) as [s Hs].
    rewrite Hs. simpl. eexists. split; [done|]. simpl.
    by eapply drv_run_no_messages; [apply assign_single_entry|..].
  - destruct (single_run_returns false app Hknown) as [s Hs].
    rewrite Hs. simpl. eexists. split; [done|]. simpl.
    by eapply drv_run_no_messages; [apply assign_single_entry|..].
  - intros s (l & Hl & [= <-])%bind_Ok. simpl.
    by eapply drv_run_no_messages; [apply assign_multi_entry|..].
Qed.

Lemma without_messages_tasks_run_in_deadline_order_witness :
  (∃ s, (ldf_single_node scenario_app).2 = Ok s
        ∧ task_id <$> schedule s
          = t_id <$> py_sorted t_deadline true (tasks scenario_app))
  ∧ (∃ s, (edf_single_node scenario_app).2 = Ok s
          ∧ task_id <$> schedule s
            = t_id <$> py_sorted t_deadline false (tasks scenario_app))
  ∧ (∀ s, (edf_multinode scenario_app two_nodes).2 = Ok s →
          task_id <$> schedule s
          = t_id <$> py_sorted t_deadline false (tasks scenario_app)).
Proof.
  apply (without_messages_tasks_run_in_deadline_order scenario_app two_nodes).
  reflexivity.
Defined.

Lemma drv_run_nothing_ready {C} reverse
    (assign : C → Task → result (ScheduleEntry * C)) on_release c0 app :
  receivers_known app →
  (∀ t, t ∈ tasks app → ∃ m, m ∈ messages app ∧ receiver m = t_id t) →
  drv_run reverse assign on_release c0 app = Ok [].
Proof.
  intros Hknown Hall. unfold drv_run.
  destruct (build_graph_receivers_known app Hknown) as [[g i] Hbuild].
  rewrite Hbuild. simpl.
  apply build_graph_init in Hbuild as (_ & Hi & _).
  assert (initially_ready (py_sorted t_deadline reverse (tasks app)) i = [])
    as ->.
  { apply filter_none, Forall_forall. intros t Ht.
    rewrite py_sorted_elem_of in Ht.
    rewrite Hi, decide_True by (by apply list_elem_of_fmap_2).
    destruct (Hall t Ht) as (m & Hm & Hr). intros [= Hz].
    assert (unmet (messages app) [] (t_id t) = 0%nat) as Hz' by lia.
    pose proof (unmet_zero _ _ _ m Hz' Hm Hr) as Hin.
    by apply elem_of_nil in Hin. }
  simpl. by destruct (loop_bound i []).
Qed.

(** X11. When every task is the receiver of some message (and every
    receiver is a task), no task is ever ready: each routine returns the
    empty schedule under its name, and raises nothing. *)
Theorem nothing_ready_gives_the_empty_schedule app plat :
  receivers_known app →
  (∀ t, t ∈ tasks app → ∃ m, m ∈ messages app ∧ receiver m = t_id t) →
  (ldf_single_node app).2 = Ok {| schedule := []; name := "LDF Single Node" |}
  ∧ (edf_single_node app).2
    = Ok {| schedule := []; name := "EDF Single Node" |}
  ∧ (edf_multinode app plat).2
    = Ok {| schedule := []; name := "EDF Multi Node" |}.
Proof.
  intros Hknown Hall.
  rewrite ldf_single_node_run, edf_single_node_run, edf_multinode_run.
  simpl. by rewrite !drv_run_nothing_ready.
Qed.

Lemma nothing_ready_gives_the_empty_schedule_witness :
  (ldf_single_node deadlock_app).2
  = Ok {| schedule := []; name := "LDF Single Node" |}
  ∧ (edf_single_node deadlock_app).2
    = Ok {| schedule := []; name := "EDF Single Node" |}
  ∧ (edf_multinode deadlock_app no_nodes).2
    = Ok {| schedule := []; name := "EDF Multi Node" |}.
Proof.
  apply (nothing_ready_gives_the_empty_schedule deadlock_app no_nodes).
  - apply (bool_decide_unpack _). vm_compute. exact I.
  - intros t [->|[->|Ht%elem_of_nil]%elem_of_cons]%elem_of_cons; [| |done].
    + exists (msg "B" "A"). split; [right; left | done].
    + exists (msg "A" "B"). split; [left | done].
Defined.

(** X12. On a platform without nodes [edf_multinode] raises [ValueError]
    (from [min] over the empty [node_time]) as soon as some task is ready,
    that is, when every receiver is a task and some task receives no
    message; the caller's task list has been sorted by then. *)
Theorem edf_multinode_without_nodes_raises_ValueError app plat t :
  nodes plat = [] → receivers_known app →
  t ∈ tasks app → (∀ m, m ∈ messages app → receiver m ≠ t_id t) →
  edf_multinode app plat
  = ({| tasks := py_sorted t_deadline false (tasks app);
        messages := messages app |}, plat, Raise ValueError).
Proof.
  intros Hnodes Hknown Ht Hfree.
  rewrite edf_multinode_run, tasks_after_spec, decide_True by done.
  f_equal. unfold drv_run.
  destruct (build_graph_receivers_known app Hknown) as [[g i] Hbuild].
  rewrite Hbuild, Hnodes. simpl.
  apply build_graph_init in Hbuild as (_ & Hi & _).
  set (q := py_sorted t_deadline false
              (initially_ready (py_sorted t_deadline false (tasks app)) i)).
  assert (t ∈ q) as Hq.
  { unfold q, initially_ready.
    rewrite py_sorted_elem_of, list_elem_of_filter, py_sorted_elem_of.
    split; [|done].
    rewrite Hi, decide_True by (by apply list_elem_of_fmap_2).
    do 2 f_equal. unfold unmet.
    rewrite filter_none; [done|]. apply Forall_forall.
    intros m Hm [Hr _]. by apply (Hfree m). }
  destruct q as [|t' q']; [by apply elem_of_nil in Hq|].
  unfold loop_bound. simpl. done.
Qed.

Lemma edf_multinode_without_nodes_raises_ValueError_witness :
  edf_multinode chain_app no_nodes
  = ({| tasks := py_sorted t_deadline false (tasks chain_app);
        messages := messages chain_app |}, no_nodes, Raise ValueError).
Proof.
  apply (edf_multinode_without_nodes_raises_ValueError chain_app no_nodes
    (task "A" 10 1)).
  - reflexivity.
  - apply (bool_decide_unpack _). vm_compute. exact I.
  - left.
  - by intros m ->%list_elem_of_singleton.
Defined.

(** ** One node: the multi-node routine against the single-node one *)

Lemma on_release_single_any_node tasks_ n n' deps i (c : Z) q :
  drv_release on_release_single tasks_ n deps i c q
  = drv_release on_release_single tasks_ n' deps i c q.
Proof.
  revert i q. induction deps as [|d deps IH]; intros i q; simpl; [done|].
  destruct (dict_getitem i d) as [v| |]; simpl; [|done..].
  case_decide; [|apply IH].
  destruct (next_task tasks_ d) as [dt| |]; simpl; [apply IH | done..].
Qed.

Lemma drv_release_one_node links_ tasks_ n n' deps i (c : Z) q :
  Forall (λ t, ∀ h, t_node_id t = Some h → h = 0 ∨ h = n) tasks_ →
  drv_release (propagate_delay links_) tasks_ n deps i [(n, c)] q
  = (λ '(i', c', q'), (i', [(n, c')], q'))
      <$> drv_release on_release_single tasks_ n' deps i c q.
Proof.
  intros Hhints. revert i q.
  induction deps as [|d deps IH]; intros i q; simpl; [done|].
  destruct (dict_getitem i d) as [v| |]; simpl; [|done..].
  case_decide; [|apply IH].
  destruct (next_task tasks_ d) as [dt| |] eqn:Hdt; simpl; [|done..].
  apply next_task_Ok in Hdt as [Hdt _].
  eapply Forall_forall in Hhints as Hh; [|exact Hdt].
  assert (propagate_delay links_ n dt [(n, c)] = Ok [(n, c)]) as ->.
  { unfold propagate_delay. destruct (t_node_id dt) as [h|]; [|done].
    rewrite decide_False; [done|]. destruct (Hh h eq_refl); tauto. }
  simpl. apply IH.
Qed.

Lemma drv_while_one_node links_ tasks_ graph n fuel i (c : Z)
    (s : list ScheduleEntry) q :
  Forall (λ t, ∀ h, t_node_id t = Some h → h = 0 ∨ h = n) tasks_ →
  drv_while (py_sorted t_deadline false) assign_multi
    (propagate_delay links_) tasks_ graph fuel i [(n, c)] (on_node n <$> s) q
  = fmap (M := list) (on_node n)
      <$> drv_while (py_sorted t_deadline false) assign_single
            on_release_single tasks_ graph fuel i c s q.
Proof.
  intros Hhints. revert i c s q.
  induction fuel as [|fuel IH]; intros i c s q; destruct q as [|t q];
    simpl; try done.
  unfold assign_multi. simpl. rewrite decide_True by done. simpl.
  rewrite decide_True by done.
  rewrite (drv_release_one_node links_ tasks_ n 1) by done.
  destruct (drv_release on_release_single _ _ _ _ _ _)
    as [[[i' c'] q']| |]; simpl; [|done..].
  rewrite <-IH. by rewrite fmap_app.
Qed.

(** X10. On a platform with a single node [n], for tasks that carry no
    ["node_id"] (or carry [0] or [n]), [edf_multinode] returns what
    [edf_single_node] returns -- the same tasks in the same order with the
    same start and end times, or the same exception -- with every entry on
    node [n] instead of node [1], and under its own name. *)
Theorem edf_multinode_on_one_node_is_edf_single_node app plat n :
  nodes plat = [{| n_id := n |}] →
  Forall (λ t, ∀ h, t_node_id t = Some h → h = 0 ∨ h = n) (tasks app) →
  (edf_multinode app plat).2
  = (λ s, {| schedule := on_node n <$> schedule s;
             name := "EDF Multi Node" |})
      <$> (edf_single_node app).2.
Proof.
  intros Hnodes Hhints.
  rewrite edf_multinode_run, edf_single_node_run. simpl.
  unfold drv_run. rewrite Hnodes.
  destruct (build_graph _ _ _) as [[g i]| |]; simpl; [|done..].
  change (init_node_time [{| n_id := n |}]) with [(n, 0)].
  rewrite (drv_while_one_node _ _ _ n _ _ 0 []).
  - by destruct (drv_while _ assign_single _ _ _ _ _ _ _ _).
  - apply Forall_forall. intros t Ht. rewrite py_sorted_elem_of in Ht.
    by eapply Forall_forall in Hhints.
Qed.

Lemma edf_multinode_on_one_node_is_edf_single_node_witness :
  (edf_multinode chain_app (one_node 7)).2
  = (λ s, {| schedule := on_node 7 <$> schedule s;
             name := "EDF Multi Node" |})
      <$> (edf_single_node chain_app).2.
Proof.
  apply (edf_multinode_on_one_node_is_edf_single_node chain_app (one_node 7) 7).
  - reflexivity.
  - apply Forall_forall. intros t Ht h Hh. exfalso.
    repeat (apply elem_of_cons in Ht as [->|Ht]); try discriminate.
    by apply elem_of_nil in Ht.
Defined.

(** ** The order of the caller's task list *)

Lemma py_sorted_perm_eq {A} (key : A → Z) reverse (l l' : list A) :
  l ≡ₚ l' → NoDup (key <$> l) →
  py_sorted key reverse l = py_sorted key reverse l'.
Proof.
  intros Hperm Hnd.
  apply (StronglySorted_unique_strong (key_le key reverse));
    [|apply py_sorted_sorted..|by rewrite !py_sorted_perm].
  intros x y Hx Hy Hxy Hyx.
  rewrite py_sorted_elem_of in Hx. rewrite py_sorted_elem_of, <-Hperm in Hy.
  eapply (fmap_NoDup_inj key); [done..|].
  unfold key_le in *. destruct reverse; lia.
Qed.

Lemma drv_run_perm {C} reverse
    (assign : C → Task → result (ScheduleEntry * C)) on_release c0 app app' :
  tasks app ≡ₚ tasks app' → messages app = messages app' →
  NoDup (t_deadline <$> tasks app) →
  drv_run reverse assign on_release c0 app
  = drv_run reverse assign on_release c0 app'.
Proof.
  intros Hperm Hmsg Hnd. unfold drv_run.
  rewrite <-Hmsg, <-(init_in_degree_perm _ _ Hperm).
  by rewrite <-(py_sorted_perm_eq t_deadline reverse _ _ Hperm Hnd).
Qed.

(** X13. When the deadlines of the tasks are pairwise distinct, the order
    in which the caller lists the tasks does not matter: on two inputs
    with the same messages and the same tasks in different orders, each
    routine returns the same result. *)
Theorem distinct_deadlines_make_the_task_order_irrelevant app app' plat :
  tasks app ≡ₚ tasks app' → messages app = messages app' →
  NoDup (t_deadline <$> tasks app) →
  (ldf_single_node app).2 = (ldf_single_node app').2
  ∧ (edf_single_node app).2 = (edf_single_node app').2
  ∧ (edf_multinode app plat).2 = (edf_multinode app' plat).2.
Proof.
  intros Hperm Hmsg Hnd.
  rewrite !ldf_single_node_run, !edf_single_node_run, !edf_multinode_run.
  simpl. by rewrite !(drv_run_perm _ _ _ _ app app').
Qed.

Lemma distinct_deadlines_make_the_task_order_irrelevant_witness :
  (ldf_single_node chain_app).2 = (ldf_single_node chain_app_shuffled).2
  ∧ (edf_single_node chain_app).2 = (edf_single_node chain_app_shuffled).2
  ∧ (edf_multinode chain_app two_nodes).2
    = (edf_multinode chain_app_shuffled two_nodes).2.
Proof.
  apply (distinct_deadlines_make_the_task_order_irrelevant chain_app
    chain_app_shuffled two_nodes).
  - symmetry.
    exact (Permutation_cons_append [task "A" 10 1; task "B" 5 2]
             (task "C" 5 3)).
  - reflexivity.
  - apply (bool_decide_unpack _). vm_compute. exact I.
Defined.

(** ** [find_link_delay] *)

(** X1. [find_link_delay] returns the delay of the first link of the list
    that leads from [start_node] to [end_node], and [0] when no link does;
    a link in the opposite direction does not count. *)
Theorem find_link_delay_first_match links_ a b :
  (Forall (λ l, ¬ link_matches a b l) links_ →
   find_link_delay links_ a b = 0)
  ∧ (∀ l1 link l2, links_ = l1 ++ link :: l2 →
       Forall (λ l, ¬ link_matches a b l) l1 → link_matches a b link →
       find_link_delay links_ a b = link_delay link).
Proof.
  split.
  - induction 1 as [|l links_ Hl _ IH]; simpl; [done|].
    by rewrite decide_False.
  - intros l1 link l2 -> Hl1 Hlink.
    induction Hl1 as [|l l1 Hl _ IH]; simpl.
    + by rewrite decide_True.
    + by rewrite decide_False.
Qed.

Lemma find_link_delay_first_match_witness :
  find_link_delay (links three_nodes) 2 1 = 0
  ∧ find_link_delay (links three_nodes) 1 3 = 5.
Proof.
  split.
  - apply (proj1 (find_link_delay_first_match (links three_nodes) 2 1)).
    repeat constructor; unfold link_matches; simpl; lia.
  - apply (proj2 (find_link_delay_first_match (links three_nodes) 1 3)
      [{| start_node := 1; end_node := 2; link_delay := 5 |}]
      {| start_node := 1; end_node := 3; link_delay := 5 |} []).
    + reflexivity.
    + repeat constructor; unfold link_matches; simpl; lia.
    + by split.
Defined.

(** ** Priority among the tasks that are ready from the start *)

Section Guarded.
Context {A : Type} (a b : A).

Lemma guarded_head_b l : a ≠ b → ¬ guarded a b (b :: l).
Proof. intros Hne [?|[? _]]; congruence. Qed.

Lemma guarded_app l k : guarded a b l → a ∈ l → guarded a b (l ++ k).
Proof.
  induction l as [|x l IH]; simpl; [by intros _ ?%elem_of_nil|].
  intros [->|[Hx Hl]] Hin; [by left|].
  destruct (elem_of_cons l a x) as [[->|Ha] _]; [done|by left|].
  right. split; [done|]. by apply IH.
Qed.

Lemma guarded_filter (P : A → Prop) `{!∀ x, Decision (P x)} l :
  P a → guarded a b l → guarded a b (filter P l).
Proof.
  intros Ha. induction l as [|x l IH]; simpl; [done|].
  intros [->|[Hx Hl]]; rewrite filter_cons.
  - rewrite decide_True by done. by left.
  - case_decide; [right; split; [done|]|]; by apply IH.
Qed.

Context (key : A → Z) (reverse : bool).

Lemma insert_by_guarded_other x l :
  x ≠ b → guarded a b l → guarded a b (insert_by key reverse x l).
Proof.
  intros Hx. induction l as [|y l IH]; simpl.
  - intros _. by right.
  - intros Hl. destruct (if reverse then _ else _); simpl.
    + right. by split.
    + destruct Hl as [->|[Hy Hl]]; [by left|]. right. split; [done|].
      by apply IH.
Qed.

Lemma insert_by_guarded_self l :
  key_le key reverse a b → guarded a b (insert_by key reverse a l).
Proof.
  intros Hab. induction l as [|y l IH]; simpl; [by left|].
  destruct (if reverse then _ else _) eqn:Htest; simpl; [by left|].
  right. split; [|done]. intros ->.
  apply insert_by_test in Hab. congruence.
Qed.

Lemma py_sorted_guarded l :
  key_le key reverse a b → guarded a b l →
  guarded a b (py_sorted key reverse l).
Proof.
  intros Hab. induction l as [|x l IH]; simpl; [done|].
  intros [->|[Hx Hl]].
  - by apply insert_by_guarded_self.
  - apply insert_by_guarded_other; [done|]. by apply IH.
Qed.

Lemma sorted_guarded l :
  StronglySorted (key_le key reverse) l → a ∈ l →
  ¬ key_le key reverse b a → guarded a b l.
Proof.
  intros Hsorted Hin Hstrict.
  induction Hsorted as [|x l _ IH Hx]; simpl; [done|].
  destruct (elem_of_cons l a x) as [[->|Ha] _]; [done|by left|].
  right. split; [|by apply IH]. intros ->.
  eapply Forall_forall in Hx; [|exact Ha]. done.
Qed.

End Guarded.

#[global] Instance key_le_dec {A} (key : A → Z) reverse x y :
  Decision (key_le key reverse x y).
Proof. unfold key_le. destruct reverse; apply _. Defined.

Section Priority.
Context {C : Type}.
Variable reverse : bool.
Variable assign : C → Task → result (ScheduleEntry * C).
Variable on_release : Z → Task → C → result C.
Hypothesis assign_entry :
  ∀ c t e c', assign c t = Ok (e, c') → entry_of e t.

(** The state of the loop as far as two tasks [a] and [b] go. *)
Lemma drv_while_priority tasks_ graph (a b : Task) fuel i c s q s' :
  NoDup (task_ids tasks_) → a ≠ b → b ∈ tasks_ →
  key_le t_deadline reverse a b →
  (∀ t, t ∈ q → t ∈ tasks_) →
  (t_id a ∈ task_id <$> s ∨ a ∈ q) →
  (t_id b ∈ task_id <$> s ∨ b ∈ q) →
  (t_id a ∈ task_id <$> s ∨ guarded a b q) →
  (t_id b ∈ task_id <$> s → before (task_id <$> s) (t_id a) (t_id b)) →
  drv_while (py_sorted t_deadline reverse) assign on_release tasks_ graph
    fuel i c s q = Ok s' →
  before (task_id <$> s') (t_id a) (t_id b).
Proof.
  intros Hnd Hne Hb Hab Hq HA HB HG HO Hrun.
  destruct (drv_while_rule (py_sorted t_deadline reverse) assign on_release
    tasks_ graph
    (λ _ _ s q,
       (∀ t, t ∈ q → t ∈ tasks_)
       ∧ (t_id a ∈ task_id <$> s ∨ a ∈ q)
       ∧ (t_id b ∈ task_id <$> s ∨ b ∈ q)
       ∧ (t_id a ∈ task_id <$> s ∨ guarded a b q)
       ∧ (t_id b ∈ task_id <$> s →
          before (task_id <$> s) (t_id a) (t_id b))))
    with (2 := conj Hq (conj HA (conj HB (conj HG HO)))) (3 := Hrun)
    as (_ & _ & _ & _ & HB' & _ & HO').
  - clear Hq HA HB HG HO Hrun i c s q s'.
    intros i c s t q e c1 i' c2 q' (Hq & HA & HB & HG & HO) He Hrel.
    apply assign_entry in He as (Hid & _).
    assert (∃ k, q' = q ++ k ∧ ∀ x, x ∈ k → x ∈ tasks_) as (k & -> & Hk).
    { eapply (drv_release_rule on_release tasks_
        (λ _ _ _ q0, ∃ k, q0 = q ++ k ∧ ∀ x, x ∈ k → x ∈ tasks_))
        with (4 := Hrel).
      - by intros.
      - intros d ds i0 c0 q0 v dt c0' (k & -> & Hk) _ _
          [Hdt _]%next_task_Ok _.
        exists (k ++ [dt]). split; [by rewrite app_assoc|].
        intros x [?| ->%list_elem_of_singleton]%elem_of_app; auto.
      - exists []. split; [by rewrite app_nil_r|]. by intros x ?%elem_of_nil. }
    rewrite fmap_app. simpl. rewrite Hid.
    assert (∀ x, x ∈ task_id <$> s → x ∈ (task_id <$> s) ++ [t_id t])
      as Hgrow by (intros x Hx; apply elem_of_app; by left).
    assert (∀ x : Task, x ∈ t :: q →
      t_id x ∈ (task_id <$> s) ++ [t_id t]
      ∨ x ∈ py_sorted t_deadline reverse (q ++ k)) as Hstay.
    { intros x [->|Hx]%elem_of_cons.
      - left. apply elem_of_app. right. left.
      - right. rewrite py_sorted_elem_of. apply elem_of_app. by left. }
    split_and!.
    + intros x. rewrite py_sorted_elem_of.
      intros [Hx|Hx]%elem_of_app; [apply Hq; by right | by apply Hk].
    + destruct HA as [?|?]; [left|]; auto.
    + destruct HB as [?|?]; [left|]; auto.
    + destruct HG as [?|HG]; [left; auto|].
      destruct HA as [?|HA]; [left; auto|].
      apply elem_of_cons in HA as [->|HA];
        [left; apply elem_of_app; right; left|].
      destruct HG as [->|[Htb HG]];
        [left; apply elem_of_app; right; left|].
      right. apply py_sorted_guarded; [done|]. by apply guarded_app.
    + intros [Hin|Heq%list_elem_of_singleton]%elem_of_app.
      * by apply before_app_l, HO.
      * rewrite <- Heq. apply before_snoc.
        destruct (decide (t_id b ∈ task_id <$> s)) as [Hin|Hout].
        { by eapply before_elem_of_l, HO. }
        assert (t = b) as ->.
        { eapply (fmap_NoDup_inj t_id tasks_); [exact Hnd| |done..].
          apply Hq. left. }
        destruct HG as [?|HG]; [done|].
        by apply guarded_head_b in HG.
  - apply HO'. destruct HB' as [?|?%elem_of_nil]; done.
Qed.

Lemma drv_run_priority c0 app (a b : Task) s :
  NoDup (task_ids (tasks app)) → a ≠ b →
  free_task app a → free_task app b →
  has_priority reverse (tasks app) a b →
  drv_run reverse assign on_release c0 app = Ok s →
  before (task_id <$> s) (t_id a) (t_id b).
Proof.
  intros Hnd Hne [Ha Hfa] [Hb Hfb] [Hab Htie]. unfold drv_run.
  intros ([g i] & Hbuild & Hrun)%bind_Ok.
  apply build_graph_init in Hbuild as (_ & Hi & _).
  set (tasks' := py_sorted t_deadline reverse (tasks app)) in *.
  assert (∀ t, free_task app t → t ∈ initially_ready tasks' i) as Hready.
  { intros t [Ht Hfree]. unfold initially_ready, tasks'.
    rewrite list_elem_of_filter, py_sorted_elem_of. split; [|done].
    rewrite Hi, decide_True by (by apply list_elem_of_fmap_2).
    do 2 f_equal. unfold unmet. rewrite filter_none; [done|].
    apply Forall_forall. intros m Hm [Hr _]. by apply (Hfree m). }
  eapply (drv_while_priority tasks') in Hrun; try done.
  - unfold tasks'. by rewrite task_ids_sorted.
  - unfold tasks'. by rewrite py_sorted_elem_of.
  - intros t. rewrite py_sorted_elem_of. unfold initially_ready.
    by intros [_ ?]%list_elem_of_filter.
  - right. rewrite py_sorted_elem_of. by apply Hready.
  - right. rewrite py_sorted_elem_of. by apply Hready.
  - right. apply py_sorted_guarded; [done|].
    unfold initially_ready. apply guarded_filter.
    { rewrite Hi, decide_True by (by apply list_elem_of_fmap_2).
      do 2 f_equal. unfold unmet. rewrite filter_none; [done|].
      apply Forall_forall. intros m Hm [Hr _]. by apply (Hfa m). }
    unfold tasks'.
    destruct (decide (key_le t_deadline reverse b a)) as [Hba|Hba].
    + apply py_sorted_guarded; auto.
    + apply (sorted_guarded a b t_deadline reverse);
        [apply py_sorted_sorted | by rewrite py_sorted_elem_of | done].
  - by intros ?%elem_of_nil.
Qed.

End Priority.

(** X14. Of two tasks that receive no message, each routine schedules first
    the one with the better deadline (the later one for
    [ldf_single_node], the earlier one for the two EDF routines) and, when
    the deadlines are equal, the one the caller lists first -- whatever
    other tasks are released in between.  Task ids are distinct. *)
Theorem free_tasks_are_scheduled_by_priority app plat (a b : Task) :
  NoDup (task_ids (tasks app)) → a ≠ b →
  free_task app a → free_task app b →
  (has_priority true (tasks app) a b →
   ∀ s, (ldf_single_node app).2 = Ok s →
        before (task_id <$> schedule s) (t_id a) (t_id b))
  ∧ (has_priority false (tasks app) a b →
     ∀ s, (edf_single_node app).2 = Ok s ∨ (edf_multinode app plat).2 = Ok s →
          before (task_id <$> schedule s) (t_id a) (t_id b)).
Proof.
  intros Hnd Hne Ha Hb.
  rewrite ldf_single_node_run, edf_single_node_run, edf_multinode_run.
  simpl. split.
  - intros Hprio s (l & Hl & [= <-])%bind_Ok. simpl.
    by eapply drv_run_priority; [apply assign_single_entry|..].
  - intros Hprio s [Hs|Hs]; apply bind_Ok in Hs as (l & Hl & [= <-]); simpl.
    + by eapply drv_run_priority; [apply assign_single_entry|..].
    + by eapply drv_run_priority; [apply assign_multi_entry|..].
Qed.

Lemma free_tasks_are_scheduled_by_priority_witness :
  (∃ s, (ldf_single_node tie_app).2 = Ok s
        ∧ before (task_id <$> schedule s) "1" "0")
  ∧ (∃ s, (edf_multinode tie_app two_nodes).2 = Ok s
          ∧ before (task_id <$> schedule s) "1" "0").
Proof.
  destruct (free_tasks_are_scheduled_by_priority tie_app two_nodes
    (task "1" 20 250) (task "0" 20 250)) as [Hldf Hedf].
  - apply (bool_decide_unpack _). vm_compute. exact I.
  - discriminate.
  - split; [left | by intros m ?%elem_of_nil].
  - split; [right; left | by intros m ?%elem_of_nil].
  - split.
    + eexists. split; [vm_compute; reflexivity|].
      apply Hldf; [|vm_compute; reflexivity].
      split; [unfold key_le; simpl; lia | intros _; by left].
    + eexists. split; [vm_compute; reflexivity|].
      apply Hedf; [|right; vm_compute; reflexivity].
      split; [unfold key_le; simpl; lia | intros _; by left].
Defined.

(** ** The exceptions of [edf_multinode] *)

Section Outcome.
Context {C : Type}.
Variable order : list Task → list Task.
Variable assign : C → Task → result (ScheduleEntry * C).
Variable on_release : Z → Task → C → result C.
Variable tasks_ : list Task.
Variable graph : gmap string (list string).
Variable E : exn → Prop.
Variable CI : C → Prop.
Variable CN : Z → C → Prop.
Hypothesis assign_Ok :
  ∀ c t e c', CI c → assign c t = Ok (e, c') → CN (node_id e) c'.
Hypothesis on_release_Ok :
  ∀ n t c c', CN n c → on_release n t c = Ok c' → CN n c'.
Hypothesis CN_CI : ∀ n c, CN n c → CI c.
Hypothesis assign_Raise : ∀ c t x, CI c → assign c t = Raise x → E x.
Hypothesis on_release_Raise :
  ∀ n t c x, CN n c → on_release n t c = Raise x → E x.

(** The inner loop looks up keys that are there and tasks that exist: what
    it raises, [on_release] raised. *)
Lemma drv_release_outcome n deps i c q :
  (∀ d, d ∈ deps → is_Some (i !! d)) → keys_ok tasks_ graph i → CN n c →
  match drv_release on_release tasks_ n deps i c q with
  | Ok (i', c', _) => keys_ok tasks_ graph i' ∧ CN n c'
  | Raise x => E x
  | OutOfFuel => True
  end.
Proof.
  revert i c q. induction deps as [|d deps IH]; intros i c q Hdeps Hk Hc;
    simpl; [done|].
  destruct (Hdeps d) as [v Hv]; [left|].
  assert (∀ d', d' ∈ deps → is_Some (<[d := v - 1]> i !! d')) as Hdeps'.
  { intros d' Hd'. rewrite lookup_insert. case_decide; [done|].
    apply Hdeps. by right. }
  unfold dict_getitem at 1. rewrite Hv. simpl. case_decide as Hz.
  - destruct (next_task_known tasks_ d) as [dt ->].
    { apply Hk. by rewrite Hv. }
    simpl. destruct (on_release n dt c) as [c'|x|] eqn:Hrel; simpl; [|eauto|done].
    apply IH; [done | by eapply keys_ok_insert | eauto].
  - apply IH; [done | by eapply keys_ok_insert | done].
Qed.

Lemma drv_while_outcome fuel i c s q x :
  keys_ok tasks_ graph i → CI c →
  drv_while order assign on_release tasks_ graph fuel i c s q = Raise x →
  E x.
Proof.
  revert i c s q. induction fuel as [|fuel IH]; intros i c s [|t q] Hk Hc;
    simpl; try done.
  destruct (assign c t) as [[e c1]|y|] eqn:He; simpl; [|intros [= <-]; eauto|done].
  pose proof (drv_release_outcome (node_id e)
    (defaultdict_getitem graph (t_id t)) i c1 q) as Hrel.
  destruct (drv_release _ _ _ _ _ _ _) as [[[i' c2] q']|y|]; simpl;
    [|intros [= <-]|done].
  - destruct Hrel as [Hk' Hc2]; [apply Hk | done | eauto |].
    apply IH; eauto.
  - apply Hrel; [apply Hk | done | eauto].
Qed.

End Outcome.

Lemma node_time_getitem_Raise nt k x :
  node_time_getitem nt k = Raise x → x = KeyError.
Proof.
  induction nt as [|[k' v] nt IH]; simpl; [congruence|].
  case_decide; [done | exact IH].
Qed.

Lemma node_time_setitem_nonempty nt k v : node_time_setitem nt k v ≠ [].
Proof. destruct nt as [|[k' v'] nt]; simpl; [done|]. by case_decide. Qed.

Lemma init_node_time_nil nodes_ : init_node_time nodes_ = [] ↔ nodes_ = [].
Proof.
  destruct (init_node_time_keys nodes_) as (_ & Hkeys & _). split.
  - intros Hnil. destruct nodes_ as [|node rest]; [done|].
    assert (n_id node ∈ (init_node_time (node :: rest)).*1) as Hin
      by (apply Hkeys; left).
    rewrite Hnil in Hin. by apply elem_of_nil in Hin.
  - by intros ->.
Qed.

(** X15. What [edf_multinode] can raise.  It never raises [StopIteration]
    (the task looked up for a released id is always there).  It raises
    [ValueError] only on a platform without nodes, and [KeyError] only when
    a message names a receiver that is no task, or when the platform has
    nodes and some task carries a truthy ["node_id"] that names none of
    them. *)
Theorem edf_multinode_raises_only_KeyError_or_ValueError app plat x :
  (edf_multinode app plat).2 = Raise x →
  (x = KeyError ∧ ¬ receivers_known app)
  ∨ (x = KeyError ∧ receivers_known app ∧ nodes plat ≠ []
     ∧ ¬ hints_known app plat)
  ∨ (x = ValueError ∧ receivers_known app ∧ nodes plat = []).
Proof.
  rewrite edf_multinode_run. simpl.
  destruct (decide (receivers_known app)) as [Hknown|Hknown].
  - destruct (drv_run _ _ _ _ _) as [l|y|] eqn:Hrun; simpl; [done| |done].
    intros [= <-]. right.
    assert ((y = KeyError ∧ nodes plat ≠ [])
            ∨ (y = ValueError ∧ nodes plat = [])) as [[-> Hne]|[-> Hnil]].
    { revert Hrun. unfold drv_run.
      destruct (build_graph_receivers_known app Hknown) as [[g i] Hbuild].
      rewrite Hbuild. simpl.
      apply (drv_while_outcome _ assign_multi (propagate_delay (links plat))
        _ g (λ y, (y = KeyError ∧ nodes plat ≠ [])
                  ∨ (y = ValueError ∧ nodes plat = []))
        (λ nt, nt = [] ↔ nodes plat = [])
        (λ _ nt, nt ≠ [] ∧ nodes plat ≠ [])).
      - intros nt t e nt' Hnt (n & Hn & Hrest)%bind_Ok.
        apply bind_Ok in Hrest as (v & _ & [= _ <-]).
        split; [apply node_time_setitem_nonempty|].
        intros Hnil%Hnt. by rewrite Hnil in Hn.
      - intros n t nt nt' [Hnt Hne]. unfold propagate_delay.
        destruct (t_node_id t) as [h|]; [|by intros [= <-]].
        case_decide; [|by intros [= <-]].
        intros (a & _ & Hrest)%bind_Ok.
        apply bind_Ok in Hrest as (b & _ & [= <-]).
        split; [apply node_time_setitem_nonempty | done].
      - intros n nt [Hnt Hne]. split; [by intros ->|done].
      - intros nt t y' Hnt. unfold assign_multi.
        destruct (min_node nt) as [n|z|] eqn:Hmin; simpl.
        + destruct (node_time_getitem nt n) as [v|z|] eqn:Hget; simpl;
            [done| |done].
          intros [= <-]. left. split; [by eapply node_time_getitem_Raise|].
          intros Hnil%Hnt. by rewrite Hnil in Hmin.
        + intros [= <-]. destruct nt as [|kv nt]; [|done].
          injection Hmin as <-. right. split; [done|]. by apply Hnt.
        + by destruct nt.
      - intros n t nt y' [Hnt Hne]. unfold propagate_delay.
        destruct (t_node_id t) as [h|]; [|done]. case_decide; [|done].
        destruct (node_time_getitem nt h) as [a|z|] eqn:Ha; simpl;
          [|intros [= <-]; left; split;
              [by eapply node_time_getitem_Raise|done]|done].
        destruct (node_time_getitem nt n) as [b|z|] eqn:Hb; simpl;
          [done| |done].
        intros [= <-]. left. split; [by eapply node_time_getitem_Raise|done].
      - by eapply build_graph_keys_ok.
      - apply init_node_time_nil. }
    + left. split_and!; [done..|]. intros Hhints.
      destruct (multi_run_returns app plat Hknown Hne Hhints) as [l Hl].
      congruence.
    + right. done.
  - pose proof Hknown as Hex. apply not_Forall_Exists in Hex; [|apply _].
    apply Exists_exists in Hex as (m & Hm & Hr).
    rewrite (drv_run_unknown_receiver _ _ _ _ app m Hm Hr). simpl.
    intros [= <-]. by left.
Qed.

Lemma edf_multinode_raises_only_KeyError_or_ValueError_witness :
  (KeyError = KeyError ∧ ¬ receivers_known hinted_app)
  ∨ (KeyError = KeyError ∧ receivers_known hinted_app
     ∧ nodes (one_node 1) ≠ [] ∧ ¬ hints_known hinted_app (one_node 1))
  ∨ (KeyError = ValueError ∧ receivers_known hinted_app
     ∧ nodes (one_node 1) = []).
Proof.
  apply (edf_multinode_raises_only_KeyError_or_ValueError hinted_app
    (one_node 1) KeyError).
  vm_compute. reflexivity.
Defined.

(** * C4: what the schedulers do with equal deadlines *)

Lemma before_guarded {A} (l : list A) a b :
  NoDup l → before l a b → a ≠ b ∧ guarded a b l.
Proof.
  intros Hnd Hbefore. split.
  { intros ->. by eapply before_irrefl. }
  destruct Hbefore as (i & j & Hi & Hj & Hlt).
  revert i j Hi Hj Hlt. induction Hnd as [|x l Hx Hnd IH]; intros i j; [done|].
  destruct i as [|i]; simpl; [intros [= ->]; by left|].
  destruct j as [|j]; [lia|]. simpl. intros Hi Hj Hlt. right. split.
  - intros ->. apply Hx. by eapply list_elem_of_lookup_2.
  - eapply IH; [exact Hi | exact Hj | lia].
Qed.

Section Selection.
Context {C : Type}.
Variable reverse : bool.
Variable assign : C → Task → result (ScheduleEntry * C).
Variable on_release : Z → Task → C → result C.
Variable tasks_ : list Task.
Variable graph : gmap string (list string).
Hypothesis assign_entry :
  ∀ c t e c', assign c t = Ok (e, c') → entry_of e t.

Local Abbreviation while :=
  (drv_while (py_sorted t_deadline reverse) assign on_release tasks_ graph).

(** The loop only appends to the schedule. *)
Lemma drv_while_prefix fuel i c s q s' :
  while fuel i c s q = Ok s' → ∃ r, s' = s ++ r.
Proof.
  revert i c s q. induction fuel as [|fuel IH]; intros i c s [|t q]; simpl;
    try done.
  - intros [= <-]. exists []. by rewrite app_nil_r.
  - intros [= <-]. exists []. by rewrite app_nil_r.
  - intros ([e c1] & He & Hrun)%bind_Ok.
    apply bind_Ok in Hrun as ([[i' c2] q'] & Hrel & Hrun).
    apply IH in Hrun as [r ->]. exists (e :: r). by rewrite <- app_assoc.
Qed.

(** The entry it appends first is for the head of the ready queue. *)
Lemma drv_while_next fuel i c s t q s' :
  while fuel i c s (t :: q) = Ok s' →
  ∃ e, s' !! length s = Some e ∧ entry_of e t.
Proof.
  destruct fuel as [|fuel]; simpl; [done|].
  intros ([e c1] & He & Hrun)%bind_Ok.
  apply bind_Ok in Hrun as ([[i' c2] q'] & Hrel & Hrun).
  apply drv_while_prefix in Hrun as [r ->]. exists e. split.
  - rewrite <- app_assoc. by apply list_lookup_middle.
  - by eapply assign_entry.
Qed.

(** Entered with the queue [rq] sorted, the loop serves first the first
    task of [rq] among those with the best deadline. *)
Lemma drv_while_selects fuel i c s rq s' :
  rq ≠ [] →
  while fuel i c s (py_sorted t_deadline reverse rq) = Ok s' →
  ∃ l1 x l2 e, rq = l1 ++ x :: l2
    ∧ Forall (λ y, key_le t_deadline reverse x y
                   ∧ t_deadline y ≠ t_deadline x) l1
    ∧ Forall (λ y, key_le t_deadline reverse x y) l2
    ∧ s' !! length s = Some e ∧ entry_of e x.
Proof.
  intros Hne Hrun.
  destruct (py_sorted t_deadline reverse rq) as [|x r] eqn:Hsorted.
  { apply (f_equal length) in Hsorted. rewrite py_sorted_length in Hsorted.
    by destruct rq. }
  apply py_sorted_head in Hsorted as (l1 & l2 & -> & Hl1 & Hl2).
  apply drv_while_next in Hrun as (e & He & Hentry).
  by exists l1, x, l2, e.
Qed.

(** Of two tasks of [rq] with equal deadlines, the one that stands earlier
    in [rq] is served first, whatever is released in between. *)
Lemma drv_while_serves_in_queue_order fuel i c s rq s' a b :
  NoDup (task_ids tasks_) → NoDup rq → (∀ t, t ∈ rq → t ∈ tasks_) →
  before rq a b → t_deadline a = t_deadline b →
  t_id b ∉ task_id <$> s →
  while fuel i c s (py_sorted t_deadline reverse rq) = Ok s' →
  before (task_id <$> s') (t_id a) (t_id b).
Proof.
  intros Hnd Hrq Hsub Hbefore Hdl Hb Hrun.
  destruct (before_guarded rq a b Hrq Hbefore) as [Hne Hguard].
  assert (a ∈ rq ∧ b ∈ rq) as [Ha Hb'].
  { destruct Hbefore as (j & k & Hj & Hk & _).
    split; by eapply list_elem_of_lookup_2. }
  assert (key_le t_deadline reverse a b) as Hab
    by (unfold key_le; destruct reverse; lia).
  apply (drv_while_priority reverse assign on_release assign_entry
    tasks_ graph a b fuel i c s (py_sorted t_deadline reverse rq) s'
    Hnd Hne (Hsub _ Hb') Hab); [| | | | |exact Hrun].
  - intros t Ht. apply Hsub. by rewrite py_sorted_elem_of in Ht.
  - right. by rewrite py_sorted_elem_of.
  - right. by rewrite py_sorted_elem_of.
  - right. by apply py_sorted_guarded.
  - done.
Qed.

End Selection.

(** C4, as the code has it.  Each loop is entered, at every iteration,
    with the ready queue [rq] just sorted by [sorted(..., key=deadline)]
    (lines 87 and 114, 154 and 181, 317 and 353), with [reverse=True] in
    [ldf_single_node] alone, and the sort is stable: the task id is no sort
    key.

    - The entry the loop of [ldf_single_node] appends next is for the first
      task of [rq] among those with the latest deadline: every task before
      it in [rq] has a strictly earlier deadline, none after it a later
      one.
    - The loops of [edf_single_node] and [edf_multinode] do the same with
      the earliest deadline.
    - In all three loops, of two tasks of the queue with equal deadlines
      the one that stands earlier in [rq] is scheduled first, whatever is
      released and sorted into the queue in between (distinct task ids, the
      queue holding tasks of the list, each once).
    - For two tasks that are ready at the start, this is their order in the
      caller's task list: of two tasks with equal deadlines that receive no
      message, every routine schedules first the one listed first. *)
Theorem schedulers_serve_equal_deadlines_in_queue_order :
  (∀ fuel tasks_ graph in_degree rq current_time s s',
     rq ≠ [] →
     ldf_while fuel tasks_ graph in_degree (py_sorted t_deadline true rq)
       current_time s = Ok s' →
     ∃ l1 x l2 e, rq = l1 ++ x :: l2
       ∧ Forall (λ y, t_deadline y < t_deadline x) l1
       ∧ Forall (λ y, t_deadline y ≤ t_deadline x) l2
       ∧ s' !! length s = Some e ∧ entry_of e x)
  ∧ (∀ fuel tasks_ links_ graph in_degree node_time rq current_time s s',
       rq ≠ [] →
       edf_while fuel tasks_ graph in_degree (py_sorted t_deadline false rq)
         current_time s = Ok s'
       ∨ edf_multinode_while fuel tasks_ links_ graph
           {| m_in_degree := in_degree; m_node_time := node_time;
              m_schedule := s;
              m_ready_queue := py_sorted t_deadline false rq |} = Ok s' →
       ∃ l1 x l2 e, rq = l1 ++ x :: l2
         ∧ Forall (λ y, t_deadline x < t_deadline y) l1
         ∧ Forall (λ y, t_deadline x ≤ t_deadline y) l2
         ∧ s' !! length s = Some e ∧ entry_of e x)
  ∧ (∀ fuel tasks_ links_ graph in_degree node_time rq current_time s s' a b,
       NoDup (task_ids tasks_) → NoDup rq → (∀ t, t ∈ rq → t ∈ tasks_) →
       before rq a b → t_deadline a = t_deadline b →
       t_id b ∉ task_id <$> s →
       ldf_while fuel tasks_ graph in_degree (py_sorted t_deadline true rq)
         current_time s = Ok s'
       ∨ edf_while fuel tasks_ graph in_degree (py_sorted t_deadline false rq)
           current_time s = Ok s'
       ∨ edf_multinode_while fuel tasks_ links_ graph
           {| m_in_degree := in_degree; m_node_time := node_time;
              m_schedule := s;
              m_ready_queue := py_sorted t_deadline false rq |} = Ok s' →
       before (task_id <$> s') (t_id a) (t_id b))
  ∧ (∀ app plat a b s,
       NoDup (task_ids (tasks app)) →
       before (tasks app) a b → t_deadline a = t_deadline b →
       (∀ m, m ∈ messages app →
             receiver m ≠ t_id a ∧ receiver m ≠ t_id b) →
       (ldf_single_node app).2 = Ok s ∨ (edf_single_node app).2 = Ok s
       ∨ (edf_multinode app plat).2 = Ok s →
       before (task_id <$> schedule s) (t_id a) (t_id b)).
Proof.
  split_and!.
  - intros fuel tasks_ graph i rq c s s' Hne. rewrite ldf_while_drv.
    intros (l1 & x & l2 & e & -> & Hl1 & Hl2 & He & Hentry)%drv_while_selects;
      [|apply assign_single_entry|done].
    exists l1, x, l2, e. split_and!; [done| | |done..].
    + eapply Forall_impl; [exact Hl1|]. unfold key_le. simpl. lia.
    + eapply Forall_impl; [exact Hl2|]. unfold key_le. simpl. lia.
  - intros fuel tasks_ links_ graph i nt rq c s s' Hne.
    rewrite edf_while_drv, edf_multinode_while_drv. simpl.
    intros [Hrun|Hrun];
      (apply drv_while_selects in Hrun
         as (l1 & x & l2 & e & -> & Hl1 & Hl2 & He & Hentry);
       [|first [apply assign_single_entry | apply assign_multi_entry]|done]);
      exists l1, x, l2, e; (split_and!; [done| | |done..]);
      (eapply Forall_impl; [eassumption|]); unfold key_le; simpl; lia.
  - intros fuel tasks_ links_ graph in_degree nt rq c s s' a b Hnd Hrq Hsub
      Hbefore Hdl Hb.
    rewrite ldf_while_drv, edf_while_drv, edf_multinode_while_drv. simpl.
    intros [Hrun|[Hrun|Hrun]].
    + by apply (drv_while_serves_in_queue_order true assign_single
        on_release_single tasks_ graph assign_single_entry fuel in_degree
        c s rq s' a b).
    + by apply (drv_while_serves_in_queue_order false assign_single
        on_release_single tasks_ graph assign_single_entry fuel in_degree
        c s rq s' a b).
    + by apply (drv_while_serves_in_queue_order false assign_multi
        (propagate_delay links_) tasks_ graph assign_multi_entry fuel
        in_degree nt s rq s' a b).
  - intros app plat a b s Hnd Hbefore Hdl Hfree.
    assert (NoDup (tasks app)) as Hnd' by (by eapply NoDup_fmap_1).
    destruct (before_guarded _ a b Hnd' Hbefore) as [Hne Hguard].
    assert (free_task app a ∧ free_task app b) as [Ha Hb].
    { destruct Hbefore as (j & k & Hj & Hk & _).
      split; (split; [by eapply list_elem_of_lookup_2|]);
        intros m Hm; by destruct (Hfree m Hm). }
    assert (∀ reverse, has_priority reverse (tasks app) a b) as Hprio.
    { intros reverse. split; [|done]. unfold key_le. destruct reverse; lia. }
    rewrite ldf_single_node_run, edf_single_node_run, edf_multinode_run.
    simpl.
    intros [Hs|[Hs|Hs]]; apply bind_Ok in Hs as (l & Hl & [= <-]); simpl.
    + by eapply drv_run_priority; [apply assign_single_entry|..].
    + by eapply drv_run_priority; [apply assign_single_entry|..].
    + by eapply drv_run_priority; [apply assign_multi_entry|..].
Qed.

Lemma schedulers_serve_equal_deadlines_in_queue_order_witness :
  (∃ s, (edf_multinode tie_release_app two_nodes).2 = Ok s
        ∧ task_id <$> schedule s = ["1"; "2"; "0"]
        ∧ before (task_id <$> schedule s) "1" "0")
  ∧ (∃ s', ldf_while 2 (tasks tie_app) ∅ ∅
             (py_sorted t_deadline true (tasks tie_app)) 0 [] = Ok s'
           ∧ ∃ l1 x l2 e, tasks tie_app = l1 ++ x :: l2
               ∧ Forall (λ y, t_deadline y < t_deadline x) l1
               ∧ Forall (λ y, t_deadline y ≤ t_deadline x) l2
               ∧ s' !! length (@nil ScheduleEntry) = Some e ∧ entry_of e x).
Proof.
  destruct schedulers_serve_equal_deadlines_in_queue_order
    as (Hldf & _ & _ & Hroutines).
  split.
  - eexists. split; [vm_compute; reflexivity|]. split; [reflexivity|].
    apply (Hroutines tie_release_app two_nodes (task "1" 20 250)
      (task "0" 20 250)).
    + apply (bool_decide_unpack _). vm_compute. exact I.
    + exists 0%nat, 1%nat. split_and!; [reflexivity | reflexivity | lia].
    + reflexivity.
    + intros m ->%list_elem_of_singleton. split; discriminate.
    + right. right. vm_compute. reflexivity.
  - eexists. split; [vm_compute; reflexivity|].
    apply (Hldf 2%nat (tasks tie_app) ∅ ∅ (tasks tie_app) 0 []).
    + discriminate.
    + vm_compute. reflexivity.
Defined.
